(** * DNA-analysis: variant generation (core.py) and the form handler
      (sl-connection.py), embedded in Rocq.

    Python strings are lists of characters ([list ascii]); the text handled
    here is ASCII (bases, primers, mode names).  Counts ([k], sample sizes,
    indices) are natural numbers.  The process-wide [random] generator is an
    explicit state threaded through every function that draws from it. *)

From Stdlib Require Import List Arith Lia Bool Ascii.
From Stdlib Require String DecimalString DecimalNat.
From Stdlib Require Import Permutation Sorted.
Import ListNotations String.StringSyntax.

Set Implicit Arguments.
Local Open Scope string_scope.

(** ** Strings *)

Definition str := list ascii.

Definition lit (s : String.string) : str := String.list_ascii_of_string s.

Fixpoint str_eqb (a b : str) : bool :=
  match a, b with
  | [], [] => true
  | x :: a', y :: b' => Ascii.eqb x y && str_eqb a' b'
  | _, _ => false
  end.

(** [x in l] for a list of strings. *)
Definition str_mem (x : str) (l : list str) : bool := existsb (str_eqb x) l.

(** [str.upper()] on ASCII text: the letters a..z move to A..Z, every other
    ASCII character is kept.  Strings of this development stand for ASCII
    text ([ascii_text] below).  For a character outside ASCII the Python
    method consults the Unicode case tables, which are no part of this
    development (it may even lengthen the string); a statement that depends
    on what uppercasing does to the text carries the hypothesis
    [ascii_text]. *)
Definition upper_char (c : ascii) : ascii :=
  let n := nat_of_ascii c in
  if (97 <=? n) && (n <=? 122) then ascii_of_nat (n - 32) else c.

Definition upper (s : str) : str := map upper_char s.

(** [str(n)] for a non-negative integer, as used by the f-strings. *)
Definition dec (n : nat) : str := lit (DecimalString.NilEmpty.string_of_uint (Nat.to_uint n)).

(** [range(n)] and [enumerate(s)]. *)
Definition range (n : nat) : list nat := seq 0 n.

Definition enumerate (A : Type) (l : list A) : list (nat * A) :=
  combine (range (length l)) l.

(** Indexing [s[i]]; every index the code uses is in range, the default
    character is never read. *)
Definition char_at (s : str) (i : nat) : ascii := nth i s "000"%char.

(** ** core.py *)

Definition BASES : list ascii := ["A"; "T"; "C"; "G"]%char.

(** [[b for b in BASES if b != orig]] *)
Definition other_bases (orig : ascii) : list ascii :=
  filter (fun b => negb (Ascii.eqb b orig)) BASES.

Definition single_mutations (seq : str) : list str :=
  flat_map (fun io : nat * ascii =>
              let (i, orig) := io in
              map (fun b => firstn i seq ++ b :: skipn (i + 1) seq)
                  (other_bases orig))
           (enumerate seq).

(** [itertools.combinations(l, k)]: the k-element subsequences of [l] in
    lexicographic order of positions. *)
Fixpoint combinations (A : Type) (l : list A) (k : nat) : list (list A) :=
  match k with
  | 0 => [[]]
  | S k' =>
      match l with
      | [] => []
      | x :: t => map (cons x) (combinations t k') ++ combinations t k
      end
  end.

Definition double_mutations (seq : str) : list str :=
  flat_map (fun ij : list nat =>
              match ij with
              | [i; j] =>
                  flat_map (fun b_i =>
                     map (fun b_j =>
                            firstn i seq ++ b_i ::
                            firstn (j - (i + 1)) (skipn (i + 1) seq) ++ b_j ::
                            skipn (j + 1) seq)
                         (other_bases (char_at seq j)))
                     (other_bases (char_at seq i))
              | _ => []
              end)
           (combinations (range (length seq)) 2).

Definition del1 (seq : str) : list str :=
  map (fun i => firstn i seq ++ skipn (i + 1) seq) (range (length seq)).

Definition del2 (seq : str) : list str :=
  flat_map (fun ij : list nat =>
              match ij with
              | [i; j] =>
                  [firstn i seq ++ firstn (j - (i + 1)) (skipn (i + 1) seq)
                     ++ skipn (j + 1) seq]
              | _ => []
              end)
           (combinations (range (length seq)) 2).

(** ** The random source

    [random] is a process-wide generator.  It is modelled as a tape of raw
    draws with a cursor; [randbelow n] reads one raw draw and reduces it to
    [0 .. n-1].  The library functions the code calls are defined on top of it
    by their documented behaviour. *)

Record rng : Type := Rng { tape : nat -> nat; cursor : nat }.

Inductive exn : Type :=
| ValueError
| IndexError
| StopException.   (* raised by st.stop() after st.error(...) *)

(** Result of running a computation: a value with the generator state after
    it, a raised exception, or a loop that has not finished within the fuel. *)
Inductive outcome (A : Type) : Type :=
| Ok (a : A) (r : rng)
| Raise (e : exn)
| OutOfFuel.

Arguments Raise {A} e.
Arguments OutOfFuel {A}.

Definition M (A : Type) : Type := rng -> outcome A.

Definition ret (A : Type) (a : A) : M A := fun r => Ok a r.

Definition raise (A : Type) (e : exn) : M A := fun _ => Raise e.

Arguments raise {A} e.

Definition bind (A B : Type) (c : M A) (k : A -> M B) : M B :=
  fun r => match c r with
           | Ok a r' => k a r'
           | Raise e => Raise e
           | OutOfFuel => OutOfFuel
           end.

Notation "x <- c ;; k" := (bind c (fun x => k))
  (at level 100, c at next level, right associativity).

Definition randbelow (n : nat) : M nat :=
  fun r => Ok (tape r (cursor r) mod n) (Rng (tape r) (S (cursor r))).

(** [random.choice(xs)]: IndexError on an empty list. *)
Definition choice (A : Type) (xs : list A) : M A :=
  match xs with
  | [] => raise IndexError
  | x :: _ => j <- randbelow (length xs) ;; ret (nth j xs x)
  end.

(** [random.choices(xs, k=k)]: k independent picks, with replacement. *)
Fixpoint choices (A : Type) (xs : list A) (k : nat) : M (list A) :=
  match k with
  | 0 => ret []
  | S k' => x <- choice xs ;; rest <- choices xs k' ;; ret (x :: rest)
  end.

(** Selection from a pool: the picked element leaves the pool. *)
Fixpoint sample_pool (A : Type) (pool : list A) (k : nat) : M (list A) :=
  match k with
  | 0 => ret []
  | S k' =>
      match pool with
      | [] => raise ValueError
      | d :: _ =>
          j <- randbelow (length pool) ;;
          rest <- sample_pool (firstn j pool ++ skipn (S j) pool) k' ;;
          ret (nth j pool d :: rest)
      end
  end.

(** [random.sample(population, k)]: k elements at k distinct positions of the
    population; ValueError when the sample is larger than the population. *)
Definition sample (A : Type) (population : list A) (k : nat) : M (list A) :=
  if length population <? k then raise ValueError
  else sample_pool population k.

(** [sorted(l)] on integers. *)
Fixpoint insert_sorted (x : nat) (l : list nat) : list nat :=
  match l with
  | [] => [x]
  | y :: t => if x <=? y then x :: l else y :: insert_sorted x t
  end.

Definition sorted (l : list nat) : list nat := fold_right insert_sorted [] l.

(** [l[p] = x] on a list; every index the code assigns is in range. *)
Fixpoint list_set (A : Type) (l : list A) (p : nat) (x : A) : list A :=
  match l, p with
  | [], _ => []
  | _ :: t, 0 => x :: t
  | y :: t, S p' => y :: list_set t p' x
  end.

(** [del l[p]]. *)
Definition list_del (A : Type) (l : list A) (p : nat) : list A :=
  firstn p l ++ skipn (S p) l.

(** The [seen] dictionary of the sampling loop: an insertion-ordered
    dictionary whose values are all [None], kept as the list of its keys in
    insertion order.  [seen[key] = None] appends a new key and leaves the
    dictionary as it is when the key is present. *)
Definition od_set (key : str) (seen : list str) : list str :=
  if str_mem key seen then seen else seen ++ [key].

(** The body of the [while] loop of [triple_mutations_sampled]: one draw. *)
Fixpoint triple_assign (seq : str) (pos : list nat) (new_seq : str) : M str :=
  match pos with
  | [] => ret new_seq
  | p :: rest =>
      b <- choice (other_bases (char_at seq p)) ;;
      triple_assign seq rest (list_set new_seq p b)
  end.

Definition triple_draw (seq : str) : M str :=
  picked <- sample (range (length seq)) 3 ;;
  triple_assign seq (sorted picked) seq.

Fixpoint triple_loop (fuel : nat) (seq : str) (sample_size : nat)
                     (seen : list str) : M (list str) :=
  if length seen <? sample_size then
    match fuel with
    | 0 => fun _ => OutOfFuel
    | S fuel' =>
        new_seq <- triple_draw seq ;;
        triple_loop fuel' seq sample_size (od_set new_seq seen)
    end
  else ret seen.

Definition triple_upper (seq : str) : nat :=
  length (combinations (range (length seq)) 3) * 3 ^ 3.

Definition triple_mutations_sampled (fuel : nat) (seq : str) (sample_size : nat)
  : M (list str) :=
  let upper := triple_upper seq in
  let sample_size := Nat.min sample_size upper in
  triple_loop fuel seq sample_size [].

(** The returned dictionary has three fixed keys. *)
Record result : Type := Result {
  sequences : list str;
  core_only : list str;
  report : list str
}.

Definition abs_diff (a b : nat) : nat := (a - b) + (b - a).

Definition is_del_type (mut_type : str) : bool :=
  str_eqb mut_type (lit "del1") || str_eqb mut_type (lit "del2").

Definition process_sequence (fuel : nat) (seq primer_f primer_r mut_type : str)
    (keep_length : bool) (delete_fill_side : str) (sample_size : nat)
  : M result :=
  let seq := upper seq in
  let primer_f := upper primer_f in
  let primer_r := upper primer_r in
  core_list <-
    (if str_eqb mut_type (lit "single") then ret (single_mutations seq)
     else if str_eqb mut_type (lit "double") then ret (double_mutations seq)
     else if str_eqb mut_type (lit "triple") then
            triple_mutations_sampled fuel seq sample_size
     else if str_eqb mut_type (lit "del1") then ret (del1 seq)
     else if str_eqb mut_type (lit "del2") then ret (del2 seq)
     else raise ValueError) ;;
  core_list <-
    (if is_del_type mut_type && keep_length then
       match core_list with
       | [] => raise IndexError          (* core_list[0] *)
       | c0 :: _ =>
           let n_del := abs_diff (length c0) (length seq) in
           fill_seq <- choices BASES n_del ;;
           if str_eqb delete_fill_side (lit "5")
           then ret (map (fun c => fill_seq ++ c) core_list)
           else ret (map (fun c => c ++ fill_seq) core_list)
       end
     else ret core_list) ;;
  let full_list := map (fun c => primer_f ++ c ++ primer_r) core_list in
  let report :=
    map (fun i => mut_type ++ lit "_" ++ dec (i + 1))
        (range (length full_list)) in
  ret (Result full_list core_list report).

(** ** sl-connection.py *)

(** [itertools.product] over the lists of [choices]: the last position
    varies fastest. *)
Fixpoint product (A : Type) (choices : list (list A)) : list (list A) :=
  match choices with
  | [] => [[]]
  | c :: cs => flat_map (fun x => map (cons x) (product cs)) c
  end.

(** [for p, new in zip(pos_tuple, new_bases): tmp[p] = new] *)
Definition assign_all (tmp : str) (pos_tuple : list nat) (new_bases : list ascii)
  : str :=
  fold_left (fun t pn => list_set t (fst pn) (snd pn))
            (combine pos_tuple new_bases) tmp.

Definition _replace_k_mutations (seq : str) (k : nat) : list str :=
  let seq_list := seq in
  let n := length seq in
  flat_map (fun pos_tuple =>
              let choices := map (fun p => other_bases (char_at seq_list p))
                                 pos_tuple in
              map (fun new_bases => assign_all seq_list pos_tuple new_bases)
                  (product choices))
           (combinations (range n) k).

Definition _delete_k_mutations (seq : str) (k : nat) : list str :=
  let n := length seq in
  map (fun pos_tuple =>
         fold_left (fun new_seq p => list_del new_seq p)
                   (rev (sorted pos_tuple)) seq)
      (combinations (range n) k).

Definition newline : ascii := "010"%char.

(** The handler of the "generate" button.  Its inputs are the widget values:
    the raw text of the sequence, the two primers as typed, the selected
    mutation type, [count], [sample_size] and the selected fill side. *)
(** Step 1 of the handler: the core variants, sampled when there are more
    than [sample_size] of them. *)
Definition core_step (seq mut_type : str) (count sample_size : nat)
  : M (list str) :=
  if str_eqb mut_type (lit "replace") then
    let core_list := _replace_k_mutations seq count in
    if sample_size <? length core_list
    then sample core_list sample_size else ret core_list
  else
    let core_list := _delete_k_mutations seq count in
    if sample_size <? length core_list
    then sample core_list sample_size else ret core_list.

Definition run_block (seq_text primer_f primer_r mut_type : str)
    (count sample_size : nat) (fill_side_choice : str) : M result :=
  let seq := upper (filter (fun c => negb (Ascii.eqb c newline)) seq_text) in
  let delete_fill_side :=
    if str_eqb mut_type (lit "delete") then fill_side_choice else lit "5" in
  match seq with
  | [] => raise StopException
  | _ =>
      core_list <- core_step seq mut_type count sample_size ;;
      res <- process_sequence 0 seq primer_f primer_r (lit "del1") true
                              delete_fill_side sample_size ;;
      let res := Result (sequences res) core_list (report res) in
      let res := Result (map (fun c => primer_f ++ c ++ primer_r) core_list)
                        (core_only res) (report res) in
      let res := Result (sequences res) (core_only res)
                   (map (fun i => mut_type ++ lit "_k" ++ dec count ++ lit "_"
                                   ++ dec (i + 1))
                        (range (length core_list))) in
      ret res
  end.

(** ** Vocabulary of the properties *)

(** A sequence over the four-letter alphabet. *)
Definition over_bases (s : str) : Prop := Forall (fun c => In c BASES) s.

(** Positions at which [m] differs from [s]. *)
Definition diff_positions (s m : str) : list nat :=
  filter (fun i => negb (Ascii.eqb (char_at s i) (char_at m i)))
         (range (length s)).

Definition differs_at_exactly (k : nat) (s m : str) : Prop :=
  length m = length s /\ length (diff_positions s m) = k.

(** The binomial coefficient C(n, k), by Pascal's rule. *)
Fixpoint binom (n k : nat) : nat :=
  match n, k with
  | _, 0 => 1
  | 0, S _ => 0
  | S n', S k' => binom n' k' + binom n' k
  end.

(** [c] is obtained from [l] by dropping elements. *)
Inductive subseq (A : Type) : list A -> list A -> Prop :=
| subseq_nil : subseq [] []
| subseq_skip x c l : subseq c l -> subseq c (x :: l)
| subseq_take x c l : subseq c l -> subseq (x :: c) (x :: l).

(** The value a computation returns, when it returns one. *)
Definition value (A : Type) (o : outcome A) : option A :=
  match o with Ok a _ => Some a | _ => None end.

(** The generator state after [t] draws of the sampling loop. *)
Fixpoint rng_after (seq : str) (t : nat) (r : rng) : rng :=
  match t with
  | 0 => r
  | S t' =>
      match triple_draw seq r with
      | Ok _ r' => rng_after seq t' r'
      | _ => r
      end
  end.

(** The string produced by the [t]-th draw of the sampling loop. *)
Definition draw_at (seq : str) (r : rng) (t : nat) : option str :=
  value (triple_draw seq (rng_after seq t r)).

(** A random source under which the loop keeps meeting every variant: each
    string of the exhaustive set is drawn again after any number of draws.
    A source of independent uniform draws has this property with
    probability one. *)
Definition fair (seq : str) (r : rng) : Prop :=
  forall t m, In m (_replace_k_mutations seq 3) ->
              exists t', t <= t' /\ draw_at seq r t' = Some m.

(** A tuple of positions of [s] with one replacement base for each. *)
Definition valid_tuple (s : str) (pos : list nat) (bs : list ascii) : Prop :=
  subseq pos (range (length s)) /\
  length bs = length pos /\
  forall i, i < length pos ->
            In (nth i bs "000"%char) (other_bases (char_at s (nth i pos 0))).

(** The sampling loop, started with [seen] stored, returns for some fuel. *)
Definition halts (seq : str) (target : nat) (seen : list str) (r : rng) : Prop :=
  exists fuel res r', triple_loop fuel seq target seen r = Ok res r'.

(** Two generator states that hold the same raw draws from their cursors on. *)
Definition same_future (r1 r2 : rng) : Prop :=
  forall i, tape r1 (cursor r1 + i) = tape r2 (cursor r2 + i).

Definition same_outcome (A : Type) (o1 o2 : outcome A) : Prop :=
  match o1, o2 with
  | Ok a1 r1, Ok a2 r2 => a1 = a2 /\ same_future r1 r2
  | Raise e1, Raise e2 => e1 = e2
  | OutOfFuel, OutOfFuel => True
  | _, _ => False
  end.

(** A computation that depends on the generator through its future draws
    only. *)
Definition reads_future (A : Type) (c : M A) : Prop :=
  forall r1 r2, same_future r1 r2 -> same_outcome (c r1) (c r2).

(** No computation writes the tape. *)
Definition keeps_tape (A : Type) (c : M A) : Prop :=
  forall r a r', c r = Ok a r' -> tape r' = tape r.

(** A tape of period 162: draw number [t] of the loop on a three-letter
    sequence reads six raw draws, the last three of which are the base-3
    digits of [t mod 27]. *)
Definition cycle_tape (i : nat) : nat :=
  let j := i mod 162 in
  match j mod 6 with
  | 3 => (j / 6) mod 3
  | 4 => (j / 18) mod 3
  | 5 => (j / 54) mod 3
  | _ => 0
  end.

Definition cycle_rng : rng := Rng cycle_tape 0.

(** The core list of the modes that draw nothing, and the assembly of the
    result from a core list. *)
Definition pure_core (mut_type seq : str) : list str :=
  if str_eqb mut_type (lit "single") then single_mutations seq
  else if str_eqb mut_type (lit "double") then double_mutations seq
  else if str_eqb mut_type (lit "del1") then del1 seq
  else del2 seq.

Definition assemble (primer_f primer_r mut_type : str) (core_list : list str)
  : result :=
  Result (map (fun c => primer_f ++ c ++ primer_r) core_list) core_list
         (map (fun i => mut_type ++ lit "_" ++ dec (i + 1))
              (range (length (map (fun c => primer_f ++ c ++ primer_r)
                                  core_list)))).

(** The mutation types [process_sequence] knows. *)
Definition supported (mut_type : str) : Prop :=
  mut_type = lit "single" \/ mut_type = lit "double" \/
  mut_type = lit "triple" \/ mut_type = lit "del1" \/ mut_type = lit "del2".

(** Looks for the draw, among the first 27, that yields a given string. *)
Ltac find_draw i :=
  lazymatch i with
  | 27 => fail
  | _ => (exists i; split; [lia | vm_compute; reflexivity])
         || find_draw constr:(S i)
  end.

(** The padding of one deletion variant with the fill string. *)
Definition pad (delete_fill_side fill_seq c : str) : str :=
  if str_eqb delete_fill_side (lit "5") then fill_seq ++ c else c ++ fill_seq.

(** The deletion variants of the modes del1 and del2, and the number of
    letters each of them lacks. *)
Definition del_core (mut_type seq : str) : list str :=
  if str_eqb mut_type (lit "del1") then del1 seq else del2 seq.

Definition del_count (mut_type : str) : nat :=
  if str_eqb mut_type (lit "del1") then 1 else 2.

(** A string that [upper] leaves as it is. *)
Definition upper_fixed (s : str) : Prop :=
  Forall (fun c => upper_char c = c) s.

(** ASCII text: every character has a code below 128.  On such text [upper]
    is Python's [str.upper()]. *)
Definition ascii_text (s : str) : Prop :=
  Forall (fun c => nat_of_ascii c < 128) s.

Definition ascii_textb (s : str) : bool :=
  forallb (fun c => nat_of_ascii c <? 128) s.

(** The raw draws the generator hands out next are those of [block]. *)
Definition next_draws (r : rng) (block : list nat) : Prop :=
  forall i, i < length block -> tape r (cursor r + i) = nth i block 0.

(** A fair tape, as a property of the raw draws alone.  One turn of the
    sampling loop reads six raw draws (three for the positions, three for the
    bases).  The tape is fair up to [bound] when every block of six raw draws
    below [bound] comes up again, at a turn of the loop, after any number of
    turns.  Independent uniform draws have this property with probability
    one. *)
Definition fair_tape (bound : nat) (r : rng) : Prop :=
  forall block t,
    length block = 6 -> Forall (fun v => v < bound) block ->
    exists t', t <= t' /\
               next_draws (Rng (tape r) (cursor r + 6 * t')) block.

(** A fair tape for every bound: turn [t] of the loop reads the six digits
    of [t] in base [bound], lowest first. *)
Fixpoint digit (bound k n : nat) : nat :=
  match k with
  | 0 => n mod bound
  | S k' => digit bound k' (n / bound)
  end.

Definition digit_tape (bound i : nat) : nat := digit bound (i mod 6) (i / 6).

Definition digit_rng (bound : nat) : rng := Rng (digit_tape bound) 0.

(** The number whose digits in base [bound], lowest first, are [block]. *)
Fixpoint block_code (bound : nat) (block : list nat) : nat :=
  match block with
  | [] => 0
  | b :: bs => b + bound * block_code bound bs
  end.

(** * Proofs *)

(** ** Strings and lists *)

Lemma str_eqb_eq (a b : str) : str_eqb a b = true <-> a = b.
Proof.
  revert b; induction a as [|x a IH]; intros [|y b]; simpl;
    try (split; intro; congruence).
  rewrite andb_true_iff, Ascii.eqb_eq, IH. split.
  - intros [-> ->]; reflexivity.
  - intros H; injection H; auto.
Qed.

Lemma str_eqb_refl (a : str) : str_eqb a a = true.
Proof. now apply str_eqb_eq. Qed.

Lemma str_mem_In (x : str) (l : list str) : str_mem x l = true <-> In x l.
Proof.
  unfold str_mem. rewrite existsb_exists. split.
  - intros (y & Hy & E). apply str_eqb_eq in E. now subst.
  - intros H. exists x. split; [assumption | apply str_eqb_refl].
Qed.

Lemma upper_length (s : str) : length (upper s) = length s.
Proof. apply length_map. Qed.

Lemma list_set_length (A : Type) (l : list A) p x :
  length (list_set l p x) = length l.
Proof.
  revert p; induction l as [|y l IH]; intros [|p]; simpl; auto.
Qed.

Lemma list_set_nth_same (A : Type) (l : list A) p x d :
  p < length l -> nth p (list_set l p x) d = x.
Proof.
  revert p; induction l as [|y l IH]; intros [|p]; simpl; intros H;
    try lia; auto. apply IH. lia.
Qed.

Lemma list_set_nth_other (A : Type) (l : list A) p q x d :
  p <> q -> nth q (list_set l p x) d = nth q l d.
Proof.
  revert p q; induction l as [|y l IH]; intros [|p] [|q]; simpl; intros H;
    try reflexivity; try congruence. apply IH. congruence.
Qed.

Lemma splice_list_set (A : Type) (l : list A) i x :
  i < length l -> firstn i l ++ x :: skipn (i + 1) l = list_set l i x.
Proof.
  revert i; induction l as [|y l IH]; intros [|i]; simpl; intros H;
    try lia; auto.
  f_equal. apply IH. lia.
Qed.

Lemma flat_map_length_const (A B : Type) (f : A -> list B) (l : list A) n :
  (forall x, In x l -> length (f x) = n) ->
  length (flat_map f l) = n * length l.
Proof.
  induction l as [|x l IH]; simpl; intros H; [lia|].
  rewrite length_app, H, IH by auto. lia.
Qed.

Lemma flat_map_nth_block (A B : Type) (f : A -> list B) (l : list A) n :
  (forall x, In x l -> length (f x) = n) ->
  forall i j dx d, i < length l -> j < n ->
    nth (n * i + j) (flat_map f l) d = nth j (f (nth i l dx)) d.
Proof.
  induction l as [|x l IH]; simpl; intros H i j dx d Hi Hj; [lia|].
  destruct i as [|i].
  - rewrite Nat.mul_0_r, app_nth1 by (rewrite H; auto; lia). reflexivity.
  - rewrite app_nth2 by (rewrite H by auto; lia).
    rewrite H by auto.
    replace (n * S i + j - n) with (n * i + j) by lia.
    apply IH; auto. lia.
Qed.

Lemma enumerate_nth (s : str) i :
  i < length s -> nth i (enumerate s) (0, "000"%char) = (i, char_at s i).
Proof.
  intros H. unfold enumerate, range, char_at.
  rewrite combine_nth by apply length_seq.
  rewrite seq_nth by assumption. reflexivity.
Qed.

Lemma enumerate_In (s : str) i c :
  In (i, c) (enumerate s) -> i < length s /\ c = char_at s i.
Proof.
  intros H. apply (In_nth _ _ (0, "000"%char)) in H.
  destruct H as (n & Hn & E). unfold enumerate, range in Hn.
  rewrite length_combine, length_seq, Nat.min_id in Hn.
  rewrite enumerate_nth in E by assumption. injection E as <- <-. auto.
Qed.

Lemma other_bases_In (orig b : ascii) :
  In b (other_bases orig) <-> In b BASES /\ b <> orig.
Proof.
  unfold other_bases. rewrite filter_In, negb_true_iff, Ascii.eqb_neq.
  tauto.
Qed.

Lemma other_bases_length_base (orig : ascii) :
  In orig BASES -> length (other_bases orig) = 3.
Proof.
  simpl. intros [<-|[<-|[<-|[<-|[]]]]]; reflexivity.
Qed.

Lemma other_bases_length_ge (orig : ascii) : 3 <= length (other_bases orig).
Proof.
  unfold other_bases, BASES. cbn [filter].
  destruct (Ascii.eqb "A" orig) eqn:EA;
    [apply Ascii.eqb_eq in EA; subst; simpl; lia|].
  destruct (Ascii.eqb "T" orig) eqn:ET;
    [apply Ascii.eqb_eq in ET; subst; simpl; lia|].
  destruct (Ascii.eqb "C" orig) eqn:EC;
    [apply Ascii.eqb_eq in EC; subst; simpl; lia|].
  destruct (Ascii.eqb "G" orig); cbn [negb length]; lia.
Qed.

Lemma other_bases_NoDup (orig : ascii) : NoDup (other_bases orig).
Proof.
  apply NoDup_filter. unfold BASES.
  repeat constructor; simpl; intuition congruence.
Qed.

(** ** Position tuples: subsequences of [range n] *)

Lemma subseq_In (A : Type) (c l : list A) x : subseq c l -> In x c -> In x l.
Proof.
  induction 1; simpl; intros Hx; auto.
  destruct Hx; auto.
Qed.

Lemma subseq_NoDup (A : Type) (c l : list A) : subseq c l -> NoDup l -> NoDup c.
Proof.
  induction 1; intros Hl; auto; inversion Hl; subst; auto.
  constructor; auto. intros Hx. eauto using subseq_In.
Qed.

Lemma subseq_nil_l (A : Type) (l : list A) : subseq [] l.
Proof. induction l; constructor; auto. Qed.

Lemma subseq_filter (A : Type) (f : A -> bool) (l : list A) :
  subseq (filter f l) l.
Proof.
  induction l as [|x l IH]; simpl; [constructor|].
  destruct (f x); [apply subseq_take | apply subseq_skip]; assumption.
Qed.

Lemma subseq_length (A : Type) (c l : list A) : subseq c l -> length c <= length l.
Proof. induction 1; simpl; lia. Qed.

Lemma range_In (n i : nat) : In i (range n) <-> i < n.
Proof. unfold range. rewrite in_seq. lia. Qed.

Lemma subseq_range_lt (c : list nat) n p : subseq c (range n) -> In p c -> p < n.
Proof. intros H Hp. apply range_In. eauto using subseq_In. Qed.

Lemma subseq_range_NoDup (c : list nat) n : subseq c (range n) -> NoDup c.
Proof. intros H. eapply subseq_NoDup; eauto. apply seq_NoDup. Qed.

(** Selecting from [seq a n] the members of one of its subsequences gives
    that subsequence back. *)
Lemma filter_mem_subseq (c : list nat) : forall a n,
  subseq c (seq a n) ->
  filter (fun j => existsb (Nat.eqb j) c) (seq a n) = c.
Proof.
  intros a n; revert a c.
  induction n as [|n IH]; intros a c H; simpl in *.
  - inversion H; reflexivity.
  - inversion H as [|x c' l' Hs|x c' l' Hs]; subst.
    + assert (Hn : existsb (Nat.eqb a) c = false).
      { apply not_true_is_false. rewrite existsb_exists.
        intros (y & Hy & E). apply Nat.eqb_eq in E. subst y.
        apply (subseq_In a Hs), in_seq in Hy. lia. }
      rewrite Hn. auto.
    + simpl. rewrite Nat.eqb_refl. simpl. f_equal.
      etransitivity; [|apply (IH (S a) c' Hs)].
      apply filter_ext_in. intros j Hj. apply in_seq in Hj.
      destruct (Nat.eqb_spec j a); [lia | reflexivity].
Qed.

(** ** [itertools.combinations] *)

Lemma combinations_In (A : Type) (l c : list A) k :
  In c (combinations l k) <-> subseq c l /\ length c = k.
Proof.
  revert c k. induction l as [|x l IH]; intros c [|k]; simpl.
  - split.
    + intros [<-|[]]. split; constructor.
    + intros [H _]. inversion H. auto.
  - split; [tauto|]. intros [H E]. inversion H; subst. discriminate.
  - split.
    + intros [<-|[]]. split; [apply subseq_nil_l | reflexivity].
    + intros [_ E]. destruct c; [auto | discriminate].
  - rewrite in_app_iff, in_map_iff. split.
    + intros [(c' & <- & Hc')|Hc].
      * apply IH in Hc'. destruct Hc' as [Hs <-].
        split; [apply subseq_take; assumption | reflexivity].
      * apply IH in Hc. destruct Hc as [Hs E].
        split; [apply subseq_skip; assumption | assumption].
    + intros [H E]. inversion H; subst.
      * right. apply IH. auto.
      * left. eexists. split; [reflexivity|]. apply IH.
        simpl in E. split; [assumption | lia].
Qed.

Lemma combinations_length (A : Type) (l : list A) k :
  length (combinations l k) = binom (length l) k.
Proof.
  revert k. induction l as [|x l IH]; intros [|k]; simpl; auto.
  rewrite length_app, length_map, !IH. reflexivity.
Qed.

Lemma NoDup_app_disjoint (A : Type) (l1 l2 : list A) :
  NoDup l1 -> NoDup l2 -> (forall x, In x l1 -> In x l2 -> False) ->
  NoDup (l1 ++ l2).
Proof.
  induction l1 as [|x l1 IH]; simpl; intros H1 H2 D; auto.
  inversion H1; subst. constructor.
  - rewrite in_app_iff. intros [?|?]; [auto | eapply D; eauto].
  - apply IH; eauto.
Qed.

Lemma NoDup_map_inj_in (A B : Type) (f : A -> B) (l : list A) :
  (forall x y, In x l -> In y l -> f x = f y -> x = y) ->
  NoDup l -> NoDup (map f l).
Proof.
  induction l as [|x l IH]; simpl; intros Hinj Hl; [constructor|].
  inversion Hl; subst. constructor.
  - rewrite in_map_iff. intros (y & E & Hy).
    assert (y = x) by (apply Hinj; auto). subst. auto.
  - apply IH; auto.
Qed.

Lemma NoDup_flat_map_disjoint (A B : Type) (f : A -> list B) (l : list A) :
  NoDup l ->
  (forall x, In x l -> NoDup (f x)) ->
  (forall x y m, In x l -> In y l -> In m (f x) -> In m (f y) -> x = y) ->
  NoDup (flat_map f l).
Proof.
  induction l as [|x l IH]; simpl; intros Hl Hf D; [constructor|].
  inversion Hl; subst. apply NoDup_app_disjoint; auto.
  - apply IH; auto. intros; eapply D; eauto.
  - intros m Hm1 Hm2. apply in_flat_map in Hm2. destruct Hm2 as (y & Hy & Hm2).
    assert (x = y) by (eapply D; eauto). subst. auto.
Qed.

Lemma combinations_NoDup (A : Type) (l : list A) k :
  NoDup l -> NoDup (combinations l k).
Proof.
  revert k. induction l as [|x l IH]; intros [|k] Hl; simpl;
    try (repeat constructor; simpl; tauto).
  inversion Hl; subst. apply NoDup_app_disjoint; auto.
  - apply NoDup_map_inj_in; auto. intros; congruence.
  - intros c Hc1 Hc2. apply in_map_iff in Hc1. destruct Hc1 as (c' & <- & _).
    apply combinations_In in Hc2. destruct Hc2 as [Hs _].
    apply H1, (subseq_In x Hs); simpl; auto.
Qed.

Lemma binom_gt (n k : nat) : n < k -> binom n k = 0.
Proof.
  revert k. induction n as [|n IH]; intros [|k] H; simpl; try lia.
  rewrite !IH by lia. reflexivity.
Qed.

Lemma binom_pos (n k : nat) : k <= n -> 0 < binom n k.
Proof.
  revert k. induction n as [|n IH]; intros [|k] H; simpl; try lia.
  assert (0 < binom n k) by (apply IH; lia). lia.
Qed.

Lemma combinations_too_long (A : Type) (l : list A) k :
  length l < k -> combinations l k = [].
Proof.
  intros H. apply length_zero_iff_nil.
  rewrite combinations_length. now apply binom_gt.
Qed.

(** ** [itertools.product] *)

Lemma product_In (A : Type) (cs : list (list A)) (bs : list A) :
  In bs (product cs) <-> Forall2 (fun b c => In b c) bs cs.
Proof.
  revert bs. induction cs as [|c cs IH]; intros bs; simpl.
  - split.
    + intros [<-|[]]. constructor.
    + intros H; inversion H; auto.
  - rewrite in_flat_map. split.
    + intros (x & Hx & Hb). apply in_map_iff in Hb.
      destruct Hb as (bs' & <- & Hb). constructor; auto. now apply IH.
    + intros H. inversion H; subst. eexists. split; [eassumption|].
      apply in_map_iff. eexists. split; [reflexivity|]. now apply IH.
Qed.

Lemma product_NoDup (A : Type) (cs : list (list A)) :
  Forall (@NoDup A) cs -> NoDup (product cs).
Proof.
  induction 1 as [|c cs Hc Hcs IH]; simpl.
  - repeat constructor. simpl; tauto.
  - apply NoDup_flat_map_disjoint; auto.
    + intros x _. apply NoDup_map_inj_in; auto. intros; congruence.
    + intros x y m _ _ Hx Hy. apply in_map_iff in Hx, Hy.
      destruct Hx as (? & <- & _). destruct Hy as (? & E & _). congruence.
Qed.

Lemma product_length_const (A : Type) (cs : list (list A)) n :
  Forall (fun c => length c = n) cs -> length (product cs) = n ^ length cs.
Proof.
  induction 1 as [|c cs Hc Hcs IH]; simpl; auto.
  rewrite (@flat_map_length_const _ _ _ _ (length (product cs))).
  - rewrite IH, Hc. lia.
  - intros. apply length_map.
Qed.

Lemma product_length_ge (A : Type) (cs : list (list A)) n :
  Forall (fun c => n <= length c) cs -> n ^ length cs <= length (product cs).
Proof.
  induction 1 as [|c cs Hc Hcs IH]; simpl; auto.
  rewrite (@flat_map_length_const _ _ _ _ (length (product cs))).
  - nia.
  - intros. apply length_map.
Qed.

(** ** Assigning new bases at a tuple of positions *)

Lemma assign_all_cons t p pos b bs :
  assign_all t (p :: pos) (b :: bs) = assign_all (list_set t p b) pos bs.
Proof. reflexivity. Qed.

Lemma assign_all_length pos : forall t bs,
  length (assign_all t pos bs) = length t.
Proof.
  induction pos as [|p pos IH]; intros t [|b bs]; try reflexivity.
  rewrite assign_all_cons, IH. apply list_set_length.
Qed.

Lemma assign_all_notin pos : forall t bs j,
  ~ In j pos -> char_at (assign_all t pos bs) j = char_at t j.
Proof.
  induction pos as [|p pos IH]; intros t [|b bs] j Hj; try reflexivity.
  rewrite assign_all_cons, IH by (simpl in Hj; tauto).
  apply list_set_nth_other. simpl in Hj. intros ->. tauto.
Qed.

Lemma assign_all_in pos : forall t bs i d,
  NoDup pos -> length bs = length pos ->
  (forall p, In p pos -> p < length t) ->
  i < length pos ->
  char_at (assign_all t pos bs) (nth i pos 0) = nth i bs d.
Proof.
  induction pos as [|p pos IH]; intros t [|b bs] i d Hnd Hlen Hlt Hi;
    simpl in Hlen, Hi; try lia.
  inversion Hnd; subst. rewrite assign_all_cons. destruct i as [|i]; simpl.
  - rewrite assign_all_notin by assumption.
    apply list_set_nth_same. apply Hlt. simpl; auto.
  - apply IH; auto; try lia.
    intros q Hq. rewrite list_set_length. apply Hlt. simpl; auto.
Qed.

Lemma product_choices_valid (s : str) pos bs :
  subseq pos (range (length s)) ->
  In bs (product (map (fun p => other_bases (char_at s p)) pos)) ->
  valid_tuple s pos bs.
Proof.
  intros Hs Hb. split; [assumption|]. apply product_In in Hb.
  clear Hs. revert bs Hb. induction pos as [|p pos IH]; intros bs Hb;
    inversion Hb; subst; simpl.
  - split; [reflexivity | intros; lia].
  - destruct (IH _ H3) as [E Hn]. split; [lia|].
    intros [|i] Hi; [assumption | apply Hn; lia].
Qed.

Lemma valid_tuple_differs (s : str) pos bs j :
  valid_tuple s pos bs -> j < length s ->
  negb (Ascii.eqb (char_at s j) (char_at (assign_all s pos bs) j))
  = existsb (Nat.eqb j) pos.
Proof.
  intros (Hs & Hlen & Hb) Hj.
  destruct (in_dec Nat.eq_dec j pos) as [Hin|Hout].
  - assert (E : existsb (Nat.eqb j) pos = true).
    { apply existsb_exists. exists j. split; [assumption | apply Nat.eqb_refl]. }
    rewrite E. apply (In_nth _ _ 0) in Hin. destruct Hin as (i & Hi & <-).
    rewrite (@assign_all_in pos s bs i "000"%char); auto.
    + specialize (Hb i Hi). apply other_bases_In in Hb.
      apply negb_true_iff, Ascii.eqb_neq. intros E'. apply (proj2 Hb). auto.
    + eapply subseq_range_NoDup; eauto.
    + intros p Hp. eapply subseq_range_lt; eauto.
  - rewrite assign_all_notin by assumption.
    rewrite Ascii.eqb_refl. simpl. symmetry.
    apply not_true_is_false. rewrite existsb_exists.
    intros (y & Hy & E). apply Nat.eqb_eq in E. subst. auto.
Qed.

(** The positions of a valid tuple are read off the string it produces. *)
Lemma valid_tuple_positions (s : str) pos bs :
  valid_tuple s pos bs -> diff_positions s (assign_all s pos bs) = pos.
Proof.
  intros H. unfold diff_positions.
  rewrite (filter_ext_in _ (fun j => existsb (Nat.eqb j) pos)).
  - apply filter_mem_subseq. apply H.
  - intros j Hj. apply range_In in Hj. now apply valid_tuple_differs.
Qed.

(** So are its bases. *)
Lemma valid_tuple_bases (s : str) pos bs :
  valid_tuple s pos bs -> map (char_at (assign_all s pos bs)) pos = bs.
Proof.
  intros (Hs & Hlen & Hb).
  apply (nth_ext _ _ "000"%char "000"%char).
  - rewrite length_map. auto.
  - intros i Hi. rewrite length_map in Hi.
    rewrite (nth_indep _ _ (char_at (assign_all s pos bs) 0))
      by (rewrite length_map; assumption).
    rewrite map_nth. apply assign_all_in; auto.
    + eapply subseq_range_NoDup; eauto.
    + intros p Hp. eapply subseq_range_lt; eauto.
Qed.

(** ** [_replace_k_mutations]: the exhaustive set *)

Lemma replace_k_In_tuple (s : str) k m :
  In m (_replace_k_mutations s k) <->
  exists pos bs, valid_tuple s pos bs /\ length pos = k /\
                 m = assign_all s pos bs.
Proof.
  unfold _replace_k_mutations. rewrite in_flat_map. split.
  - intros (pos & Hpos & Hm). apply combinations_In in Hpos.
    destruct Hpos as [Hs Hk]. apply in_map_iff in Hm.
    destruct Hm as (bs & <- & Hbs). exists pos, bs.
    split; [now apply product_choices_valid | auto].
  - intros (pos & bs & Hv & Hk & ->). exists pos. split.
    + apply combinations_In. split; [apply Hv | assumption].
    + apply in_map. apply product_In. destruct Hv as (_ & Hlen & Hb).
      clear Hk. revert bs Hlen Hb. induction pos as [|p pos IH];
        intros [|b bs] Hlen Hb; simpl in Hlen; try lia; constructor.
      * apply (Hb 0). simpl; lia.
      * apply IH; [lia|]. intros i Hi. apply (Hb (S i)). simpl; lia.
Qed.

Lemma replace_k_NoDup (s : str) k : NoDup (_replace_k_mutations s k).
Proof.
  unfold _replace_k_mutations. apply NoDup_flat_map_disjoint.
  - apply combinations_NoDup. apply seq_NoDup.
  - intros pos Hpos. apply combinations_In in Hpos. destruct Hpos as [Hs _].
    apply NoDup_map_inj_in.
    + intros b1 b2 H1 H2 E.
      rewrite <- (valid_tuple_bases (product_choices_valid _ _ Hs H1)).
      rewrite <- (valid_tuple_bases (product_choices_valid _ _ Hs H2)).
      now rewrite E.
    + apply product_NoDup. apply Forall_forall. intros c Hc.
      apply in_map_iff in Hc. destruct Hc as (p & <- & _).
      apply other_bases_NoDup.
  - intros p1 p2 m H1 H2 Hm1 Hm2.
    apply combinations_In in H1, H2. destruct H1 as [Hs1 _], H2 as [Hs2 _].
    apply in_map_iff in Hm1, Hm2.
    destruct Hm1 as (b1 & <- & Hb1). destruct Hm2 as (b2 & E & Hb2).
    rewrite <- (valid_tuple_positions (product_choices_valid _ _ Hs1 Hb1)).
    rewrite <- (valid_tuple_positions (product_choices_valid _ _ Hs2 Hb2)).
    now rewrite E.
Qed.

Lemma flat_map_length_ge (A B : Type) (f : A -> list B) (l : list A) n :
  (forall x, In x l -> n <= length (f x)) ->
  n * length l <= length (flat_map f l).
Proof.
  induction l as [|x l IH]; simpl; intros H; [lia|].
  rewrite length_app. specialize (H x (or_introl eq_refl)) as Hx.
  assert (n * length l <= length (flat_map f l)) by auto. lia.
Qed.

Lemma replace_k_length_ge (s : str) k :
  3 ^ k * binom (length s) k <= length (_replace_k_mutations s k).
Proof.
  unfold _replace_k_mutations.
  replace (binom (length s) k)
    with (length (combinations (range (length s)) k))
    by (rewrite combinations_length; unfold range; now rewrite length_seq).
  - apply flat_map_length_ge. intros pos Hpos.
    apply combinations_In in Hpos. destruct Hpos as [_ <-].
    rewrite length_map.
    rewrite <- (length_map (fun p => other_bases (char_at s p)) pos).
    apply product_length_ge. apply Forall_forall. intros c Hc.
    apply in_map_iff in Hc. destruct Hc as (p & <- & _).
    apply other_bases_length_ge.
Qed.

Lemma over_bases_char_at (s : str) p :
  over_bases s -> p < length s -> In (char_at s p) BASES.
Proof.
  intros H Hp. unfold over_bases in H. rewrite Forall_forall in H.
  apply H. now apply nth_In.
Qed.

Lemma replace_k_length (s : str) k :
  over_bases s ->
  length (_replace_k_mutations s k) = 3 ^ k * binom (length s) k.
Proof.
  intros Hs. unfold _replace_k_mutations.
  replace (binom (length s) k)
    with (length (combinations (range (length s)) k))
    by (rewrite combinations_length; unfold range; now rewrite length_seq).
  apply flat_map_length_const. intros pos Hpos.
  apply combinations_In in Hpos. destruct Hpos as [Hsub <-].
  rewrite length_map.
  rewrite <- (length_map (fun p => other_bases (char_at s p)) pos).
  apply product_length_const. apply Forall_forall. intros c Hc.
  apply in_map_iff in Hc. destruct Hc as (p & <- & Hp).
  apply other_bases_length_base, over_bases_char_at; auto.
  eapply subseq_range_lt; eauto.
Qed.

(** Membership in the exhaustive set, in terms of the strings alone. *)
Lemma replace_k_In (s : str) k m :
  In m (_replace_k_mutations s k) <->
  differs_at_exactly k s m /\
  forall j, In j (diff_positions s m) -> In (char_at m j) BASES.
Proof.
  rewrite replace_k_In_tuple. split.
  - intros (pos & bs & Hv & Hk & ->).
    unfold differs_at_exactly.
    rewrite assign_all_length, (valid_tuple_positions Hv).
    repeat split; auto.
    intros j Hj. apply (In_nth _ _ 0) in Hj. destruct Hj as (i & Hi & <-).
    destruct Hv as (Hs & Hlen & Hb).
    rewrite (@assign_all_in pos s bs i "000"%char); auto.
    + specialize (Hb i Hi). apply other_bases_In in Hb. tauto.
    + eapply subseq_range_NoDup; eauto.
    + intros p Hp. eapply subseq_range_lt; eauto.
  - intros [[Hlen Hk] Hb].
    set (pos := diff_positions s m) in *.
    assert (Hsub : subseq pos (range (length s))) by apply subseq_filter.
    assert (Hv : valid_tuple s pos (map (char_at m) pos)).
    { split; [assumption|]. split; [apply length_map|].
      intros i Hi.
      rewrite (nth_indep _ _ (char_at m 0)) by (rewrite length_map; assumption).
      rewrite map_nth. apply other_bases_In. split.
      - apply Hb. now apply nth_In.
      - assert (Hin : In (nth i pos 0) pos) by now apply nth_In.
        pose proof (proj2 (proj1 (filter_In _ _ _) Hin)) as Hne.
        apply negb_true_iff, Ascii.eqb_neq in Hne. congruence. }
    exists pos, (map (char_at m) pos). repeat split; try apply Hv; auto.
    apply (nth_ext _ _ "000"%char "000"%char).
    + now rewrite assign_all_length.
    + intros j Hj. rewrite Hlen in Hj.
      change (char_at m j = char_at (assign_all s pos (map (char_at m) pos)) j).
      destruct (in_dec Nat.eq_dec j pos) as [Hin|Hout].
      * apply (In_nth _ _ 0) in Hin. destruct Hin as (i & Hi & <-).
        rewrite (@assign_all_in pos s _ i "000"%char);
          [ | eapply subseq_range_NoDup; eauto | apply length_map
            | intros p Hp; eapply subseq_range_lt; eauto | assumption ].
        rewrite (nth_indep _ _ (char_at m 0))
          by (rewrite length_map; assumption).
        now rewrite map_nth.
      * rewrite assign_all_notin by assumption.
        destruct (Ascii.eqb (char_at s j) (char_at m j)) eqn:E.
        -- apply Ascii.eqb_eq in E. auto.
        -- exfalso. apply Hout. apply filter_In.
           split; [now apply range_In | now rewrite E].
Qed.

(** ** [single_mutations] *)

Lemma single_mutations_block (s : str) x :
  over_bases s -> In x (enumerate s) ->
  length (let (i, orig) := x in
          map (fun b => firstn i s ++ b :: skipn (i + 1) s) (other_bases orig))
  = 3.
Proof.
  intros Hs Hx. destruct x as [i orig]. apply enumerate_In in Hx.
  destruct Hx as [Hi ->]. rewrite length_map.
  apply other_bases_length_base, over_bases_char_at; auto.
Qed.

Lemma single_mutations_In (s m : str) :
  In m (single_mutations s) <->
  exists i b, i < length s /\ In b (other_bases (char_at s i)) /\
              m = list_set s i b.
Proof.
  unfold single_mutations. rewrite in_flat_map. split.
  - intros ([i orig] & Hx & Hm). apply enumerate_In in Hx.
    destruct Hx as [Hi ->]. apply in_map_iff in Hm.
    destruct Hm as (b & <- & Hb). exists i, b.
    rewrite splice_list_set by assumption. auto.
  - intros (i & b & Hi & Hb & ->). exists (i, char_at s i). split.
    + rewrite <- enumerate_nth by assumption. apply nth_In.
      unfold enumerate, range. rewrite length_combine, length_seq. lia.
    + apply in_map_iff. exists b. split; [now apply splice_list_set | auto].
Qed.

Lemma subseq_singleton (A : Type) (x : A) (l : list A) :
  In x l -> subseq [x] l.
Proof.
  induction l as [|y l IH]; simpl; intros H; [tauto|].
  destruct H as [->|H].
  - apply subseq_take, subseq_nil_l.
  - apply subseq_skip; auto.
Qed.

Lemma single_mutations_in_replace_1 (s m : str) :
  In m (single_mutations s) -> In m (_replace_k_mutations s 1).
Proof.
  rewrite single_mutations_In, replace_k_In_tuple.
  intros (i & b & Hi & Hb & ->). exists [i], [b]. repeat split; auto.
  - apply subseq_singleton. now apply range_In.
  - simpl. intros [|j] Hj; [assumption | lia].
Qed.

Lemma diff_positions_refl (s : str) : diff_positions s s = [].
Proof.
  unfold diff_positions. induction (range (length s)) as [|i l IH]; simpl; auto.
  now rewrite Ascii.eqb_refl.
Qed.

Lemma differs_not_equal (k : nat) (s m : str) :
  0 < k -> differs_at_exactly k s m -> m <> s.
Proof.
  intros Hk [_ H] ->. rewrite diff_positions_refl in H. simpl in H. lia.
Qed.

(** C3.  For a sequence over A, T, C, G, [single_mutations] returns three
    entries per position: the entry at index [3*i + j] is the sequence with
    position [i] replaced by the [j]-th letter of A, T, C, G without the
    original one; every entry differs from the sequence at exactly one
    position and none equals it. *)
Theorem single_mutations_spec (s : str) :
  over_bases s ->
  length (single_mutations s) = 3 * length s /\
  (forall i j, i < length s -> j < 3 ->
     nth (3 * i + j) (single_mutations s) [] =
     firstn i s ++
     nth j (filter (fun b => negb (Ascii.eqb b (char_at s i)))
                   ["A"; "T"; "C"; "G"]%char) "000"%char
     :: skipn (i + 1) s) /\
  (forall m, In m (single_mutations s) ->
     m <> s /\ differs_at_exactly 1 s m).
Proof.
  intros Hs. split; [|split].
  - unfold single_mutations.
    rewrite (@flat_map_length_const _ _ _ _ 3).
    + unfold enumerate, range. rewrite length_combine, length_seq. lia.
    + intros x Hx. now apply single_mutations_block.
  - intros i j Hi Hj. unfold single_mutations.
    rewrite (@flat_map_nth_block _ _ _ _ 3) with (dx := (0, "000"%char)).
    + rewrite enumerate_nth by assumption.
      change (filter _ _) with (other_bases (char_at s i)).
      assert (Hl : length (other_bases (char_at s i)) = 3)
        by (apply other_bases_length_base, over_bases_char_at; auto).
      rewrite (nth_indep _ [] ((fun b => firstn i s ++ b :: skipn (i + 1) s)
                                 "000"%char))
        by (rewrite length_map; lia).
      apply (map_nth (fun b => firstn i s ++ b :: skipn (i + 1) s)).
    + intros x Hx. now apply single_mutations_block.
    + unfold enumerate, range. rewrite length_combine, length_seq. lia.
    + assumption.
  - intros m Hm. apply single_mutations_in_replace_1, replace_k_In in Hm.
    destruct Hm as [Hd _]. split; [|assumption].
    apply (@differs_not_equal 1); auto.
Qed.

Lemma single_mutations_spec_witness :
  over_bases (lit "ATG") /\
  length (single_mutations (lit "ATG")) = 9 /\
  nth 0 (single_mutations (lit "ATG")) [] = lit "TTG".
Proof.
  assert (H : over_bases (lit "ATG")).
  { unfold over_bases. repeat constructor; simpl; tauto. }
  split; [exact H|].
  destruct (single_mutations_spec H) as (Hlen & Hnth & _).
  split; [exact Hlen|].
  exact (Hnth 0 0 ltac:(simpl; lia) ltac:(lia)).
Defined.

(** ** The random source *)

Lemma bind_Ok (A B : Type) (c : M A) (k : A -> M B) r a r' :
  c r = Ok a r' -> bind c k r = k a r'.
Proof. unfold bind. now intros ->. Qed.

Lemma bind_inv (A B : Type) (c : M A) (k : A -> M B) r b r2 :
  bind c k r = Ok b r2 -> exists a r1, c r = Ok a r1 /\ k a r1 = Ok b r2.
Proof.
  unfold bind. destruct (c r) as [a r1| |]; try discriminate. eauto.
Qed.

Lemma randbelow_Ok (n : nat) (r : rng) :
  randbelow n r = Ok (tape r (cursor r) mod n) (Rng (tape r) (S (cursor r))).
Proof. reflexivity. Qed.

Lemma choice_Ok (A : Type) (xs : list A) (r : rng) :
  xs <> [] ->
  exists x, In x xs /\ choice xs r = Ok x (Rng (tape r) (S (cursor r))).
Proof.
  destruct xs as [|x0 xs]; [congruence|]. intros _.
  unfold choice. rewrite (@bind_Ok _ _ _ _ _ _ _ (randbelow_Ok _ r)).
  eexists. split; [|reflexivity].
  apply nth_In. apply Nat.mod_upper_bound. simpl; lia.
Qed.

Lemma other_bases_nonempty (c : ascii) : other_bases c <> [].
Proof.
  pose proof (other_bases_length_ge c) as H.
  destruct (other_bases c); simpl in H; [lia | discriminate].
Qed.

Lemma split_at (A : Type) (l : list A) j d :
  j < length l -> l = firstn j l ++ nth j l d :: skipn (S j) l.
Proof.
  revert j; induction l as [|x l IH]; intros [|j] H; simpl in *; try lia; auto.
  f_equal. apply IH. lia.
Qed.

Lemma remove_at_length (A : Type) (l : list A) j :
  j < length l -> length (firstn j l ++ skipn (S j) l) = length l - 1.
Proof.
  intros H. rewrite length_app, length_firstn, length_skipn. lia.
Qed.

(** Selection from the pool returns [k] elements taken out of the pool one
    after the other: what is returned and what is left make up the pool. *)
Lemma sample_pool_Ok (A : Type) (k : nat) : forall (pool : list A) (r : rng),
  k <= length pool ->
  exists res r', sample_pool pool k r = Ok res r' /\ length res = k /\
                 exists rest, Permutation pool (res ++ rest).
Proof.
  induction k as [|k IH]; intros pool r Hk.
  - exists [], r. repeat split. exists pool. reflexivity.
  - destruct pool as [|d pool]; [simpl in Hk; lia|].
    set (p := d :: pool) in *.
    set (j := tape r (cursor r) mod length p).
    assert (Hj : j < length p) by (apply Nat.mod_upper_bound; simpl; lia).
    destruct (IH (firstn j p ++ skipn (S j) p) (Rng (tape r) (S (cursor r))))
      as (res & r' & E & Hlen & rest & Hperm).
    { rewrite remove_at_length by assumption. lia. }
    exists (nth j p d :: res), r'. split; [|split].
    + change (sample_pool p (S k) r) with
        (bind (randbelow (length p))
              (fun j => bind (sample_pool (firstn j p ++ skipn (S j) p) k)
                             (fun rest => ret (nth j p d :: rest))) r).
      rewrite (@bind_Ok _ _ _ _ _ _ _ (randbelow_Ok _ r)). fold j.
      rewrite (@bind_Ok _ _ _ _ _ _ _ E). reflexivity.
    + simpl. now rewrite Hlen.
    + exists rest. rewrite (split_at p d Hj) at 1.
      simpl. rewrite <- Permutation_middle. now constructor.
Qed.

Lemma sample_Ok (A : Type) (population : list A) (k : nat) (r : rng) :
  k <= length population ->
  exists res r', sample population k r = Ok res r' /\ length res = k /\
                 exists rest, Permutation population (res ++ rest).
Proof.
  intros Hk. unfold sample.
  destruct (Nat.ltb_spec (length population) k); [lia|].
  now apply sample_pool_Ok.
Qed.

Lemma sample_inv (A : Type) (population : list A) (k : nat) (r : rng) res r' :
  sample population k r = Ok res r' -> k <= length population.
Proof.
  unfold sample. destruct (Nat.ltb_spec (length population) k); [|lia].
  discriminate.
Qed.

(** ** [sorted] *)

Lemma insert_sorted_perm (x : nat) (l : list nat) :
  Permutation (insert_sorted x l) (x :: l).
Proof.
  induction l as [|y l IH]; simpl; auto.
  destruct (x <=? y); auto.
  rewrite IH. apply perm_swap.
Qed.

Lemma sorted_perm (l : list nat) : Permutation (sorted l) l.
Proof.
  induction l as [|x l IH]; simpl; auto.
  rewrite insert_sorted_perm. now constructor.
Qed.

Lemma insert_sorted_sorted (x : nat) (l : list nat) :
  StronglySorted le l -> StronglySorted le (insert_sorted x l).
Proof.
  induction 1 as [|y l Hs IH Hy]; simpl.
  - repeat constructor.
  - destruct (Nat.leb_spec x y).
    + constructor; [constructor; assumption|].
      constructor; [assumption|].
      eapply Forall_impl; [|exact Hy]. simpl. intros; lia.
    + constructor; [assumption|].
      apply (Permutation_Forall (Permutation_sym (insert_sorted_perm x l))).
      constructor; [lia | assumption].
Qed.

Lemma sorted_sorted (l : list nat) : StronglySorted le (sorted l).
Proof.
  induction l as [|x l IH]; simpl; [constructor|].
  now apply insert_sorted_sorted.
Qed.

(** An increasing list without repetition whose elements lie in
    [a .. a+n-1] is a subsequence of [seq a n]. *)
Lemma sorted_subseq (n : nat) : forall a l,
  StronglySorted le l -> NoDup l -> (forall x, In x l -> a <= x < a + n) ->
  subseq l (seq a n).
Proof.
  induction n as [|n IH]; intros a l Hs Hnd Hr.
  - destruct l as [|x l]; [constructor|].
    specialize (Hr x (or_introl eq_refl)). lia.
  - destruct l as [|x l]; [apply subseq_nil_l|].
    inversion Hs as [|? ? Hs' Hx]; subst. inversion Hnd; subst. simpl.
    rewrite Forall_forall in Hx.
    destruct (Nat.eq_dec x a) as [->|Hne].
    + apply subseq_take. apply IH; auto.
      intros y Hy. specialize (Hx y Hy). specialize (Hr y (or_intror Hy)).
      assert (y <> a) by (intros ->; auto). lia.
    + apply subseq_skip. apply IH; auto.
      intros y [<-|Hy].
      * specialize (Hr x (or_introl eq_refl)). lia.
      * pose proof (Hx y Hy). pose proof (Hr y (or_intror Hy)).
        pose proof (Hr x (or_introl eq_refl)). lia.
Qed.

(** ** One draw of the sampling loop *)

Lemma triple_assign_Ok (seq : str) (pos : list nat) : forall new_seq r,
  exists bs r',
    triple_assign seq pos new_seq r = Ok (assign_all new_seq pos bs) r' /\
    length bs = length pos /\
    forall i, i < length pos ->
      In (nth i bs "000"%char) (other_bases (char_at seq (nth i pos 0))).
Proof.
  induction pos as [|p pos IH]; intros new_seq r.
  - exists [], r. repeat split. simpl; intros; lia.
  - destruct (@choice_Ok _ (other_bases (char_at seq p)) r
                (other_bases_nonempty _)) as (b & Hb & Eb).
    destruct (IH (list_set new_seq p b) (Rng (tape r) (S (cursor r))))
      as (bs & r' & E & Hlen & Hbs).
    exists (b :: bs), r'. split; [|split].
    + simpl triple_assign. rewrite (@bind_Ok _ _ _ _ _ _ _ Eb).
      rewrite E. reflexivity.
    + simpl. now rewrite Hlen.
    + intros [|i] Hi; simpl; [assumption|]. apply Hbs. simpl in Hi. lia.
Qed.

Lemma range_length (n : nat) : length (range n) = n.
Proof. apply length_seq. Qed.

Lemma triple_draw_Ok (seq : str) (r : rng) :
  3 <= length seq ->
  exists m r', triple_draw seq r = Ok m r' /\ In m (_replace_k_mutations seq 3).
Proof.
  intros HL.
  destruct (@sample_Ok _ (range (length seq)) 3 r)
    as (picked & r1 & Es & Hlen & rest & Hperm).
  { now rewrite range_length. }
  destruct (triple_assign_Ok seq (sorted picked) seq r1)
    as (bs & r' & Ea & Hbl & Hbs).
  exists (assign_all seq (sorted picked) bs), r'. split.
  - unfold triple_draw. rewrite (@bind_Ok _ _ _ _ _ _ _ Es). exact Ea.
  - apply replace_k_In_tuple. exists (sorted picked), bs.
    assert (Hnd : NoDup picked).
    { apply (@NoDup_app_remove_r _ picked rest).
      apply (Permutation_NoDup Hperm). apply seq_NoDup. }
    repeat split; auto.
    + apply sorted_subseq.
      * apply sorted_sorted.
      * apply (Permutation_NoDup (Permutation_sym (sorted_perm picked)) Hnd).
      * intros x Hx. apply (Permutation_in _ (sorted_perm picked)) in Hx.
        assert (Hin : In x (range (length seq))).
        { apply (Permutation_in _ (Permutation_sym Hperm)).
          apply in_or_app. now left. }
        apply range_In in Hin. lia.
    + rewrite (Permutation_length (sorted_perm picked)). assumption.
Qed.

Lemma triple_draw_inv (seq : str) (r : rng) m r' :
  triple_draw seq r = Ok m r' ->
  3 <= length seq /\ In m (_replace_k_mutations seq 3).
Proof.
  intros E.
  assert (HL : 3 <= length seq).
  { unfold triple_draw in E. apply bind_inv in E.
    destruct E as (picked & r1 & Es & _). apply sample_inv in Es.
    now rewrite range_length in Es. }
  split; [assumption|].
  destruct (@triple_draw_Ok seq r HL) as (m0 & r0 & E0 & Hin).
  rewrite E in E0. injection E0 as -> _. assumption.
Qed.

(** ** The [seen] dictionary *)

Lemma od_set_present (key : str) (seen : list str) :
  In key seen -> od_set key seen = seen.
Proof. intros H. unfold od_set. apply str_mem_In in H. now rewrite H. Qed.

Lemma od_set_new (key : str) (seen : list str) :
  ~ In key seen -> od_set key seen = seen ++ [key].
Proof.
  intros H. unfold od_set.
  destruct (str_mem key seen) eqn:E; [|reflexivity].
  apply str_mem_In in E. tauto.
Qed.

Lemma str_In_dec (x : str) (l : list str) : {In x l} + {~ In x l}.
Proof. apply in_dec, list_eq_dec, ascii_dec. Qed.

Lemma od_set_NoDup (key : str) (seen : list str) :
  NoDup seen -> NoDup (od_set key seen).
Proof.
  intros H. destruct (str_In_dec key seen) as [Hin|Hout].
  - now rewrite od_set_present.
  - rewrite od_set_new by assumption.
    apply NoDup_app_disjoint; auto.
    + repeat constructor. simpl; tauto.
    + intros x Hx [<-|[]]. auto.
Qed.

Lemma od_set_In (key x : str) (seen : list str) :
  In x (od_set key seen) <-> x = key \/ In x seen.
Proof.
  destruct (str_In_dec key seen) as [Hin|Hout].
  - rewrite od_set_present by assumption. split; [auto|].
    intros [->|H]; assumption.
  - rewrite od_set_new, in_app_iff by assumption. simpl.
    split; intros H; intuition congruence.
Qed.

Lemma od_set_length (key : str) (seen : list str) :
  length (od_set key seen) <= S (length seen).
Proof.
  destruct (str_In_dec key seen) as [Hin|Hout].
  - rewrite od_set_present by assumption. lia.
  - rewrite od_set_new, length_app by assumption. simpl. lia.
Qed.

(** ** The sampling loop *)

Lemma triple_loop_done fuel seq target seen r :
  target <= length seen -> triple_loop fuel seq target seen r = Ok seen r.
Proof.
  intros H. destruct fuel; simpl;
    destruct (Nat.ltb_spec (length seen) target); try lia; reflexivity.
Qed.

Lemma triple_loop_step fuel seq target seen r :
  length seen < target ->
  triple_loop (S fuel) seq target seen r =
  bind (triple_draw seq)
       (fun new_seq => triple_loop fuel seq target (od_set new_seq seen)) r.
Proof.
  intros H. simpl. destruct (Nat.ltb_spec (length seen) target); try lia.
  reflexivity.
Qed.

Lemma triple_loop_zero seq target seen r :
  length seen < target -> triple_loop 0 seq target seen r = OutOfFuel.
Proof.
  intros H. simpl. destruct (Nat.ltb_spec (length seen) target); try lia.
  reflexivity.
Qed.

(** What the loop returns, whenever it returns. *)
Lemma triple_loop_result (seq : str) (target : nat) (fuel : nat) :
  forall seen r res r',
    length seen <= target -> NoDup seen ->
    (forall m, In m seen -> In m (_replace_k_mutations seq 3)) ->
    triple_loop fuel seq target seen r = Ok res r' ->
    length res = target /\ NoDup res /\
    (forall m, In m res -> In m (_replace_k_mutations seq 3)).
Proof.
  induction fuel as [|fuel IH]; intros seen r res r' Hlen Hnd Hin E.
  - destruct (Nat.eq_dec (length seen) target) as [Heq|Hne].
    + rewrite triple_loop_done in E by lia. injection E as <- <-. auto.
    + rewrite triple_loop_zero in E by lia. discriminate.
  - destruct (Nat.eq_dec (length seen) target) as [Heq|Hne].
    + rewrite triple_loop_done in E by lia. injection E as <- <-. auto.
    + rewrite triple_loop_step in E by lia. apply bind_inv in E.
      destruct E as (m & r1 & Ed & E). apply triple_draw_inv in Ed.
      apply IH in E; auto.
      * pose proof (od_set_length m seen). lia.
      * now apply od_set_NoDup.
      * intros x Hx. apply od_set_In in Hx. destruct Hx as [->|Hx]; auto.
        apply Ed.
Qed.

(** ** Termination of the sampling loop *)

Lemma triple_upper_binom (seq : str) :
  triple_upper seq = 27 * binom (length seq) 3.
Proof.
  unfold triple_upper. rewrite combinations_length, range_length.
  change (3 ^ 3) with 27. lia.
Qed.

Lemma triple_upper_le_exhaustive (seq : str) :
  triple_upper seq <= length (_replace_k_mutations seq 3).
Proof.
  rewrite triple_upper_binom. pose proof (replace_k_length_ge seq 3) as H.
  change (3 ^ 3) with 27 in H. exact H.
Qed.

Lemma triple_upper_pos (seq : str) : 0 < triple_upper seq -> 3 <= length seq.
Proof.
  rewrite triple_upper_binom. intros H.
  destruct (Nat.le_gt_cases 3 (length seq)) as [|Hlt]; [assumption|].
  rewrite (binom_gt Hlt) in H. lia.
Qed.

(** While fewer strings are stored than the exhaustive set holds, one of its
    strings is still missing. *)
Lemma fresh_variant (E seen : list str) :
  NoDup E -> length seen < length E -> exists m, In m E /\ ~ In m seen.
Proof.
  intros Hnd Hlt.
  destruct (Forall_Exists_dec (fun m => In m seen)
              (fun m => str_In_dec m seen) E) as [Hall|Hex].
  - exfalso. rewrite Forall_forall in Hall.
    pose proof (NoDup_incl_length Hnd Hall). lia.
  - apply Exists_exists in Hex. exact Hex.
Qed.

Lemma draw_at_zero seq r : draw_at seq r 0 = value (triple_draw seq r).
Proof. reflexivity. Qed.

Lemma draw_at_succ seq r t x r1 :
  triple_draw seq r = Ok x r1 -> draw_at seq r (S t) = draw_at seq r1 t.
Proof. intros E. unfold draw_at. simpl. now rewrite E. Qed.

Lemma fair_step seq r x r1 :
  triple_draw seq r = Ok x r1 -> fair seq r -> fair seq r1.
Proof.
  intros E H t m Hm. destruct (H (S t) m Hm) as (t' & Ht & Hd).
  destruct t' as [|t']; [lia|].
  rewrite (@draw_at_succ _ _ _ _ _ E) in Hd. exists t'. split; [lia | assumption].
Qed.

Lemma halts_done seq target seen r :
  target <= length seen -> halts seq target seen r.
Proof. intros H. exists 0, seen, r. now apply triple_loop_done. Qed.

Lemma halts_step seq target seen r x r1 :
  length seen < target -> triple_draw seq r = Ok x r1 ->
  halts seq target (od_set x seen) r1 -> halts seq target seen r.
Proof.
  intros Hlt E (fuel & res & r' & H). exists (S fuel), res, r'.
  rewrite triple_loop_step by assumption.
  now rewrite (@bind_Ok _ _ _ _ _ _ _ E).
Qed.

Lemma triple_loop_halts (seq : str) (target : nat) :
  target <= triple_upper seq ->
  forall d seen r,
    target - length seen <= d -> NoDup seen -> fair seq r ->
    halts seq target seen r.
Proof.
  intros Hup. induction d as [|d IHd]; intros seen r Hd Hnd Hfair.
  - apply halts_done. lia.
  - destruct (Nat.le_gt_cases target (length seen)) as [Hge|Hlt];
      [now apply halts_done|].
    assert (HL : 3 <= length seq) by (apply triple_upper_pos; lia).
    destruct (@fresh_variant (_replace_k_mutations seq 3) seen)
      as (m & Hm & Hfresh).
    { apply replace_k_NoDup. }
    { pose proof (triple_upper_le_exhaustive seq). lia. }
    destruct (Hfair 0 m Hm) as (t & _ & Ht).
    clear Hm. revert seen r Hd Hnd Hfair Hlt Hfresh Ht.
    induction t as [|t IHt]; intros seen r Hd Hnd Hfair Hlt Hfresh Ht;
      destruct (@triple_draw_Ok seq r HL) as (x & r1 & Ex & _).
    + rewrite draw_at_zero, Ex in Ht. simpl in Ht. injection Ht as ->.
      eapply halts_step; [exact Hlt | exact Ex |]. apply IHd.
      * rewrite od_set_new, length_app by assumption. simpl. lia.
      * now apply od_set_NoDup.
      * eapply fair_step; eauto.
    + rewrite (@draw_at_succ _ _ _ _ _ Ex) in Ht. eapply halts_step; [exact Hlt | exact Ex |].
      destruct (str_In_dec x seen) as [Hin|Hout].
      * rewrite od_set_present by assumption.
        apply IHt; auto. eapply fair_step; eauto.
      * apply IHd.
        -- rewrite od_set_new, length_app by assumption. simpl. lia.
        -- now apply od_set_NoDup.
        -- eapply fair_step; eauto.
Qed.

Lemma triple_mutations_sampled_halts (seq : str) (sample_size : nat) (r : rng) :
  fair seq r ->
  exists fuel res r',
    triple_mutations_sampled fuel seq sample_size r = Ok res r'.
Proof.
  intros Hfair. unfold triple_mutations_sampled.
  apply (@triple_loop_halts seq (Nat.min sample_size (triple_upper seq)))
    with (d := Nat.min sample_size (triple_upper seq)); auto.
  - apply Nat.le_min_r.
  - simpl. lia.
  - constructor.
Qed.

Lemma triple_mutations_sampled_result (seq : str) (sample_size fuel : nat)
    (r : rng) res r' :
  triple_mutations_sampled fuel seq sample_size r = Ok res r' ->
  length res = Nat.min sample_size (27 * binom (length seq) 3) /\
  NoDup res /\
  (forall m, In m res -> In m (_replace_k_mutations seq 3)).
Proof.
  unfold triple_mutations_sampled. intros E.
  apply triple_loop_result in E.
  - now rewrite triple_upper_binom in E.
  - simpl. lia.
  - constructor.
  - intros m [].
Qed.

(** More fuel does not change what the loop returns. *)
Lemma triple_loop_fuel_mono (seq : str) (target : nat) (fuel : nat) :
  forall seen r res r' extra,
    triple_loop fuel seq target seen r = Ok res r' ->
    triple_loop (fuel + extra) seq target seen r = Ok res r'.
Proof.
  induction fuel as [|fuel IH]; intros seen r res r' extra E.
  - destruct (Nat.le_gt_cases target (length seen)) as [Hge|Hlt].
    + rewrite triple_loop_done in * by assumption. assumption.
    + rewrite triple_loop_zero in E by assumption. discriminate.
  - destruct (Nat.le_gt_cases target (length seen)) as [Hge|Hlt].
    + rewrite triple_loop_done in * by assumption. assumption.
    + change (S fuel + extra) with (S (fuel + extra)).
      rewrite triple_loop_step in * by assumption.
      apply bind_inv in E. destruct E as (x & r1 & Ex & E).
      rewrite (@bind_Ok _ _ _ _ _ _ _ Ex). now apply IH.
Qed.

(** ** How a draw reads the tape *)

Lemma reads_future_ret (A : Type) (a : A) : reads_future (ret a).
Proof. intros r1 r2 H. simpl. auto. Qed.

Lemma reads_future_raise (A : Type) (e : exn) : reads_future (@raise A e).
Proof. intros r1 r2 H. reflexivity. Qed.

Lemma reads_future_bind (A B : Type) (c : M A) (k : A -> M B) :
  reads_future c -> (forall a, reads_future (k a)) -> reads_future (bind c k).
Proof.
  intros Hc Hk r1 r2 H. unfold bind. specialize (Hc r1 r2 H).
  destruct (c r1) as [a1 r1'| |], (c r2) as [a2 r2'| |]; simpl in Hc;
    try contradiction; auto.
  destruct Hc as [-> Hr]. now apply Hk.
Qed.

Lemma reads_future_randbelow (n : nat) : reads_future (randbelow n).
Proof.
  intros r1 r2 H. simpl. split.
  - pose proof (H 0) as H0. rewrite !Nat.add_0_r in H0. now rewrite H0.
  - intros i. simpl. pose proof (H (S i)) as Hi.
    now rewrite !Nat.add_succ_r in Hi.
Qed.

Lemma reads_future_choice (A : Type) (xs : list A) : reads_future (choice xs).
Proof.
  destruct xs as [|x xs]; simpl.
  - apply reads_future_raise.
  - apply reads_future_bind; [apply reads_future_randbelow|].
    intros j. apply reads_future_ret.
Qed.

Lemma reads_future_sample_pool (A : Type) (k : nat) : forall pool : list A,
  reads_future (sample_pool pool k).
Proof.
  induction k as [|k IH]; intros pool; simpl.
  - apply reads_future_ret.
  - destruct pool as [|d pool]; [apply reads_future_raise|].
    apply reads_future_bind; [apply reads_future_randbelow|].
    intros j. apply reads_future_bind; [apply IH|].
    intros rest. apply reads_future_ret.
Qed.

Lemma reads_future_triple_assign (seq : str) (pos : list nat) :
  forall new_seq, reads_future (triple_assign seq pos new_seq).
Proof.
  induction pos as [|p pos IH]; intros new_seq; simpl.
  - apply reads_future_ret.
  - apply reads_future_bind; [apply reads_future_choice|].
    intros b. apply IH.
Qed.

Lemma reads_future_triple_draw (seq : str) : reads_future (triple_draw seq).
Proof.
  unfold triple_draw. apply reads_future_bind.
  - unfold sample. destruct (length (range (length seq)) <? 3).
    + apply reads_future_raise.
    + apply reads_future_sample_pool.
  - intros picked. apply reads_future_triple_assign.
Qed.

Lemma same_outcome_value (A : Type) (o1 o2 : outcome A) :
  same_outcome o1 o2 -> value o1 = value o2.
Proof.
  destruct o1, o2; simpl; try contradiction; auto.
  now intros [-> _].
Qed.

Lemma rng_after_succ (seq : str) (t : nat) : forall r x r',
  triple_draw seq (rng_after seq t r) = Ok x r' ->
  rng_after seq (S t) r = r'.
Proof.
  induction t as [|t IH]; intros r x r' E.
  - simpl in *. now rewrite E.
  - change (rng_after seq (S (S t)) r) with
      (match triple_draw seq r with
       | Ok _ r1 => rng_after seq (S t) r1
       | _ => r
       end).
    simpl in E. destruct (triple_draw seq r) as [y r1| |] eqn:E1.
    + eapply IH; eauto.
    + now rewrite E1 in E.
    + now rewrite E1 in E.
Qed.

(** Every pair of draws started from states with the same future yields the
    same strings. *)
Lemma draw_at_same_future (seq : str) (t : nat) : forall r1 r2,
  3 <= length seq -> same_future r1 r2 ->
  draw_at seq r1 t = draw_at seq r2 t.
Proof.
  induction t as [|t IH]; intros r1 r2 HL H.
  - rewrite !draw_at_zero. apply same_outcome_value.
    now apply reads_future_triple_draw.
  - destruct (@triple_draw_Ok seq r1 HL) as (x1 & r1' & E1 & _).
    destruct (@triple_draw_Ok seq r2 HL) as (x2 & r2' & E2 & _).
    rewrite (@draw_at_succ _ _ _ _ _ E1), (@draw_at_succ _ _ _ _ _ E2).
    apply IH; auto.
    pose proof (reads_future_triple_draw seq H) as Ho.
    rewrite E1, E2 in Ho. apply Ho.
Qed.

Lemma draw_at_plus (seq : str) (a : nat) : forall b r,
  3 <= length seq ->
  draw_at seq r (a + b) = draw_at seq (rng_after seq a r) b.
Proof.
  induction a as [|a IH]; intros b r HL; [reflexivity|].
  destruct (@triple_draw_Ok seq r HL) as (x & r1 & E & _).
  change (S a + b) with (S (a + b)).
  rewrite (@draw_at_succ _ _ _ _ _ E), IH by assumption.
  simpl. now rewrite E.
Qed.

(** A source that, after some number of draws, is back to a state with the
    future it started with, and whose first draws of that period meet the
    whole exhaustive set, is fair. *)
Lemma periodic_fair (seq : str) (r : rng) (period : nat) :
  3 <= length seq -> 0 < period ->
  same_future (rng_after seq period r) r ->
  (forall m, In m (_replace_k_mutations seq 3) ->
             exists i, i < period /\ draw_at seq r i = Some m) ->
  fair seq r.
Proof.
  intros HL Hp Hsame Hall.
  assert (Hrep : forall n i, draw_at seq r (n * period + i) = draw_at seq r i).
  { induction n as [|n IHn]; intros i; [reflexivity|].
    replace (S n * period + i) with (period + (n * period + i)) by lia.
    rewrite draw_at_plus by assumption.
    rewrite (@draw_at_same_future seq _ _ _ HL Hsame). apply IHn. }
  intros t m Hm. destruct (Hall m Hm) as (i & Hi & Hd).
  exists (t * period + i). split; [nia|]. now rewrite Hrep.
Qed.

Lemma keeps_tape_ret (A : Type) (a : A) : keeps_tape (ret a).
Proof. intros r a' r' E. injection E as _ <-. reflexivity. Qed.

Lemma keeps_tape_raise (A : Type) (e : exn) : keeps_tape (@raise A e).
Proof. intros r a' r' E. discriminate. Qed.

Lemma keeps_tape_bind (A B : Type) (c : M A) (k : A -> M B) :
  keeps_tape c -> (forall a, keeps_tape (k a)) -> keeps_tape (bind c k).
Proof.
  intros Hc Hk r b r' E. apply bind_inv in E.
  destruct E as (a & r1 & E1 & E2).
  rewrite (Hk _ _ _ _ E2). eapply Hc; eauto.
Qed.

Lemma keeps_tape_randbelow (n : nat) : keeps_tape (randbelow n).
Proof. intros r a r' E. injection E as _ <-. reflexivity. Qed.

Lemma keeps_tape_choice (A : Type) (xs : list A) : keeps_tape (choice xs).
Proof.
  destruct xs as [|x xs]; simpl.
  - apply keeps_tape_raise.
  - apply keeps_tape_bind; [apply keeps_tape_randbelow|].
    intros j. apply keeps_tape_ret.
Qed.

Lemma keeps_tape_sample_pool (A : Type) (k : nat) : forall pool : list A,
  keeps_tape (sample_pool pool k).
Proof.
  induction k as [|k IH]; intros pool; simpl.
  - apply keeps_tape_ret.
  - destruct pool as [|d pool]; [apply keeps_tape_raise|].
    apply keeps_tape_bind; [apply keeps_tape_randbelow|].
    intros j. apply keeps_tape_bind; [apply IH|].
    intros rest. apply keeps_tape_ret.
Qed.

Lemma keeps_tape_triple_assign (seq : str) (pos : list nat) :
  forall new_seq, keeps_tape (triple_assign seq pos new_seq).
Proof.
  induction pos as [|p pos IH]; intros new_seq; simpl.
  - apply keeps_tape_ret.
  - apply keeps_tape_bind; [apply keeps_tape_choice|].
    intros b. apply IH.
Qed.

Lemma keeps_tape_triple_draw (seq : str) : keeps_tape (triple_draw seq).
Proof.
  unfold triple_draw. apply keeps_tape_bind.
  - unfold sample. destruct (length (range (length seq)) <? 3).
    + apply keeps_tape_raise.
    + apply keeps_tape_sample_pool.
  - intros picked. apply keeps_tape_triple_assign.
Qed.

Lemma rng_after_tape (seq : str) (t : nat) : forall r,
  tape (rng_after seq t r) = tape r.
Proof.
  induction t as [|t IH]; intros r; simpl; [reflexivity|].
  destruct (triple_draw seq r) as [x r1| |] eqn:E; try reflexivity.
  rewrite IH. eapply keeps_tape_triple_draw; eauto.
Qed.

(** ** A fair source for the sequence ATG *)

Lemma cycle_tape_period (i : nat) : cycle_tape (i + 162) = cycle_tape i.
Proof.
  unfold cycle_tape.
  replace ((i + 162) mod 162) with (i mod 162); [reflexivity|].
  symmetry. apply (Nat.Div0.mod_add i 1 162).
Qed.

Lemma cycle_rng_fair : fair (lit "ATG") cycle_rng.
Proof.
  apply (@periodic_fair _ _ 27).
  - simpl. lia.
  - lia.
  - intros i. rewrite rng_after_tape.
    replace (cursor (rng_after (lit "ATG") 27 cycle_rng)) with 162
      by (vm_compute; reflexivity).
    change (cycle_tape (162 + i) = cycle_tape (0 + i)).
    rewrite (Nat.add_comm 162 i). apply cycle_tape_period.
  - intros m Hm.
    let E := eval vm_compute in (_replace_k_mutations (lit "ATG") 3) in
    change (_replace_k_mutations (lit "ATG") 3) with E in Hm.
    simpl in Hm. unfold lit.
    repeat (destruct Hm as [<-|Hm]; [find_draw 0|]).
    contradiction.
Qed.

(** ** Fairness of the tape *)

Lemma sorted_id (l : list nat) : StronglySorted le l -> sorted l = l.
Proof.
  induction 1 as [|x l Hs IH Hx]; simpl; [reflexivity|].
  rewrite IH. destruct l as [|y l]; [reflexivity|]. simpl.
  inversion Hx; subst. destruct (Nat.leb_spec x y); [reflexivity | lia].
Qed.

Lemma subseq_seq_sorted (n : nat) : forall a c,
  subseq c (seq a n) -> StronglySorted lt c.
Proof.
  induction n as [|n IH]; intros a c H; simpl in H;
    inversion H as [|x c' l' Hs|x c' l' Hs]; subst.
  - constructor.
  - eapply IH; eauto.
  - constructor; [eapply IH; eauto|].
    apply Forall_forall. intros y Hy.
    apply (subseq_In y Hs), in_seq in Hy. lia.
Qed.

Lemma sorted_of_positions (pos : list nat) (n : nat) :
  subseq pos (range n) -> sorted pos = pos.
Proof.
  intros Hs. apply sorted_id.
  pose proof (@subseq_seq_sorted _ _ _ Hs) as Hlt. clear Hs.
  induction Hlt as [|x l Hl IH Hx]; constructor; auto.
  eapply Forall_impl; [|exact Hx]. simpl. intros; lia.
Qed.

Lemma rng_eta (r : rng) : r = Rng (tape r) (cursor r + 0).
Proof. destruct r; simpl. now rewrite Nat.add_0_r. Qed.

Lemma next_draws_cons (r : rng) (b : nat) (bs : list nat) :
  next_draws r (b :: bs) ->
  tape r (cursor r) = b /\ next_draws (Rng (tape r) (S (cursor r))) bs.
Proof.
  intros H. split.
  - specialize (H 0 ltac:(simpl; lia)). now rewrite Nat.add_0_r in H.
  - intros i Hi. specialize (H (S i) ltac:(simpl; lia)). simpl in *.
    now rewrite Nat.add_succ_r in H.
Qed.

Lemma next_draws_app (r : rng) (b1 b2 : list nat) :
  next_draws r (b1 ++ b2) ->
  next_draws r b1 /\
  next_draws (Rng (tape r) (cursor r + length b1)) b2.
Proof.
  intros H. split.
  - intros i Hi. rewrite (H i) by (rewrite length_app; lia).
    now apply app_nth1.
  - intros i Hi. simpl.
    specialize (H (length b1 + i) ltac:(rewrite length_app; lia)).
    rewrite Nat.add_assoc in H. rewrite H, app_nth2 by lia.
    f_equal. lia.
Qed.

(** Every arrangement of elements taken out of the pool without replacement
    is what [sample_pool] returns for some raw draws. *)
Lemma sample_pool_reach (A : Type) (c : list A) : forall pool rest,
  Permutation pool (c ++ rest) ->
  exists block,
    length block = length c /\
    Forall (fun v => v < length pool) block /\
    forall r, next_draws r block ->
      sample_pool pool (length c) r
      = Ok c (Rng (tape r) (cursor r + length c)).
Proof.
  induction c as [|x c IH]; intros pool rest Hperm.
  - exists []. repeat split; [constructor|]. intros r _. simpl.
    unfold ret. f_equal. apply rng_eta.
  - assert (Hx : In x pool).
    { apply (Permutation_in _ (Permutation_sym Hperm)). simpl; auto. }
    apply in_split in Hx. destruct Hx as (pre & post & ->).
    assert (Hperm' : Permutation (pre ++ post) (c ++ rest)).
    { apply Permutation_sym.
      apply (@Permutation_cons_app_inv _ (c ++ rest) pre post x).
      apply Permutation_sym. exact Hperm. }
    destruct (IH _ _ Hperm') as (block & Hlen & Hlt & Hrun).
    exists (length pre :: block). split; [simpl; now rewrite Hlen|]. split.
    + constructor; [rewrite length_app; simpl; lia|].
      eapply Forall_impl; [|exact Hlt]. simpl. intros v Hv.
      rewrite length_app in *. simpl. lia.
    + intros r Hr. apply next_draws_cons in Hr. destruct Hr as [H0 Hr].
      assert (Hj : tape r (cursor r) mod length (pre ++ x :: post)
                   = length pre).
      { rewrite H0. apply Nat.mod_small. rewrite length_app. simpl. lia. }
      destruct (pre ++ x :: post) as [|d pool0] eqn:Epool.
      { destruct pre; discriminate. }
      change (sample_pool (d :: pool0) (length (x :: c)) r) with
        (bind (randbelow (length (d :: pool0)))
           (fun j => bind (sample_pool (firstn j (d :: pool0)
                                          ++ skipn (S j) (d :: pool0))
                                       (length c))
                          (fun rest0 => ret (nth j (d :: pool0) d :: rest0)))
           r).
      rewrite (@bind_Ok _ _ _ _ _ _ _ (randbelow_Ok _ r)), Hj.
      rewrite <- Epool.
      assert (Hrm : firstn (length pre) (pre ++ x :: post)
                    ++ skipn (S (length pre)) (pre ++ x :: post)
                    = pre ++ post).
      { rewrite firstn_app, Nat.sub_diag, firstn_O, app_nil_r.
        rewrite firstn_all, skipn_app.
        rewrite skipn_all2 by lia.
        replace (S (length pre) - length pre) with 1 by lia.
        reflexivity. }
      rewrite Hrm, (@bind_Ok _ _ _ _ _ _ _ (Hrun _ Hr)).
      unfold ret. rewrite app_nth2, Nat.sub_diag by lia. simpl.
      f_equal. f_equal. lia.
Qed.

Lemma subseq_perm (A : Type) (c l : list A) :
  subseq c l -> exists rest, Permutation l (c ++ rest).
Proof.
  induction 1 as [|x c l Hs IH|x c l Hs IH].
  - exists []. constructor.
  - destruct IH as (rest & Hp). exists (x :: rest).
    now apply Permutation_cons_app.
  - destruct IH as (rest & Hp). exists rest. simpl. now constructor.
Qed.

Lemma other_bases_length_le (c : ascii) : length (other_bases c) <= 4.
Proof. unfold other_bases. apply (filter_length_le _ BASES). Qed.

(** Every choice of replacement bases is what [triple_assign] makes for some
    raw draws. *)
Lemma triple_assign_reach (seq : str) (pos : list nat) : forall bs,
  length bs = length pos ->
  (forall i, i < length pos ->
     In (nth i bs "000"%char) (other_bases (char_at seq (nth i pos 0)))) ->
  exists block,
    length block = length pos /\
    Forall (fun v => v < 4) block /\
    forall new_seq r, next_draws r block ->
      triple_assign seq pos new_seq r
      = Ok (assign_all new_seq pos bs)
           (Rng (tape r) (cursor r + length pos)).
Proof.
  induction pos as [|p pos IH]; intros [|b bs] Hlen Hin; simpl in Hlen;
    try lia.
  - exists []. repeat split; [constructor|]. intros new_seq r _. simpl.
    unfold ret. f_equal. apply rng_eta.
  - destruct (IH bs) as (block & Hbl & Hlt & Hrun); [lia| |].
    { intros i Hi. apply (Hin (S i)). simpl. lia. }
    pose proof (Hin 0 ltac:(simpl; lia)) as Hb. simpl in Hb.
    apply (In_nth _ _ "000"%char) in Hb. destruct Hb as (j & Hj & Ej).
    pose proof (other_bases_length_le (char_at seq p)) as Hle.
    exists (j :: block). split; [simpl; now rewrite Hbl|]. split.
    + constructor; [lia | assumption].
    + intros new_seq r Hr. apply next_draws_cons in Hr.
      destruct Hr as [H0 Hr]. simpl triple_assign.
      destruct (other_bases (char_at seq p)) as [|x0 xs] eqn:Exs;
        [simpl in Hj; lia|].
      assert (Ec : choice (x0 :: xs) r = Ok b (Rng (tape r) (S (cursor r)))).
      { unfold choice.
        rewrite (@bind_Ok _ _ _ _ _ _ _ (randbelow_Ok _ r)). unfold ret.
        rewrite H0, Nat.mod_small by assumption.
        rewrite (nth_indep _ x0 "000"%char) by assumption. now rewrite Ej. }
      rewrite (@bind_Ok _ _ _ _ _ _ _ Ec), (Hrun _ _ Hr), assign_all_cons.
      simpl. f_equal. f_equal. lia.
Qed.

(** Every string of the exhaustive set is what one turn of the loop draws for
    some block of six raw draws. *)
Lemma triple_draw_reach (seq m : str) :
  In m (_replace_k_mutations seq 3) ->
  exists block,
    length block = 6 /\
    Forall (fun v => v < Nat.max (length seq) 4) block /\
    forall r, next_draws r block ->
      triple_draw seq r = Ok m (Rng (tape r) (cursor r + 6)).
Proof.
  intros Hm. apply replace_k_In_tuple in Hm.
  destruct Hm as (pos & bs & (Hs & Hlen & Hb) & Hk & ->).
  destruct (subseq_perm Hs) as (rest & Hperm).
  destruct (@sample_pool_reach _ pos _ _ Hperm) as (b1 & Hl1 & Hlt1 & Hrun1).
  destruct (@triple_assign_reach seq pos bs Hlen Hb)
    as (b2 & Hl2 & Hlt2 & Hrun2).
  rewrite range_length in Hlt1. rewrite Hk in *.
  exists (b1 ++ b2). split; [rewrite length_app; lia|]. split.
  - apply Forall_app. split.
    + eapply Forall_impl; [|exact Hlt1]. simpl. intros; lia.
    + eapply Forall_impl; [|exact Hlt2]. simpl. intros; lia.
  - intros r Hr. apply next_draws_app in Hr. destruct Hr as [Hr1 Hr2].
    rewrite Hl1 in Hr2. unfold triple_draw, sample.
    pose proof (subseq_length Hs) as HL. rewrite range_length, Hk in HL.
    destruct (Nat.ltb_spec (length (range (length seq))) 3) as [Hlt|_];
      [rewrite range_length in Hlt; lia|].
    rewrite (@bind_Ok _ _ _ _ _ _ _ (Hrun1 _ Hr1)).
    rewrite (@sorted_of_positions _ _ Hs), (Hrun2 _ _ Hr2). simpl.
    f_equal. f_equal. lia.
Qed.

(** One turn of the loop reads exactly six raw draws. *)
Lemma sample_pool_cursor (A : Type) (k : nat) : forall (pool : list A) r res r',
  sample_pool pool k r = Ok res r' ->
  length res = k /\ r' = Rng (tape r) (cursor r + k).
Proof.
  induction k as [|k IH]; intros pool r res r' E.
  - injection E as <- <-. split; [reflexivity | apply rng_eta].
  - destruct pool as [|d pool0]; [discriminate|].
    change (sample_pool (d :: pool0) (S k) r) with
      (bind (randbelow (length (d :: pool0)))
         (fun j => bind (sample_pool (firstn j (d :: pool0)
                                        ++ skipn (S j) (d :: pool0)) k)
                        (fun rest0 => ret (nth j (d :: pool0) d :: rest0)))
         r) in E.
    rewrite (@bind_Ok _ _ _ _ _ _ _ (randbelow_Ok _ r)) in E.
    apply bind_inv in E. destruct E as (rest0 & r1 & E1 & E).
    injection E as <- <-. apply IH in E1. destruct E1 as [Hl ->].
    simpl. split; [now rewrite Hl | f_equal; lia].
Qed.

Lemma triple_assign_cursor (seq : str) (pos : list nat) :
  forall new_seq r m r',
    triple_assign seq pos new_seq r = Ok m r' ->
    r' = Rng (tape r) (cursor r + length pos).
Proof.
  induction pos as [|p pos IH]; intros new_seq r m r' E.
  - injection E as _ <-. apply rng_eta.
  - simpl triple_assign in E. apply bind_inv in E.
    destruct E as (b & r1 & Eb & E).
    destruct (@choice_Ok _ (other_bases (char_at seq p)) r
                (other_bases_nonempty _)) as (b' & _ & Eb').
    rewrite Eb in Eb'. injection Eb' as _ ->.
    apply IH in E. rewrite E. simpl. f_equal. lia.
Qed.

Lemma triple_draw_cursor (seq : str) (r : rng) m r' :
  triple_draw seq r = Ok m r' -> r' = Rng (tape r) (cursor r + 6).
Proof.
  unfold triple_draw. intros E. apply bind_inv in E.
  destruct E as (picked & r1 & Es & E).
  unfold sample in Es.
  destruct (length (range (length seq)) <? 3); [discriminate|].
  apply sample_pool_cursor in Es. destruct Es as [Hl ->].
  apply triple_assign_cursor in E.
  rewrite (Permutation_length (sorted_perm picked)), Hl in E.
  rewrite E. simpl. f_equal. lia.
Qed.

Lemma rng_after_cursor (seq : str) (t : nat) : forall r,
  3 <= length seq ->
  rng_after seq t r = Rng (tape r) (cursor r + 6 * t).
Proof.
  induction t as [|t IH]; intros r HL.
  - simpl rng_after. rewrite Nat.mul_0_r. apply rng_eta.
  - destruct (@triple_draw_Ok seq r HL) as (x & r1 & E & _).
    simpl rng_after. rewrite E, IH by assumption.
    apply triple_draw_cursor in E. subst r1. simpl. f_equal. lia.
Qed.

(** On a fair tape the loop keeps meeting every string of the exhaustive
    set. *)
Lemma fair_tape_fair (seq : str) (r : rng) :
  fair_tape (Nat.max (length seq) 4) r -> fair seq r.
Proof.
  intros Hf t m Hm.
  assert (HL : 3 <= length seq).
  { apply replace_k_In_tuple in Hm.
    destruct Hm as (pos & bs & (Hs & _) & Hk & _).
    apply subseq_length in Hs. rewrite range_length in Hs. lia. }
  destruct (@triple_draw_reach _ _ Hm) as (block & Hl & Hlt & Hrun).
  destruct (Hf block t Hl Hlt) as (t' & Ht & Hd).
  exists t'. split; [assumption|].
  unfold draw_at. rewrite rng_after_cursor by assumption.
  now rewrite (Hrun _ Hd).
Qed.

(** A fair tape exists for every bound. *)
Lemma digit_block_code (bound : nat) (block : list nat) : forall k t,
  Forall (fun v => v < bound) block -> k < length block ->
  digit bound k (block_code bound block + bound ^ length block * t)
  = nth k block 0.
Proof.
  induction block as [|b bs IH]; intros k t Hlt Hk; simpl in Hk; [lia|].
  inversion Hlt as [|? ? Hb Hbs]; subst.
  assert (E : block_code bound (b :: bs) + bound ^ length (b :: bs) * t
              = b + (block_code bound bs + bound ^ length bs * t) * bound).
  { simpl. nia. }
  rewrite E. destruct k as [|k]; simpl.
  - rewrite Nat.Div0.mod_add. now apply Nat.mod_small.
  - rewrite Nat.div_add by lia. rewrite (Nat.div_small b bound) by assumption.
    simpl. apply IH; [assumption | lia].
Qed.

Lemma digit_rng_fair (bound : nat) : 0 < bound -> fair_tape bound (digit_rng bound).
Proof.
  intros Hb block t Hl Hlt.
  exists (block_code bound block + bound ^ length block * t). split.
  - assert (bound ^ length block <> 0) by (apply Nat.pow_nonzero; lia). nia.
  - intros i Hi. rewrite Hl in Hi. unfold digit_rng. cbn [tape cursor].
    set (t' := block_code bound block + bound ^ length block * t).
    replace (0 + 6 * t' + i) with (i + t' * 6) by lia.
    unfold digit_tape.
    rewrite Nat.Div0.mod_add, Nat.div_add by lia.
    rewrite (Nat.mod_small i 6), (Nat.div_small i 6) by assumption.
    cbn [Nat.add]. apply digit_block_code; [assumption | lia].
Qed.

Lemma triple_mutations_sampled_returns (seq : str) (sample_size : nat) (r : rng) :
  fair_tape (Nat.max (length seq) 4) r ->
  exists fuel res r',
    forall extra,
      triple_mutations_sampled (fuel + extra) seq sample_size r = Ok res r'.
Proof.
  intros Hfair. apply fair_tape_fair in Hfair.
  destruct (@triple_mutations_sampled_halts seq sample_size r Hfair)
    as (fuel & res & r' & E).
  exists fuel, res, r'. intros extra. unfold triple_mutations_sampled in *.
  now apply triple_loop_fuel_mono.
Qed.

(** ** The exhaustive set of triple substitutions *)

Lemma binom_1 (n : nat) : binom n 1 = n.
Proof.
  induction n as [|n IH]; simpl; [reflexivity|].
  rewrite IH. destruct n; reflexivity.
Qed.

Lemma binom_2 (n : nat) : 2 * binom n 2 = n * (n - 1).
Proof.
  induction n as [|n IH]; simpl binom; [reflexivity|].
  rewrite binom_1. destruct n as [|n]; [reflexivity|].
  replace (S (S n) - 1) with (S n) by lia.
  replace (S n - 1) with n in IH by lia. nia.
Qed.

(** The coefficient of the loop's bound in closed form. *)
Lemma binom_3 (n : nat) : 6 * binom n 3 = n * (n - 1) * (n - 2).
Proof.
  induction n as [|n IH]; simpl binom; [reflexivity|].
  pose proof (binom_2 n) as H2.
  destruct n as [|[|n]]; try reflexivity.
  replace (S (S (S n)) - 1) with (S (S n)) by lia.
  replace (S (S (S n)) - 2) with (S n) by lia.
  replace (S (S n) - 1) with (S n) in * by lia.
  replace (S (S n) - 2) with n in * by lia. nia.
Qed.

Lemma replace_k_over_bases (s : str) k m :
  over_bases s ->
  (In m (_replace_k_mutations s k) <->
   differs_at_exactly k s m /\ over_bases m).
Proof.
  intros Hs. rewrite replace_k_In. split.
  - intros [Hd Hb]. split; [assumption|].
    unfold over_bases. apply Forall_forall. intros c Hc.
    apply (In_nth _ _ "000"%char) in Hc. destruct Hc as (j & Hj & <-).
    destruct Hd as [Hlen _]. rewrite Hlen in Hj.
    destruct (in_dec Nat.eq_dec j (diff_positions s m)) as [Hin|Hout].
    + now apply Hb.
    + destruct (Ascii.eqb (char_at s j) (char_at m j)) eqn:E.
      * apply Ascii.eqb_eq in E. change (In (char_at m j) BASES).
        rewrite <- E. now apply over_bases_char_at.
      * exfalso. apply Hout. apply filter_In.
        split; [now apply range_In | now rewrite E].
  - intros [Hd Hm]. split; [assumption|].
    intros j Hj. apply over_bases_char_at; [assumption|].
    apply filter_In in Hj. destruct Hj as [Hj _]. apply range_In in Hj.
    destruct Hd as [Hlen _]. now rewrite Hlen.
Qed.

Lemma replace_k_differs (s : str) k (l : list str) :
  (forall m, In m l -> In m (_replace_k_mutations s k)) ->
  Forall (differs_at_exactly k s) l.
Proof.
  intros H. apply Forall_forall. intros m Hm.
  apply H, replace_k_In in Hm. tauto.
Qed.

Lemma triple_loop_no_raise (seq : str) (target : nat) :
  (0 < target -> 3 <= length seq) ->
  forall fuel seen r e, triple_loop fuel seq target seen r <> Raise e.
Proof.
  intros HL. induction fuel as [|fuel IH]; intros seen r e;
    destruct (Nat.le_gt_cases target (length seen)) as [Hge|Hlt].
  - now rewrite triple_loop_done.
  - now rewrite triple_loop_zero.
  - now rewrite triple_loop_done.
  - rewrite triple_loop_step by assumption.
    destruct (@triple_draw_Ok seq r) as (x & r1 & E & _); [apply HL; lia|].
    rewrite (@bind_Ok _ _ _ _ _ _ _ E). apply IH.
Qed.

(** C4.  Whatever the raw draws are, [triple_mutations_sampled] raises
    nothing, and what it returns, whenever it returns, are exactly
    min(n, 27*C(L,3)) pairwise distinct strings, each differing from the
    sequence at exactly three positions.  On a fair tape of raw draws it
    returns.  Fairness is a property of the tape alone; [digit_rng] is a fair
    tape for every bound. *)
Theorem triple_mutations_sampled_spec (seq : str) (n : nat) (r : rng) :
  (forall fuel res r',
      triple_mutations_sampled fuel seq n r = Ok res r' ->
      length res = Nat.min n (27 * binom (length seq) 3) /\
      NoDup res /\
      Forall (differs_at_exactly 3 seq) res) /\
  (forall fuel e, triple_mutations_sampled fuel seq n r <> Raise e) /\
  (fair_tape (Nat.max (length seq) 4) r ->
   exists fuel res r',
     (forall extra,
         triple_mutations_sampled (fuel + extra) seq n r = Ok res r') /\
     length res = Nat.min n (27 * binom (length seq) 3) /\
     NoDup res /\
     Forall (differs_at_exactly 3 seq) res).
Proof.
  assert (Hres : forall fuel res r',
             triple_mutations_sampled fuel seq n r = Ok res r' ->
             length res = Nat.min n (27 * binom (length seq) 3) /\
             NoDup res /\ Forall (differs_at_exactly 3 seq) res).
  { intros fuel res r' E.
    destruct (triple_mutations_sampled_result _ _ _ _ E)
      as (Hlen & Hnd & Hin).
    repeat split; auto. now apply replace_k_differs. }
  split; [exact Hres|]. split.
  - intros fuel e. unfold triple_mutations_sampled.
    apply triple_loop_no_raise. intros H. apply triple_upper_pos. lia.
  - intros Hfair.
    destruct (@triple_mutations_sampled_returns seq n r Hfair)
      as (fuel & res & r' & E).
    exists fuel, res, r'. split; [exact E|]. exact (Hres _ _ _ (E 0)).
Qed.

(** A run on the four-letter sequence ATGC with the fair tape of bound 4:
    thirty strings are asked for, the loop takes 580 turns, of which 550
    draw a string already stored. *)
Lemma digit_rng_run :
  (exists res,
      triple_mutations_sampled 580 (lit "ATGC") 30 (digit_rng 4)
      = Ok res (Rng (digit_tape 4) (6 * 580)) /\
      length res = 30 /\
      firstn 4 res = [lit "TAAC"; lit "TAGA"; lit "TTAA"; lit "AAAA"]) /\
  triple_mutations_sampled 579 (lit "ATGC") 30 (digit_rng 4) = OutOfFuel.
Proof.
  split.
  - eexists. split; [vm_compute; reflexivity|]. split; reflexivity.
  - vm_compute. reflexivity.
Qed.

Lemma triple_mutations_sampled_spec_witness :
  fair_tape (Nat.max (length (lit "ATGC")) 4) (digit_rng 4) /\
  (exists res r',
      triple_mutations_sampled 580 (lit "ATGC") 30 (digit_rng 4) = Ok res r' /\
      length res = Nat.min 30 (27 * binom (length (lit "ATGC")) 3) /\
      NoDup res /\
      Forall (differs_at_exactly 3 (lit "ATGC")) res) /\
  exists fuel res r',
    (forall extra,
        triple_mutations_sampled (fuel + extra) (lit "ATGC") 30 (digit_rng 4)
        = Ok res r') /\
    length res = Nat.min 30 (27 * binom (length (lit "ATGC")) 3) /\
    NoDup res /\
    Forall (differs_at_exactly 3 (lit "ATGC")) res.
Proof.
  assert (Hf : fair_tape (Nat.max (length (lit "ATGC")) 4) (digit_rng 4))
    by (apply (@digit_rng_fair 4); lia).
  destruct (@triple_mutations_sampled_spec (lit "ATGC") 30 (digit_rng 4))
    as (Hres & _ & Hret).
  split; [exact Hf|]. split.
  - eexists. eexists.
    refine ((fun E => conj E (Hres 580 _ _ E)) _).
    vm_compute. reflexivity.
  - exact (Hret Hf).
Defined.

(** C8.  The target of the rejection-sampling loop is the requested size
    clamped to 27*C(L,3).  The exhaustive set of triple substitutions is
    duplicate-free and never has fewer strings than that bound, and every
    string of it is what one turn of the loop draws for some block of six raw
    draws below max(L, 4); so on every fair tape the loop terminates, for
    every sequence and sample size, and a fair tape exists for every
    sequence.  For a sequence over A, T, C, G the bound is exactly the number
    of distinct strings over the alphabet that differ from the sequence at
    exactly three positions. *)
Theorem triple_sampling_terminates (seq : str) (sample_size : nat) :
  (forall r,
      fair_tape (Nat.max (length seq) 4) r ->
      exists fuel res r',
        (forall extra,
            triple_mutations_sampled (fuel + extra) seq sample_size r
            = Ok res r') /\
        length res = Nat.min sample_size (triple_upper seq)) /\
  fair_tape (Nat.max (length seq) 4) (digit_rng (Nat.max (length seq) 4)) /\
  triple_upper seq = 27 * binom (length seq) 3 /\
  NoDup (_replace_k_mutations seq 3) /\
  triple_upper seq <= length (_replace_k_mutations seq 3) /\
  (forall m, In m (_replace_k_mutations seq 3) ->
     exists block,
       length block = 6 /\
       Forall (fun v => v < Nat.max (length seq) 4) block /\
       forall r, next_draws r block ->
         triple_draw seq r = Ok m (Rng (tape r) (cursor r + 6))) /\
  (over_bases seq ->
   length (_replace_k_mutations seq 3) = triple_upper seq /\
   forall m, In m (_replace_k_mutations seq 3) <->
             differs_at_exactly 3 seq m /\ over_bases m).
Proof.
  split; [|split; [|split; [|split; [|split; [|split]]]]].
  - intros r Hfair.
    destruct (@triple_mutations_sampled_returns seq sample_size r Hfair)
      as (fuel & res & r' & E).
    exists fuel, res, r'. split; [assumption|].
    rewrite triple_upper_binom.
    now apply (triple_mutations_sampled_result _ _ _ _ (E 0)).
  - apply digit_rng_fair. lia.
  - apply triple_upper_binom.
  - apply replace_k_NoDup.
  - apply triple_upper_le_exhaustive.
  - intros m. apply triple_draw_reach.
  - intros Hs. split.
    + rewrite replace_k_length, triple_upper_binom by assumption.
      reflexivity.
    + intros m. now apply replace_k_over_bases.
Qed.

Lemma over_bases_ATG : over_bases (lit "ATG").
Proof. unfold over_bases. repeat constructor; simpl; tauto. Qed.

Lemma over_bases_ATGC : over_bases (lit "ATGC").
Proof. unfold over_bases. repeat constructor; simpl; tauto. Qed.

Lemma triple_sampling_terminates_witness :
  fair_tape (Nat.max (length (lit "ATGC")) 4) (digit_rng 4) /\
  over_bases (lit "ATGC") /\
  In (lit "AAAA") (_replace_k_mutations (lit "ATGC") 3) /\
  (exists fuel res r',
      (forall extra,
          triple_mutations_sampled (fuel + extra) (lit "ATGC") 200
                                   (digit_rng 4) = Ok res r') /\
      length res = Nat.min 200 (triple_upper (lit "ATGC"))) /\
  (exists block,
      length block = 6 /\
      Forall (fun v => v < Nat.max (length (lit "ATGC")) 4) block /\
      forall r, next_draws r block ->
        triple_draw (lit "ATGC") r
        = Ok (lit "AAAA") (Rng (tape r) (cursor r + 6))) /\
  length (_replace_k_mutations (lit "ATGC") 3) = triple_upper (lit "ATGC").
Proof.
  destruct (@triple_sampling_terminates (lit "ATGC") 200)
    as (Hhalt & Hfair & _ & _ & _ & Hreach & Hcount).
  assert (Hin : In (lit "AAAA") (_replace_k_mutations (lit "ATGC") 3)).
  { apply replace_k_over_bases; [exact over_bases_ATGC|].
    split; [split; reflexivity|].
    unfold over_bases. repeat constructor; simpl; tauto. }
  split; [exact Hfair|].
  split; [exact over_bases_ATGC|].
  split; [exact Hin|].
  split; [exact (Hhalt _ Hfair)|].
  split; [exact (Hreach _ Hin)|].
  exact (proj1 (Hcount over_bases_ATGC)).
Defined.

(** ** [process_sequence] *)

Lemma str_eqb_neq (a b : str) : a <> b -> str_eqb a b = false.
Proof.
  intros H. apply not_true_is_false. now rewrite str_eqb_eq.
Qed.

Lemma upper_char_idem (c : ascii) : upper_char (upper_char c) = upper_char c.
Proof. destruct c as [[] [] [] [] [] [] [] []]; reflexivity. Qed.

Lemma upper_idem (s : str) : upper (upper s) = upper s.
Proof.
  unfold upper. rewrite map_map. apply map_ext. apply upper_char_idem.
Qed.

(** The three lists of a returned result are built from its core list. *)
Lemma process_sequence_inv fuel seq primer_f primer_r mut_type keep_length
    delete_fill_side sample_size r res r' :
  process_sequence fuel seq primer_f primer_r mut_type keep_length
                   delete_fill_side sample_size r = Ok res r' ->
  sequences res =
    map (fun c => upper primer_f ++ c ++ upper primer_r) (core_only res) /\
  report res =
    map (fun i => mut_type ++ lit "_" ++ dec (i + 1))
        (range (length (core_only res))).
Proof.
  unfold process_sequence. intros E.
  apply bind_inv in E. destruct E as (core0 & r1 & _ & E).
  apply bind_inv in E. destruct E as (core & r2 & _ & E).
  injection E as <- _. simpl. now rewrite length_map.
Qed.

(** Whenever [process_sequence] returns, the three lists have one length and
    every full sequence is its core between the two uppercased primers. *)
Lemma process_sequence_aligned fuel seq primer_f primer_r mut_type keep_length
    delete_fill_side sample_size r res r' :
  process_sequence fuel seq primer_f primer_r mut_type keep_length
                   delete_fill_side sample_size r = Ok res r' ->
  length (sequences res) = length (core_only res) /\
  length (report res) = length (core_only res) /\
  forall i, i < length (core_only res) ->
    nth i (sequences res) [] =
    upper primer_f ++ nth i (core_only res) [] ++ upper primer_r.
Proof.
  intros E. apply process_sequence_inv in E. destruct E as [-> ->].
  rewrite !length_map, range_length. repeat split.
  intros i Hi.
  rewrite (nth_indep _ [] ((fun c => upper primer_f ++ c ++ upper primer_r) []))
    by (now rewrite length_map).
  apply (map_nth (fun c => upper primer_f ++ c ++ upper primer_r)).
Qed.

(** C1.  On the one-letter sequence A in mode del2 with the default
    [keep_length], [process_sequence] does not return the three lists: the
    list of deletion variants is empty and reading its first element raises
    IndexError. *)
Theorem process_sequence_del2_one_letter fuel primer_f primer_r
    delete_fill_side sample_size r :
  del2 (lit "A") = [] /\
  process_sequence fuel (lit "A") primer_f primer_r (lit "del2") true
                   delete_fill_side sample_size r = Raise IndexError.
Proof. split; reflexivity. Qed.

(** ** Deletions and length compensation in [process_sequence] *)

Lemma choices_Ok (A : Type) (xs : list A) (k : nat) : forall r,
  xs <> [] ->
  exists res r', choices xs k r = Ok res r' /\ length res = k /\
                 Forall (fun x => In x xs) res.
Proof.
  induction k as [|k IH]; intros r Hxs.
  - exists [], r. repeat split. constructor.
  - destruct (@choice_Ok _ xs r Hxs) as (x & Hx & Ex).
    destruct (IH (Rng (tape r) (S (cursor r))) Hxs) as (res & r' & E & Hl & Hall).
    exists (x :: res), r'. split; [|split].
    + simpl choices. rewrite (@bind_Ok _ _ _ _ _ _ _ Ex).
      rewrite (@bind_Ok _ _ _ _ _ _ _ E). reflexivity.
    + simpl. now rewrite Hl.
    + now constructor.
Qed.

Lemma del1_length (s c : str) : In c (del1 s) -> length c = length s - 1.
Proof.
  unfold del1. rewrite in_map_iff. intros (i & <- & Hi).
  apply range_In in Hi.
  rewrite length_app, length_firstn, length_skipn. lia.
Qed.

Lemma subseq_pair_range (n : nat) : forall a i j,
  subseq [i; j] (seq a n) -> a <= i /\ i < j /\ j < a + n.
Proof.
  induction n as [|n IH]; intros a i j H; simpl in H; inversion H; subst.
  - apply IH in H2. lia.
  - apply (subseq_In j) in H1; [|simpl; auto]. apply in_seq in H1. lia.
Qed.

Lemma del2_In (s c : str) :
  In c (del2 s) <->
  exists i j, i < j /\ j < length s /\
    c = firstn i s ++ firstn (j - (i + 1)) (skipn (i + 1) s) ++ skipn (j + 1) s.
Proof.
  unfold del2. rewrite in_flat_map. split.
  - intros (ij & Hij & Hc). apply combinations_In in Hij.
    destruct Hij as [Hs Hl].
    destruct ij as [|i [|j [|? ?]]]; try discriminate.
    destruct Hc as [<-|[]]. apply subseq_pair_range in Hs.
    exists i, j. repeat split; lia.
  - intros (i & j & Hij & Hj & ->). exists [i; j]. split; [|simpl; auto].
    apply combinations_In. split; [|reflexivity].
    apply sorted_subseq.
    + repeat constructor. lia.
    + repeat constructor; simpl; intuition lia.
    + simpl. intros x [<-|[<-|[]]]; lia.
Qed.

Lemma del2_length (s c : str) : In c (del2 s) -> length c = length s - 2.
Proof.
  rewrite del2_In. intros (i & j & Hij & Hj & ->).
  rewrite !length_app, !length_firstn, !length_skipn. lia.
Qed.

Lemma del1_nonempty (s : str) : 1 <= length s -> del1 s <> [].
Proof.
  intros H E. apply (f_equal (@length _)) in E. unfold del1 in E.
  rewrite length_map, range_length in E. simpl in E. lia.
Qed.

Lemma del2_nonempty (s : str) : 2 <= length s -> del2 s <> [].
Proof.
  intros H E.
  assert (Hin : In (firstn 0 s ++ firstn (1 - (0 + 1)) (skipn (0 + 1) s)
                      ++ skipn (1 + 1) s) (del2 s)).
  { apply del2_In. exists 0, 1. repeat split; lia. }
  rewrite E in Hin. contradiction.
Qed.

(** The padding step of [process_sequence], on a list of variants that are
    all [n_del] letters shorter than the sequence. *)
Lemma pad_step (seq : str) (core_list : list str) (n_del : nat)
    (delete_fill_side : str) (r : rng) :
  core_list <> [] -> n_del <= length seq ->
  (forall c, In c core_list -> length c = length seq - n_del) ->
  exists fill_seq r',
    match core_list with
    | [] => raise IndexError
    | c0 :: _ =>
        fill_seq <- choices BASES (abs_diff (length c0) (length seq)) ;;
        if str_eqb delete_fill_side (lit "5")
        then ret (map (fun c => fill_seq ++ c) core_list)
        else ret (map (fun c => c ++ fill_seq) core_list)
    end r
    = Ok (map (fun c => if str_eqb delete_fill_side (lit "5")
                        then fill_seq ++ c else c ++ fill_seq) core_list) r' /\
    length fill_seq = n_del /\ over_bases fill_seq.
Proof.
  intros Hne Hn Hlen. destruct core_list as [|c0 rest]; [congruence|].
  assert (Hd : abs_diff (length c0) (length seq) = n_del).
  { unfold abs_diff. rewrite (Hlen c0) by (simpl; auto). lia. }
  rewrite Hd.
  destruct (@choices_Ok _ BASES n_del r) as (fill & r' & E & Hl & Hall).
  { discriminate. }
  exists fill, r'. split; [|split; assumption].
  rewrite (@bind_Ok _ _ _ _ _ _ _ E).
  destruct (str_eqb delete_fill_side (lit "5")); reflexivity.
Qed.

(** Length compensation in [process_sequence]: in the modes del1 and del2
    with [keep_length], one fill string is drawn and attached to every
    deletion variant, on the side selected, and every core variant has the
    length of the sequence. *)
Lemma process_sequence_keep_length fuel seq primer_f primer_r mut_type
    delete_fill_side sample_size r :
  (mut_type = lit "del1" /\ 1 <= length seq) \/
  (mut_type = lit "del2" /\ 2 <= length seq) ->
  exists fill_seq res r',
    process_sequence fuel seq primer_f primer_r mut_type true
                     delete_fill_side sample_size r = Ok res r' /\
    over_bases fill_seq /\
    core_only res =
      map (fun c => if str_eqb delete_fill_side (lit "5")
                    then fill_seq ++ c else c ++ fill_seq)
          (if str_eqb mut_type (lit "del1") then del1 (upper seq)
           else del2 (upper seq)) /\
    Forall (fun c => length c = length seq) (core_only res).
Proof.
  intros [[-> HL]|[-> HL]].
  - destruct (@pad_step (upper seq) (del1 (upper seq)) 1 delete_fill_side r)
      as (fill & r' & E & Hl & Hb).
    { apply del1_nonempty. now rewrite upper_length. }
    { now rewrite upper_length. }
    { apply del1_length. }
    eexists fill, _, r'. split; [|split; [exact Hb|split]].
    + unfold process_sequence.
      change (str_eqb (lit "del1") (lit "single")) with false.
      change (str_eqb (lit "del1") (lit "double")) with false.
      change (str_eqb (lit "del1") (lit "triple")) with false.
      change (str_eqb (lit "del1") (lit "del1")) with true.
      change (is_del_type (lit "del1") && true) with true.
      cbv iota. unfold bind at 1 2. unfold ret at 1.
      rewrite E. reflexivity.
    + reflexivity.
    + cbn [core_only]. apply Forall_forall. intros c Hc.
      apply in_map_iff in Hc. destruct Hc as (c' & <- & Hc').
      apply del1_length in Hc'. rewrite upper_length in Hc'.
      destruct (str_eqb delete_fill_side (lit "5"));
        rewrite length_app; lia.
  - destruct (@pad_step (upper seq) (del2 (upper seq)) 2 delete_fill_side r)
      as (fill & r' & E & Hl & Hb).
    { apply del2_nonempty. now rewrite upper_length. }
    { now rewrite upper_length. }
    { apply del2_length. }
    eexists fill, _, r'. split; [|split; [exact Hb|split]].
    + unfold process_sequence.
      change (str_eqb (lit "del2") (lit "single")) with false.
      change (str_eqb (lit "del2") (lit "double")) with false.
      change (str_eqb (lit "del2") (lit "triple")) with false.
      change (str_eqb (lit "del2") (lit "del1")) with false.
      change (str_eqb (lit "del2") (lit "del2")) with true.
      change (is_del_type (lit "del2") && true) with true.
      cbv iota. unfold bind at 1 2. unfold ret at 1.
      rewrite E. reflexivity.
    + reflexivity.
    + cbn [core_only]. apply Forall_forall. intros c Hc.
      apply in_map_iff in Hc. destruct Hc as (c' & <- & Hc').
      apply del2_length in Hc'. rewrite upper_length in Hc'.
      destruct (str_eqb delete_fill_side (lit "5"));
        rewrite length_app; lia.
Qed.

(** ** The form handler *)

(** The reduction to [sample_size] entries: the whole list when it is short
    enough, otherwise a sample of [sample_size] entries taken out of it. *)
Lemma sample_or_all (l : list str) (n : nat) (r : rng) :
  exists core r',
    (if n <? length l then sample l n else ret l) r = Ok core r' /\
    length core = Nat.min (length l) n /\
    (exists rest, Permutation l (core ++ rest)) /\
    (length l <= n -> core = l).
Proof.
  destruct (Nat.ltb_spec n (length l)) as [Hlt|Hge].
  - destruct (@sample_Ok _ l n r) as (core & r' & E & Hlen & Hperm); [lia|].
    exists core, r'. repeat split; auto; lia.
  - exists l, r. repeat split; try lia.
    exists []. now rewrite app_nil_r.
Qed.

Lemma core_step_replace (seq : str) (count n : nat) (r : rng) :
  core_step seq (lit "replace") count n r =
  (if n <? length (_replace_k_mutations seq count)
   then sample (_replace_k_mutations seq count) n
   else ret (_replace_k_mutations seq count)) r.
Proof. reflexivity. Qed.

Lemma core_step_delete (seq : str) (count n : nat) (r : rng) :
  core_step seq (lit "delete") count n r =
  (if n <? length (_delete_k_mutations seq count)
   then sample (_delete_k_mutations seq count) n
   else ret (_delete_k_mutations seq count)) r.
Proof. reflexivity. Qed.

(** Once the core variants are computed the handler returns: the full
    sequences are the core variants between the primers as typed, the labels
    carry the mutation type and [count]. *)
Lemma run_block_Ok seq_text primer_f primer_r mut_type count sample_size
    fill_side_choice r core r1 :
  upper (filter (fun c => negb (Ascii.eqb c newline)) seq_text) <> [] ->
  core_step (upper (filter (fun c => negb (Ascii.eqb c newline)) seq_text))
            mut_type count sample_size r = Ok core r1 ->
  exists r2,
    run_block seq_text primer_f primer_r mut_type count sample_size
              fill_side_choice r
    = Ok (Result (map (fun c => primer_f ++ c ++ primer_r) core) core
                 (map (fun i => mut_type ++ lit "_k" ++ dec count ++ lit "_"
                                 ++ dec (i + 1))
                      (range (length core)))) r2.
Proof.
  intros Hne Ec. unfold run_block.
  remember (upper (filter (fun c => negb (Ascii.eqb c newline)) seq_text))
    as seq eqn:Hseq.
  destruct seq as [|c0 seq']; [congruence|].
  rewrite (@bind_Ok _ _ _ _ _ _ _ Ec).
  destruct (@process_sequence_keep_length 0 (c0 :: seq') primer_f primer_r
              (lit "del1")
              (if str_eqb mut_type (lit "delete") then fill_side_choice
               else lit "5") sample_size r1)
    as (fill & res & r2 & E & _).
  { left. split; [reflexivity | simpl; lia]. }
  exists r2. rewrite (@bind_Ok _ _ _ _ _ _ _ E). reflexivity.
Qed.

Lemma run_block_inv seq_text primer_f primer_r mut_type count sample_size
    fill_side_choice r res r' :
  run_block seq_text primer_f primer_r mut_type count sample_size
            fill_side_choice r = Ok res r' ->
  sequences res = map (fun c => primer_f ++ c ++ primer_r) (core_only res) /\
  report res =
    map (fun i => mut_type ++ lit "_k" ++ dec count ++ lit "_" ++ dec (i + 1))
        (range (length (core_only res))).
Proof.
  unfold run_block.
  destruct (upper (filter (fun c => negb (Ascii.eqb c newline)) seq_text))
    as [|c0 seq']; [discriminate|].
  intros E. apply bind_inv in E. destruct E as (core & r1 & _ & E).
  apply bind_inv in E. destruct E as (res0 & r2 & _ & E).
  injection E as <- _. split; reflexivity.
Qed.

Lemma NoDup_incl_rest (A : Type) (c : list A) : forall l,
  NoDup c -> NoDup l -> incl c l -> exists rest, Permutation l (c ++ rest).
Proof.
  induction c as [|x c IH]; intros l Hc Hl Hincl.
  - exists l. reflexivity.
  - inversion Hc; subst.
    assert (Hx : In x l) by (apply Hincl; simpl; auto).
    apply in_split in Hx. destruct Hx as (pre & post & ->).
    destruct (IH (pre ++ post)) as (rest & Hp); auto.
    + now apply NoDup_remove_1 in Hl.
    + intros y Hy. assert (Hy' : In y (pre ++ x :: post))
        by (apply Hincl; simpl; auto).
      rewrite in_app_iff in *. simpl in Hy'.
      destruct Hy' as [?|[<-|?]]; auto. contradiction.
    + exists rest. simpl. apply Permutation_sym, Permutation_cons_app.
      now apply Permutation_sym.
Qed.

(** The first entry of a sample is the entry of the population at the index
    the first raw draw gives. *)
Lemma sample_first (l : list str) (n : nat) (r : rng) core r' :
  0 < n ->
  sample l n r = Ok core r' ->
  nth 0 core [] = nth (tape r (cursor r) mod length l) l [].
Proof.
  intros Hn E. unfold sample in E.
  destruct (length l <? n); [discriminate|].
  destruct n as [|n]; [lia|]. destruct l as [|d l0]; [discriminate|].
  change (sample_pool (d :: l0) (S n) r) with
    (bind (randbelow (length (d :: l0)))
       (fun j => bind (sample_pool (firstn j (d :: l0)
                                      ++ skipn (S j) (d :: l0)) n)
                      (fun rest0 => ret (nth j (d :: l0) d :: rest0)))
       r) in E.
  rewrite (@bind_Ok _ _ _ _ _ _ _ (randbelow_Ok _ r)) in E.
  apply bind_inv in E. destruct E as (rest0 & r1 & _ & E).
  assert (Hc : core = nth (tape r (cursor r) mod length (d :: l0))
                          (d :: l0) d :: rest0)
    by (unfold ret in E; congruence).
  rewrite Hc.
  transitivity (nth (tape r (cursor r) mod length (d :: l0)) (d :: l0) d);
    [reflexivity|].
  apply nth_indep. apply Nat.mod_upper_bound. discriminate.
Qed.

(** C7.  In the replace mode of the handler the core variants are the
    exhaustive list when it has at most [sample_size] entries; otherwise they
    are [sample_size] entries taken out of the materialized exhaustive list
    without replacement, as the random source has it: the first entry is the
    one at the index the first raw draw gives, and every arrangement of
    [sample_size] distinct entries of the exhaustive list is returned for
    some raw draws.  The handler returns without running any loop, the
    result has min(exhaustive count, sample_size) entries, pairwise distinct,
    each a member of the exhaustive list. *)
Theorem replace_mode_sampling seq_text primer_f primer_r count sample_size
    fill_side_choice r :
  let seq := upper (filter (fun c => negb (Ascii.eqb c newline)) seq_text) in
  let exhaustive := _replace_k_mutations seq count in
  seq <> [] ->
  (exists res r',
      run_block seq_text primer_f primer_r (lit "replace") count sample_size
                fill_side_choice r = Ok res r' /\
      length (core_only res) = Nat.min (length exhaustive) sample_size /\
      (forall m, In m (core_only res) -> In m exhaustive) /\
      NoDup (core_only res) /\
      (exists rest, Permutation exhaustive (core_only res ++ rest)) /\
      (length exhaustive <= sample_size -> core_only res = exhaustive) /\
      (0 < sample_size < length exhaustive ->
       nth 0 (core_only res) []
       = nth (tape r (cursor r) mod length exhaustive) exhaustive [])) /\
  (sample_size < length exhaustive ->
   forall c,
     length c = sample_size -> NoDup c -> incl c exhaustive ->
     exists block,
       length block = sample_size /\
       Forall (fun v => v < length exhaustive) block /\
       forall r0, next_draws r0 block ->
         exists res r',
           run_block seq_text primer_f primer_r (lit "replace") count
                     sample_size fill_side_choice r0 = Ok res r' /\
           core_only res = c).
Proof.
  intros seq exhaustive Hne. split.
  - destruct (sample_or_all exhaustive sample_size r)
      as (core & r1 & E & Hlen & (rest & Hperm) & Hall).
    destruct (@run_block_Ok seq_text primer_f primer_r (lit "replace") count
                sample_size fill_side_choice r core r1 Hne) as (r2 & Er).
    { rewrite core_step_replace. exact E. }
    eexists _, r2. split; [exact Er|]. cbn [core_only].
    assert (Hnd : NoDup (core ++ rest)).
    { apply (Permutation_NoDup Hperm). apply replace_k_NoDup. }
    repeat split; auto.
    + intros m Hm. apply (Permutation_in _ (Permutation_sym Hperm)).
      apply in_or_app. now left.
    + now apply NoDup_app_remove_r in Hnd.
    + now exists rest.
    + intros [Hpos Hlt].
      destruct (Nat.ltb_spec sample_size (length exhaustive)); [|lia].
      now apply (@sample_first exhaustive sample_size r core r1).
  - unfold exhaustive, seq in *. clear exhaustive seq.
    set (exhaustive := _replace_k_mutations _ count) in *.
    intros Hlt c Hlc Hndc Hincl.
    destruct (@NoDup_incl_rest _ c exhaustive Hndc (replace_k_NoDup _ _) Hincl)
      as (rest & Hperm).
    destruct (@sample_pool_reach _ c _ _ Hperm) as (block & Hbl & Hblt & Hrun).
    exists block. rewrite Hlc in *. repeat split; auto.
    intros r0 Hr0.
    destruct (@run_block_Ok seq_text primer_f primer_r (lit "replace") count
                sample_size fill_side_choice r0 c
                (Rng (tape r0) (cursor r0 + sample_size)) Hne) as (r2 & Er).
    { rewrite core_step_replace. fold exhaustive.
      destruct (Nat.ltb_spec sample_size (length exhaustive)); [|lia].
      unfold sample.
      destruct (Nat.ltb_spec (length exhaustive) sample_size); [lia|].
      now apply Hrun. }
    eexists _, r2. split; [exact Er | reflexivity].
Qed.

Lemma replace_mode_sampling_witness :
  upper (filter (fun c => negb (Ascii.eqb c newline)) (lit "at")) <> [] /\
  2 < length (_replace_k_mutations (lit "AT") 1) /\
  length [lit "AG"; lit "TT"] = 2 /\
  NoDup [lit "AG"; lit "TT"] /\
  incl [lit "AG"; lit "TT"] (_replace_k_mutations (lit "AT") 1) /\
  (exists res r',
      run_block (lit "at") [] [] (lit "replace") 1 2 (lit "5") cycle_rng
      = Ok res r' /\
      length (core_only res) = 2) /\
  (exists block,
      length block = 2 /\
      forall r0, next_draws r0 block ->
        exists res r',
          run_block (lit "at") [] [] (lit "replace") 1 2 (lit "5") r0
          = Ok res r' /\
          core_only res = [lit "AG"; lit "TT"]).
Proof.
  assert (H : upper (filter (fun c => negb (Ascii.eqb c newline)) (lit "at"))
              <> []) by discriminate.
  assert (Hlt : 2 < length (_replace_k_mutations (lit "AT") 1))
    by (vm_compute; lia).
  assert (Hl : length [lit "AG"; lit "TT"] = 2) by reflexivity.
  assert (Hnd : NoDup [lit "AG"; lit "TT"]).
  { repeat constructor; simpl; intuition discriminate. }
  assert (Hincl : incl [lit "AG"; lit "TT"] (_replace_k_mutations (lit "AT") 1)).
  { intros m [<-|[<-|[]]]; vm_compute; tauto. }
  destruct (@replace_mode_sampling (lit "at") [] [] 1 2 (lit "5") cycle_rng H)
    as ((res & r' & E & Hlen & _) & Hreach).
  split; [exact H|]. split; [exact Hlt|]. split; [exact Hl|].
  split; [exact Hnd|]. split; [exact Hincl|]. split.
  - exists res, r'. split; [exact E | exact Hlen].
  - destruct (Hreach Hlt _ Hl Hnd Hincl) as (block & Hbl & _ & Hrun).
    exists block. split; [exact Hbl | exact Hrun].
Defined.

(** C2.  In the delete mode of the handler, on the sequence ATG with
    [count = 1], the core variants returned are TG, AG, AT: two letters each,
    not three.  The handler calls [process_sequence] with [keep_length] set
    and the selected fill side, then replaces the lists it got back by lists
    built from the unpadded variants. *)
Theorem run_block_delete_unpadded (r : rng) :
  exists res r',
    run_block (lit "ATG") [] [] (lit "delete") 1 100 (lit "5") r = Ok res r' /\
    core_only res = [lit "TG"; lit "AG"; lit "AT"] /\
    sequences res = [lit "TG"; lit "AG"; lit "AT"] /\
    Forall (fun c => length c = 2) (core_only res).
Proof.
  eexists _, _. split; [reflexivity|]. cbn [core_only sequences].
  repeat split; repeat constructor.
Qed.

(** [process_sequence] works on the uppercased sequence and primers: a call
    is the same as the call on the uppercased forms. *)
Lemma process_sequence_upper fuel seq primer_f primer_r mut_type keep_length
    delete_fill_side sample_size r :
  process_sequence fuel seq primer_f primer_r mut_type keep_length
                   delete_fill_side sample_size r =
  process_sequence fuel (upper seq) (upper primer_f) (upper primer_r) mut_type
                   keep_length delete_fill_side sample_size r.
Proof. unfold process_sequence. now rewrite !upper_idem. Qed.

(** C6.  In the handler the primers are not uppercased: with the sequence
    atGc and the primers aa and tt, the first full sequence is aaTTGCtt,
    where [process_sequence] on the same input gives AATTGCTT. *)
Theorem run_block_primers_as_typed (r : rng) :
  (exists res r',
      run_block (lit "atGc") (lit "aa") (lit "tt") (lit "replace") 1 100
                (lit "5") r = Ok res r' /\
      nth 0 (core_only res) [] = lit "TTGC" /\
      nth 0 (sequences res) [] = lit "aaTTGCtt") /\
  (exists res,
      process_sequence 0 (lit "atGc") (lit "aa") (lit "tt") (lit "single") true
                       (lit "5") 100 r = Ok res r /\
      nth 0 (core_only res) [] = lit "TTGC" /\
      nth 0 (sequences res) [] = lit "AATTGCTT").
Proof.
  split.
  - eexists _, _. split; [reflexivity|]. split; reflexivity.
  - eexists. split; [reflexivity|]. split; reflexivity.
Qed.

(** ** Modes that draw nothing *)

Lemma process_sequence_pure fuel seq primer_f primer_r mut_type keep_length
    delete_fill_side sample_size r :
  mut_type = lit "single" \/ mut_type = lit "double" \/
  ((mut_type = lit "del1" \/ mut_type = lit "del2") /\ keep_length = false) ->
  process_sequence fuel seq primer_f primer_r mut_type keep_length
                   delete_fill_side sample_size r =
  Ok (assemble (upper primer_f) (upper primer_r) mut_type
               (pure_core mut_type (upper seq))) r.
Proof.
  intros [->|[->|[[->| ->] ->]]]; reflexivity.
Qed.

(** C10.  In the modes single and double, and in the modes del1 and del2
    without [keep_length], the result of [process_sequence] is a function of
    the sequence, the primers and the mode: it is the same for every state of
    the random source, and the source is left as it was. *)
Theorem process_sequence_deterministic seq primer_f primer_r mut_type
    keep_length delete_fill_side sample_size :
  mut_type = lit "single" \/ mut_type = lit "double" \/
  ((mut_type = lit "del1" \/ mut_type = lit "del2") /\ keep_length = false) ->
  exists res,
    forall fuel r,
      process_sequence fuel seq primer_f primer_r mut_type keep_length
                       delete_fill_side sample_size r = Ok res r.
Proof.
  intros H. eexists. intros fuel r. now apply process_sequence_pure.
Qed.

Lemma process_sequence_deterministic_witness :
  (lit "del2" = lit "single" \/ lit "del2" = lit "double" \/
   ((lit "del2" = lit "del1" \/ lit "del2" = lit "del2") /\ false = false)) /\
  exists res,
    forall fuel r,
      process_sequence fuel (lit "ATGC") (lit "X") (lit "Y") (lit "del2") false
                       (lit "5") 10 r = Ok res r.
Proof.
  assert (H : lit "del2" = lit "single" \/ lit "del2" = lit "double" \/
              ((lit "del2" = lit "del1" \/ lit "del2" = lit "del2") /\
               false = false)).
  { right; right. split; [right; reflexivity | reflexivity]. }
  split; [exact H|].
  exact (@process_sequence_deterministic (lit "ATGC") (lit "X") (lit "Y")
           (lit "del2") false (lit "5") 10 H).
Defined.

(** ** Invalid input *)

Lemma process_sequence_unsupported fuel seq primer_f primer_r mut_type
    keep_length delete_fill_side sample_size r :
  ~ supported mut_type ->
  process_sequence fuel seq primer_f primer_r mut_type keep_length
                   delete_fill_side sample_size r = Raise ValueError.
Proof.
  intros H. unfold supported in H. unfold process_sequence.
  rewrite !str_eqb_neq by tauto. reflexivity.
Qed.

Lemma triple_mutations_sampled_empty fuel sample_size r :
  triple_mutations_sampled fuel [] sample_size r = Ok [] r.
Proof.
  unfold triple_mutations_sampled. apply triple_loop_done.
  change (triple_upper []) with 0. rewrite Nat.min_0_r. simpl. lia.
Qed.

Lemma process_sequence_empty fuel primer_f primer_r mut_type keep_length
    delete_fill_side sample_size r :
  mut_type = lit "single" \/ mut_type = lit "double" \/
  mut_type = lit "triple" ->
  process_sequence fuel [] primer_f primer_r mut_type keep_length
                   delete_fill_side sample_size r = Ok (Result [] [] []) r.
Proof.
  intros [->|[->| ->]]; try reflexivity.
  unfold process_sequence.
  change (str_eqb (lit "triple") (lit "single")) with false.
  change (str_eqb (lit "triple") (lit "double")) with false.
  change (str_eqb (lit "triple") (lit "triple")) with true.
  cbv iota. change (upper []) with (@nil ascii).
  unfold bind at 1. rewrite triple_mutations_sampled_empty. reflexivity.
Qed.

Lemma run_block_empty seq_text primer_f primer_r mut_type count sample_size
    fill_side_choice r :
  upper (filter (fun c => negb (Ascii.eqb c newline)) seq_text) = [] ->
  run_block seq_text primer_f primer_r mut_type count sample_size
            fill_side_choice r = Raise StopException.
Proof. intros H. unfold run_block. now rewrite H. Qed.

Lemma k_too_large (seq : str) (k : nat) :
  length seq < k ->
  _replace_k_mutations seq k = [] /\ _delete_k_mutations seq k = [].
Proof.
  intros H. unfold _replace_k_mutations, _delete_k_mutations.
  rewrite combinations_too_long by (now rewrite range_length).
  split; reflexivity.
Qed.

(** C5, as the code has it.  [process_sequence] fails at once with
    ValueError on a mutation type it does not support.  An empty sequence is
    refused by the form handler, which reports the error and stops before
    generating anything; [process_sequence] itself accepts the empty sequence
    and returns three empty lists in the substitution modes.  When [k]
    exceeds the length of the sequence the k-exhaustive generators return the
    empty list, and the handler returns three empty lists. *)
Theorem invalid_input_handling :
  (forall fuel seq primer_f primer_r mut_type keep_length delete_fill_side
          sample_size r,
      ~ supported mut_type ->
      process_sequence fuel seq primer_f primer_r mut_type keep_length
                       delete_fill_side sample_size r = Raise ValueError) /\
  (forall seq_text primer_f primer_r mut_type count sample_size
          fill_side_choice r,
      upper (filter (fun c => negb (Ascii.eqb c newline)) seq_text) = [] ->
      run_block seq_text primer_f primer_r mut_type count sample_size
                fill_side_choice r = Raise StopException) /\
  (forall fuel primer_f primer_r mut_type keep_length delete_fill_side
          sample_size r,
      mut_type = lit "single" \/ mut_type = lit "double" \/
      mut_type = lit "triple" ->
      process_sequence fuel [] primer_f primer_r mut_type keep_length
                       delete_fill_side sample_size r
      = Ok (Result [] [] []) r) /\
  (forall seq k, length seq < k ->
      _replace_k_mutations seq k = [] /\ _delete_k_mutations seq k = []) /\
  (forall seq_text primer_f primer_r mut_type count sample_size
          fill_side_choice r,
      let seq := upper (filter (fun c => negb (Ascii.eqb c newline)) seq_text)
      in
      seq <> [] -> length seq < count ->
      exists r',
        run_block seq_text primer_f primer_r mut_type count sample_size
                  fill_side_choice r = Ok (Result [] [] []) r').
Proof.
  split; [|split; [|split; [|split]]].
  - intros. now apply process_sequence_unsupported.
  - intros. now apply run_block_empty.
  - intros. now apply process_sequence_empty.
  - intros. now apply k_too_large.
  - intros seq_text primer_f primer_r mut_type count sample_size
           fill_side_choice r seq Hne Hk.
    destruct (k_too_large seq Hk) as [Hr Hd].
    assert (Ec : core_step seq mut_type count sample_size r = Ok [] r).
    { unfold core_step. rewrite Hr, Hd.
      destruct (str_eqb mut_type (lit "replace"));
        destruct (sample_size <? length (@nil str)) eqn:E;
        try reflexivity; apply Nat.ltb_lt in E; simpl in E; lia. }
    destruct (@run_block_Ok seq_text primer_f primer_r mut_type count
                sample_size fill_side_choice r [] r Hne Ec) as (r2 & E).
    exists r2. exact E.
Qed.

Lemma unsupported_mode : ~ supported (lit "unsupported").
Proof.
  unfold supported. intros [H|[H|[H|[H|H]]]]; discriminate.
Qed.

Lemma invalid_input_handling_witness :
  ~ supported (lit "unsupported") /\
  process_sequence 0 (lit "ATG") [] [] (lit "unsupported") true (lit "5") 10
                   cycle_rng = Raise ValueError /\
  upper (filter (fun c => negb (Ascii.eqb c newline)) []) = [] /\
  run_block [] [] [] (lit "replace") 1 10 (lit "5") cycle_rng
    = Raise StopException /\
  process_sequence 0 [] [] [] (lit "single") true (lit "5") 10 cycle_rng
    = Ok (Result [] [] []) cycle_rng /\
  length (lit "ATG") < 5 /\
  _replace_k_mutations (lit "ATG") 5 = [] /\
  exists r',
    run_block (lit "ATG") [] [] (lit "replace") 5 10 (lit "5") cycle_rng
    = Ok (Result [] [] []) r'.
Proof.
  destruct invalid_input_handling as (H1 & H2 & H3 & H4 & H5).
  split; [exact unsupported_mode|].
  split; [exact (H1 0 (lit "ATG") [] [] (lit "unsupported") true (lit "5") 10
                    cycle_rng unsupported_mode)|].
  split; [reflexivity|].
  split; [exact (H2 [] [] [] (lit "replace") 1 10 (lit "5") cycle_rng
                    eq_refl)|].
  split; [exact (H3 0 [] [] (lit "single") true (lit "5") 10 cycle_rng
                    (or_introl eq_refl))|].
  assert (Hk : length (lit "ATG") < 5) by (simpl; lia).
  split; [exact Hk|].
  split; [exact (proj1 (H4 (lit "ATG") 5 Hk))|].
  refine (H5 (lit "ATG") [] [] (lit "replace") 5 10 (lit "5") cycle_rng _ Hk).
  discriminate.
Defined.

(** C5 as stated fails: on the empty sequence [process_sequence] returns
    three empty lists instead of failing, and with k = 5 on the three-letter
    sequence ATG the generator and the handler return empty lists instead of
    failing. *)
Lemma invalid_input_not_rejected :
  process_sequence 0 [] [] [] (lit "single") true (lit "5") 10 cycle_rng
    = Ok (Result [] [] []) cycle_rng /\
  process_sequence 0 [] [] [] (lit "single") true (lit "5") 10 cycle_rng
    <> Raise ValueError /\
  _replace_k_mutations (lit "ATG") 5 = [] /\
  value (run_block (lit "ATG") [] [] (lit "replace") 5 10 (lit "5") cycle_rng)
    = Some (Result [] [] []) /\
  run_block (lit "ATG") [] [] (lit "replace") 5 10 (lit "5") cycle_rng
    <> Raise ValueError.
Proof. repeat split; try reflexivity; discriminate. Qed.

(** ** Labels *)

Lemma label_nth (prefix : str) (n i : nat) :
  1 <= i <= n ->
  nth (i - 1) (map (fun j => prefix ++ dec (j + 1)) (range n)) []
  = prefix ++ dec i.
Proof.
  intros H.
  rewrite (nth_indep _ [] ((fun j => prefix ++ dec (j + 1)) 0))
    by (rewrite length_map, range_length; lia).
  rewrite (map_nth (fun j => prefix ++ dec (j + 1))).
  unfold range. rewrite seq_nth by lia. f_equal. f_equal. lia.
Qed.

(** C9, as the code has it.  The label at 1-based index [i] is the mutation
    type, an underscore and [i]; in the form handler it is the mutation type,
    [_k], [count], an underscore and [i].  For the sequence ATG in the mode
    single with the primers X and Y there are nine entries, the first full
    sequence is XTTGY and the first label is single_1. *)
Theorem labels_spec :
  (forall fuel seq primer_f primer_r mut_type keep_length delete_fill_side
          sample_size r res r' i,
      process_sequence fuel seq primer_f primer_r mut_type keep_length
                       delete_fill_side sample_size r = Ok res r' ->
      1 <= i <= length (sequences res) ->
      nth (i - 1) (report res) [] = mut_type ++ lit "_" ++ dec i) /\
  (forall seq_text primer_f primer_r mut_type count sample_size
          fill_side_choice r res r' i,
      run_block seq_text primer_f primer_r mut_type count sample_size
                fill_side_choice r = Ok res r' ->
      1 <= i <= length (sequences res) ->
      nth (i - 1) (report res) []
      = mut_type ++ lit "_k" ++ dec count ++ lit "_" ++ dec i) /\
  (forall fuel keep_length delete_fill_side sample_size r,
      exists res,
        process_sequence fuel (lit "ATG") (lit "X") (lit "Y") (lit "single")
                         keep_length delete_fill_side sample_size r
        = Ok res r /\
        length (sequences res) = 9 /\
        nth 0 (sequences res) [] = lit "XTTGY" /\
        nth 0 (report res) [] = lit "single_1").
Proof.
  split; [|split].
  - intros fuel seq primer_f primer_r mut_type keep_length delete_fill_side
           sample_size r res r' i E Hi.
    apply process_sequence_inv in E. destruct E as [Es Er].
    rewrite Es, length_map in Hi. rewrite Er.
    replace (mut_type ++ lit "_" ++ dec i)
      with ((mut_type ++ lit "_") ++ dec i) by (now rewrite <- app_assoc).
    rewrite <- (label_nth (mut_type ++ lit "_") Hi).
    f_equal. apply map_ext. intros j. now rewrite <- app_assoc.
  - intros seq_text primer_f primer_r mut_type count sample_size
           fill_side_choice r res r' i E Hi.
    apply run_block_inv in E. destruct E as [Es Er].
    rewrite Es, length_map in Hi. rewrite Er.
    replace (mut_type ++ lit "_k" ++ dec count ++ lit "_" ++ dec i)
      with ((mut_type ++ lit "_k" ++ dec count ++ lit "_") ++ dec i)
      by (now rewrite <- !app_assoc).
    rewrite <- (label_nth (mut_type ++ lit "_k" ++ dec count ++ lit "_") Hi).
    f_equal. apply map_ext. intros j. now rewrite <- !app_assoc.
  - intros fuel keep_length delete_fill_side sample_size r.
    eexists. split; [reflexivity|]. repeat split.
Qed.

Lemma labels_spec_witness :
  (exists res r',
      process_sequence 0 (lit "ATG") (lit "X") (lit "Y") (lit "single") true
                       (lit "5") 10 cycle_rng = Ok res r' /\
      1 <= 9 <= length (sequences res) /\
      nth (9 - 1) (report res) [] = lit "single_9") /\
  (exists res r',
      run_block (lit "ATG") (lit "X") (lit "Y") (lit "replace") 2 100
                (lit "5") cycle_rng = Ok res r' /\
      1 <= 27 <= length (sequences res) /\
      nth (27 - 1) (report res) [] = lit "replace_k2_27").
Proof.
  destruct labels_spec as (H1 & H2 & _). split.
  - eexists _, _. split; [reflexivity|].
    assert (Hi : 1 <= 9 <= 9) by lia.
    split; [exact Hi|].
    exact (H1 0 (lit "ATG") (lit "X") (lit "Y") (lit "single") true (lit "5")
              10 cycle_rng _ _ 9 eq_refl Hi).
  - eexists _, _. split; [reflexivity|].
    assert (Hi : 1 <= 27 <= 27) by lia.
    split; [exact Hi|].
    exact (H2 (lit "ATG") (lit "X") (lit "Y") (lit "replace") 2 100 (lit "5")
              cycle_rng _ _ 27 eq_refl Hi).
Defined.

(** C9 as stated fails on its example: for ATG in the mode single with the
    primers X and Y the first label is single_1, not single_sub_1, and
    single_sub is not a mutation type of [process_sequence]. *)
Lemma label_single_sub_mismatch :
  option_map (fun res => nth 0 (report res) [])
    (value (process_sequence 0 (lit "ATG") (lit "X") (lit "Y") (lit "single")
                             true (lit "5") 10 cycle_rng))
    = Some (lit "single_1") /\
  lit "single_1" <> lit "single_sub_1" /\
  process_sequence 0 (lit "ATG") (lit "X") (lit "Y") (lit "single_sub") true
                   (lit "5") 10 cycle_rng = Raise ValueError.
Proof. repeat split; try reflexivity; discriminate. Qed.

(** * Further properties of the generators *)

(** ** The fixed-k generators against the k-exhaustive ones *)

Lemma flat_map_ext_in (A B : Type) (f g : A -> list B) (l : list A) :
  (forall x, In x l -> f x = g x) -> flat_map f l = flat_map g l.
Proof.
  induction l as [|x l IH]; simpl; intros H; [reflexivity|].
  rewrite H, IH by auto. reflexivity.
Qed.

Lemma flat_map_of_map (A B C : Type) (g : A -> B) (f : B -> list C) (l : list A) :
  flat_map f (map g l) = flat_map (fun x => f (g x)) l.
Proof.
  induction l as [|x l IH]; simpl; [reflexivity|]. now rewrite IH.
Qed.

Lemma map_of_flat_map (A B C : Type) (f : A -> list B) (g : B -> C) (l : list A) :
  map g (flat_map f l) = flat_map (fun x => map g (f x)) l.
Proof.
  induction l as [|x l IH]; simpl; [reflexivity|].
  now rewrite map_app, IH.
Qed.

Lemma flat_map_singleton (A B : Type) (g : A -> B) (l : list A) :
  flat_map (fun x => [g x]) l = map g l.
Proof.
  induction l as [|x l IH]; simpl; [reflexivity|]. now rewrite IH.
Qed.

Lemma combinations_1 (A : Type) (l : list A) :
  combinations l 1 = map (fun x => [x]) l.
Proof.
  induction l as [|x l IH]; simpl; [reflexivity|].
  rewrite IH. now destruct l.
Qed.

Lemma product_1 (A : Type) (c : list A) : product [c] = map (fun x => [x]) c.
Proof. simpl. apply flat_map_singleton. Qed.

Lemma enumerate_range (s : str) :
  enumerate s = map (fun i => (i, char_at s i)) (range (length s)).
Proof.
  apply (nth_ext _ _ (0, "000"%char) (0, "000"%char)).
  - unfold enumerate. rewrite length_combine, length_map, range_length. lia.
  - intros i Hi. unfold enumerate in Hi.
    rewrite length_combine, range_length, Nat.min_id in Hi.
    rewrite enumerate_nth by assumption.
    rewrite (nth_indep _ _ ((fun i => (i, char_at s i)) 0))
      by (now rewrite length_map, range_length).
    rewrite (map_nth (fun i => (i, char_at s i))).
    unfold range. now rewrite seq_nth.
Qed.

Lemma single_mutations_eq (seq : str) :
  single_mutations seq = _replace_k_mutations seq 1.
Proof.
  unfold single_mutations, _replace_k_mutations.
  rewrite enumerate_range, combinations_1, !flat_map_of_map.
  apply flat_map_ext_in. intros i Hi. apply range_In in Hi.
  cbn [map]. rewrite product_1, map_map.
  apply map_ext. intros b. now apply splice_list_set.
Qed.

(** X1.  [single_mutations] is the k-exhaustive substitution generator of the
    form handler at k = 1: the same strings in the same order. *)
Theorem single_mutations_is_replace_1 (seq : str) :
  single_mutations seq = _replace_k_mutations seq 1.
Proof. apply single_mutations_eq. Qed.

Lemma list_set_app_r (A : Type) (l1 l2 : list A) p x :
  length l1 <= p ->
  list_set (l1 ++ l2) p x = l1 ++ list_set l2 (p - length l1) x.
Proof.
  revert p. induction l1 as [|y l1 IH]; intros p H; simpl in *.
  - now rewrite Nat.sub_0_r.
  - destruct p as [|p]; [lia|]. simpl. f_equal. apply IH. lia.
Qed.

Lemma double_splice (s : str) i j x y :
  i < j -> j < length s ->
  firstn i s ++ x :: firstn (j - (i + 1)) (skipn (i + 1) s) ++ y ::
    skipn (j + 1) s
  = list_set (list_set s i x) j y.
Proof.
  intros Hij Hj.
  rewrite <- (splice_list_set s x) by lia.
  rewrite list_set_app_r by (rewrite length_firstn; lia).
  rewrite length_firstn, Nat.min_l by lia. f_equal.
  replace (j - i) with (S (j - (i + 1))) by lia. cbn [list_set]. f_equal.
  rewrite <- splice_list_set by (rewrite length_skipn; lia).
  f_equal. f_equal. rewrite skipn_skipn. f_equal. lia.
Qed.

Lemma double_mutations_eq (seq : str) :
  double_mutations seq = _replace_k_mutations seq 2.
Proof.
  unfold double_mutations, _replace_k_mutations.
  apply flat_map_ext_in. intros ij Hij. apply combinations_In in Hij.
  destruct Hij as [Hs Hl].
  destruct ij as [|i [|j [|? ?]]]; try discriminate.
  apply subseq_pair_range in Hs. cbn [map product].
  rewrite map_of_flat_map. apply flat_map_ext_in. intros x _.
  rewrite flat_map_singleton, !map_map.
  apply map_ext. intros y. apply double_splice; lia.
Qed.

(** X2.  [double_mutations] is the k-exhaustive substitution generator of the
    form handler at k = 2: the same strings in the same order. *)
Theorem double_mutations_is_replace_2 (seq : str) :
  double_mutations seq = _replace_k_mutations seq 2.
Proof. apply double_mutations_eq. Qed.

(** X3.  [double_mutations] returns pairwise distinct strings, each differing
    from the sequence at exactly two positions; for a sequence over
    A, T, C, G there are 9*C(L,2) of them, that is 9*L*(L-1)/2, and they are
    exactly the strings over the alphabet at distance two. *)
Theorem double_mutations_spec (seq : str) :
  NoDup (double_mutations seq) /\
  Forall (differs_at_exactly 2 seq) (double_mutations seq) /\
  (over_bases seq ->
   length (double_mutations seq) = 9 * binom (length seq) 2 /\
   2 * length (double_mutations seq) = 9 * (length seq * (length seq - 1)) /\
   forall m, In m (double_mutations seq) <->
             differs_at_exactly 2 seq m /\ over_bases m).
Proof.
  rewrite double_mutations_eq. split; [|split].
  - apply replace_k_NoDup.
  - apply replace_k_differs. auto.
  - intros Hs.
    assert (Hlen : length (_replace_k_mutations seq 2)
                   = 9 * binom (length seq) 2).
    { rewrite replace_k_length by assumption. reflexivity. }
    split; [exact Hlen|]. split.
    + rewrite Hlen. pose proof (binom_2 (length seq)). lia.
    + intros m. now apply replace_k_over_bases.
Qed.

Lemma double_mutations_spec_witness :
  over_bases (lit "ATG") /\
  length (double_mutations (lit "ATG")) = 27.
Proof.
  split; [exact over_bases_ATG|].
  exact (proj1 (proj2 (proj2 (double_mutations_spec (lit "ATG")))
                  over_bases_ATG)).
Defined.

Lemma combinations_0 (A : Type) (l : list A) : combinations l 0 = [[]].
Proof. destruct l; reflexivity. Qed.

Lemma replace_k_zero (seq : str) : _replace_k_mutations seq 0 = [seq].
Proof. unfold _replace_k_mutations. now rewrite combinations_0. Qed.

(** X4.  For every k the k-exhaustive substitution generator returns
    pairwise distinct strings, namely the strings that differ from the
    sequence at exactly k positions and carry a letter of A, T, C, G at each
    of them.  With k = 0 it returns the sequence itself; for a sequence over
    the alphabet it returns 3^k * C(L,k) strings. *)
Theorem replace_k_mutations_spec (seq : str) (k : nat) :
  NoDup (_replace_k_mutations seq k) /\
  (forall m, In m (_replace_k_mutations seq k) <->
             differs_at_exactly k seq m /\
             forall j, In j (diff_positions seq m) -> In (char_at m j) BASES) /\
  _replace_k_mutations seq 0 = [seq] /\
  (over_bases seq ->
   length (_replace_k_mutations seq k) = 3 ^ k * binom (length seq) k).
Proof.
  split; [apply replace_k_NoDup|]. split; [apply replace_k_In|].
  split; [apply replace_k_zero|]. apply replace_k_length.
Qed.

Lemma replace_k_mutations_spec_witness :
  over_bases (lit "ATG") /\
  length (_replace_k_mutations (lit "ATG") 2) = 3 ^ 2 * binom 3 2.
Proof.
  split; [exact over_bases_ATG|].
  exact (proj2 (proj2 (proj2 (replace_k_mutations_spec (lit "ATG") 2)))
           over_bases_ATG).
Defined.

(** ** Deletions *)

Lemma sorted_pair (i j : nat) : i < j -> sorted [i; j] = [i; j].
Proof.
  intros H. simpl. destruct (Nat.leb_spec i j); [reflexivity | lia].
Qed.

Lemma del2_splice (s : str) i j :
  i < j -> j < length s ->
  list_del (list_del s j) i =
  firstn i s ++ firstn (j - (i + 1)) (skipn (i + 1) s) ++ skipn (j + 1) s.
Proof.
  intros Hij Hj. unfold list_del.
  rewrite firstn_app, skipn_app, firstn_firstn, !length_firstn.
  rewrite (Nat.min_l i j), (Nat.min_l j (length s)) by lia.
  replace (i - j) with 0 by lia. replace (S i - j) with 0 by lia.
  rewrite firstn_O, skipn_O, app_nil_r, skipn_firstn_comm.
  replace (S i) with (i + 1) by lia. replace (S j) with (j + 1) by lia.
  reflexivity.
Qed.

Lemma del1_eq (seq : str) : del1 seq = _delete_k_mutations seq 1.
Proof.
  unfold del1, _delete_k_mutations.
  rewrite combinations_1, map_map. apply map_ext. intros i.
  cbn. unfold list_del. now rewrite Nat.add_1_r.
Qed.

Lemma del2_eq (seq : str) : del2 seq = _delete_k_mutations seq 2.
Proof.
  unfold del2, _delete_k_mutations.
  rewrite <- flat_map_singleton. apply flat_map_ext_in.
  intros ij Hij. apply combinations_In in Hij. destruct Hij as [Hs Hl].
  destruct ij as [|i [|j [|? ?]]]; try discriminate.
  apply subseq_pair_range in Hs.
  rewrite sorted_pair by lia. cbn [rev app fold_left].
  now rewrite del2_splice by lia.
Qed.

(** X5.  [del1] and [del2] are the k-exhaustive deletion generator of the
    form handler at k = 1 and k = 2: the same strings in the same order. *)
Theorem del_is_delete_k (seq : str) :
  del1 seq = _delete_k_mutations seq 1 /\
  del2 seq = _delete_k_mutations seq 2.
Proof. split; [apply del1_eq | apply del2_eq]. Qed.

Lemma subseq_refl (A : Type) (l : list A) : subseq l l.
Proof. induction l; [constructor | now apply subseq_take]. Qed.

Lemma subseq_trans (A : Type) (l3 : list A) : forall l1 l2,
  subseq l1 l2 -> subseq l2 l3 -> subseq l1 l3.
Proof.
  induction l3 as [|z l3 IH]; intros l1 l2 H12 H23.
  - inversion H23; subst. assumption.
  - inversion H23; subst.
    + apply subseq_skip. eapply IH; eauto.
    + inversion H12; subst.
      * apply subseq_skip. eapply IH; eauto.
      * apply subseq_take. eapply IH; eauto.
Qed.

Lemma subseq_list_del (A : Type) (l : list A) : forall p,
  subseq (list_del l p) l.
Proof.
  unfold list_del. induction l as [|x l IH]; intros [|p]; simpl.
  - constructor.
  - constructor.
  - apply subseq_skip, subseq_refl.
  - apply subseq_take, IH.
Qed.

Lemma list_del_length (A : Type) (l : list A) p :
  p < length l -> length (list_del l p) = length l - 1.
Proof. apply remove_at_length. Qed.



Lemma StronglySorted_snoc (A : Type) (R : A -> A -> Prop) (l : list A) x :
  StronglySorted R l -> Forall (fun y => R y x) l ->
  StronglySorted R (l ++ [x]).
Proof.
  induction 1 as [|y l Hs IH Hy]; intros Hx; simpl.
  - repeat constructor.
  - inversion Hx; subst. constructor; [auto|].
    apply Forall_app. split; [assumption | repeat constructor; assumption].
Qed.

Lemma StronglySorted_rev (A : Type) (R : A -> A -> Prop) (l : list A) :
  StronglySorted R l -> StronglySorted (fun x y => R y x) (rev l).
Proof.
  induction 1 as [|x l Hs IH Hx]; simpl; [constructor|].
  apply StronglySorted_snoc; [assumption|].
  apply Forall_rev. assumption.
Qed.

(** Deleting at decreasing positions never shifts a position still to be
    deleted: every deletion removes one letter. *)
Lemma delete_descending (d : list nat) : forall s : str,
  StronglySorted (fun x y => y < x) d ->
  (forall p, In p d -> p < length s) ->
  length (fold_left (fun new_seq p => list_del new_seq p) d s)
    = length s - length d /\
  subseq (fold_left (fun new_seq p => list_del new_seq p) d s) s.
Proof.
  induction d as [|q d IH]; intros s Hs Hlt; simpl.
  - split; [lia | apply subseq_refl].
  - inversion Hs as [|? ? Hs' Hq]; subst. rewrite Forall_forall in Hq.
    assert (Hql : q < length s) by (apply Hlt; simpl; auto).
    destruct (IH (list_del s q) Hs') as [Hlen Hsub].
    { intros p Hp. rewrite list_del_length by assumption.
      specialize (Hq p Hp). lia. }
    split.
    + rewrite Hlen, list_del_length by assumption. lia.
    + eapply subseq_trans; [exact Hsub | apply subseq_list_del].
Qed.

Lemma delete_k_entry (seq : str) (pos : list nat) :
  subseq pos (range (length seq)) ->
  length (fold_left (fun new_seq p => list_del new_seq p)
                    (rev (sorted pos)) seq)
    = length seq - length pos /\
  subseq (fold_left (fun new_seq p => list_del new_seq p)
                    (rev (sorted pos)) seq) seq.
Proof.
  intros Hs. pose proof (@subseq_seq_sorted _ _ _ Hs) as Hlt.
  rewrite sorted_id.
  - rewrite <- (length_rev pos). apply delete_descending.
    + now apply (StronglySorted_rev (R := lt)).
    + intros p Hp. apply in_rev in Hp. eapply subseq_range_lt; eauto.
  - clear Hs. induction Hlt as [|x l Hl IH Hx]; constructor; auto.
    eapply Forall_impl; [|exact Hx]. simpl. intros; lia.
Qed.

(** X6.  The k-exhaustive deletion generator returns C(L,k) strings, each of
    length L - k and each obtained from the sequence by dropping letters;
    with k = 0 it returns the sequence itself. *)
Theorem delete_k_mutations_spec (seq : str) (k : nat) :
  length (_delete_k_mutations seq k) = binom (length seq) k /\
  (forall c, In c (_delete_k_mutations seq k) ->
             length c = length seq - k /\ subseq c seq) /\
  _delete_k_mutations seq 0 = [seq].
Proof.
  unfold _delete_k_mutations. split; [|split].
  - now rewrite length_map, combinations_length, range_length.
  - intros c Hc. apply in_map_iff in Hc. destruct Hc as (pos & <- & Hpos).
    apply combinations_In in Hpos. destruct Hpos as [Hs <-].
    now apply delete_k_entry.
  - now rewrite combinations_0.
Qed.

Lemma delete_k_mutations_spec_witness :
  In (lit "AGC") (_delete_k_mutations (lit "ATGC") 1) /\
  length (lit "AGC") = length (lit "ATGC") - 1 /\
  subseq (lit "AGC") (lit "ATGC").
Proof.
  assert (H : In (lit "AGC") (_delete_k_mutations (lit "ATGC") 1))
    by (right; left; reflexivity).
  split; [exact H|].
  exact (proj1 (proj2 (delete_k_mutations_spec (lit "ATGC") 1)) _ H).
Defined.

Lemma delete_k_facts (seq : str) (k : nat) :
  length (_delete_k_mutations seq k) = binom (length seq) k /\
  forall c, In c (_delete_k_mutations seq k) ->
            length c = length seq - k /\ subseq c seq.
Proof.
  unfold _delete_k_mutations. split.
  - now rewrite length_map, combinations_length, range_length.
  - intros c Hc. apply in_map_iff in Hc. destruct Hc as (pos & <- & Hpos).
    apply combinations_In in Hpos. destruct Hpos as [Hs <-].
    now apply delete_k_entry.
Qed.

(** X7.  [del1] returns L strings of length L - 1, [del2] returns C(L,2),
    that is L*(L-1)/2, strings of length L - 2; every one of them is the
    sequence with letters dropped. *)
Theorem del1_del2_spec (seq : str) :
  length (del1 seq) = length seq /\
  (forall c, In c (del1 seq) -> length c = length seq - 1 /\ subseq c seq) /\
  2 * length (del2 seq) = length seq * (length seq - 1) /\
  (forall c, In c (del2 seq) -> length c = length seq - 2 /\ subseq c seq).
Proof.
  rewrite del1_eq, del2_eq.
  destruct (delete_k_facts seq 1) as [H1 H1'].
  destruct (delete_k_facts seq 2) as [H2 H2'].
  rewrite H1, H2, binom_1, binom_2. auto.
Qed.

Lemma del1_del2_spec_witness :
  In (lit "AC") (del2 (lit "ATGC")) /\
  length (lit "AC") = length (lit "ATGC") - 2 /\
  subseq (lit "AC") (lit "ATGC").
Proof.
  assert (H : In (lit "AC") (del2 (lit "ATGC")))
    by (right; right; right; left; reflexivity).
  split; [exact H|].
  exact (proj2 (proj2 (proj2 (del1_del2_spec (lit "ATGC")))) _ H).
Defined.

(** ** Length compensation, in full *)

Lemma choices_cursor (A : Type) (xs : list A) (k : nat) : forall r res r',
  choices xs k r = Ok res r' ->
  length res = k /\ Forall (fun x => In x xs) res /\
  r' = Rng (tape r) (cursor r + k).
Proof.
  induction k as [|k IH]; intros r res r' E.
  - injection E as <- <-. repeat split; [constructor|].
    destruct r; simpl. now rewrite Nat.add_0_r.
  - simpl choices in E. apply bind_inv in E.
    destruct E as (x & r1 & Ex & E). apply bind_inv in E.
    destruct E as (rest & r2 & Er & E). injection E as <- <-.
    destruct xs as [|x0 xs]; [discriminate|].
    destruct (@choice_Ok _ (x0 :: xs) r) as (x' & Hx & Ex'); [discriminate|].
    rewrite Ex in Ex'. injection Ex' as -> ->.
    apply IH in Er. destruct Er as (Hl & Hall & ->). simpl.
    repeat split; [now rewrite Hl | now constructor |].
    f_equal. lia.
Qed.

(** [process_sequence] in the modes del1 and del2 with [keep_length]. *)
Lemma process_sequence_del_unfold fuel seq primer_f primer_r mut_type
    delete_fill_side sample_size r :
  mut_type = lit "del1" \/ mut_type = lit "del2" ->
  process_sequence fuel seq primer_f primer_r mut_type true delete_fill_side
                   sample_size r =
  match del_core mut_type (upper seq) with
  | [] => Raise IndexError
  | c0 :: _ =>
      match choices BASES (abs_diff (length c0) (length (upper seq))) r with
      | Ok fill_seq r' =>
          Ok (assemble (upper primer_f) (upper primer_r) mut_type
                (map (pad delete_fill_side fill_seq)
                     (del_core mut_type (upper seq)))) r'
      | Raise e => Raise e
      | OutOfFuel => OutOfFuel
      end
  end.
Proof.
  intros [-> | ->]; unfold process_sequence, del_core, pad.
  - change (str_eqb (lit "del1") (lit "single")) with false.
    change (str_eqb (lit "del1") (lit "double")) with false.
    change (str_eqb (lit "del1") (lit "triple")) with false.
    change (str_eqb (lit "del1") (lit "del1")) with true.
    change (is_del_type (lit "del1") && true) with true.
    cbv iota. unfold bind at 1 2. unfold ret at 1.
    destruct (del1 (upper seq)) as [|c0 rest]; [reflexivity|].
    unfold bind.
    destruct (choices BASES (abs_diff (length c0) (length (upper seq))) r);
      try reflexivity.
    destruct (str_eqb delete_fill_side (lit "5")); reflexivity.
  - change (str_eqb (lit "del2") (lit "single")) with false.
    change (str_eqb (lit "del2") (lit "double")) with false.
    change (str_eqb (lit "del2") (lit "triple")) with false.
    change (str_eqb (lit "del2") (lit "del1")) with false.
    change (str_eqb (lit "del2") (lit "del2")) with true.
    change (is_del_type (lit "del2") && true) with true.
    cbv iota. unfold bind at 1 2. unfold ret at 1.
    destruct (del2 (upper seq)) as [|c0 rest]; [reflexivity|].
    unfold bind.
    destruct (choices BASES (abs_diff (length c0) (length (upper seq))) r);
      try reflexivity.
    destruct (str_eqb delete_fill_side (lit "5")); reflexivity.
Qed.

Lemma del_core_facts (mut_type seq : str) :
  mut_type = lit "del1" \/ mut_type = lit "del2" ->
  length (del_core mut_type seq) = binom (length seq) (del_count mut_type) /\
  forall c, In c (del_core mut_type seq) ->
            length c = length seq - del_count mut_type /\ subseq c seq.
Proof.
  intros [-> | ->]; unfold del_core, del_count.
  - change (str_eqb (lit "del1") (lit "del1")) with true. cbv iota.
    rewrite del1_eq. apply delete_k_facts.
  - change (str_eqb (lit "del2") (lit "del1")) with false. cbv iota.
    rewrite del2_eq. apply delete_k_facts.
Qed.

(** Uppercasing keeps ASCII text ASCII. *)
Lemma upper_ascii_text (s : str) : ascii_text s -> ascii_text (upper s).
Proof.
  unfold ascii_text, upper. intros H. apply Forall_forall. intros c Hc.
  apply in_map_iff in Hc. destruct Hc as (c0 & <- & Hc0).
  rewrite Forall_forall in H. specialize (H c0 Hc0). revert H.
  destruct c0 as [[] [] [] [] [] [] [] []]; vm_compute; lia.
Qed.

Lemma ascii_text_check (s : str) : ascii_textb s = true -> ascii_text s.
Proof.
  unfold ascii_textb, ascii_text. rewrite forallb_forall, Forall_forall.
  intros H c Hc. apply Nat.ltb_lt. now apply H.
Qed.

(** X8.  On ASCII text, in the modes del1 and del2 with [keep_length],
    [process_sequence] raises IndexError exactly when the sequence has fewer
    letters than the mode deletes (the empty sequence for del1, fewer than
    two letters for del2); on every longer sequence it returns. *)
Theorem process_sequence_index_error fuel seq primer_f primer_r mut_type
    delete_fill_side sample_size r :
  ascii_text seq ->
  mut_type = lit "del1" \/ mut_type = lit "del2" ->
  (length seq < del_count mut_type <->
   process_sequence fuel seq primer_f primer_r mut_type true delete_fill_side
                    sample_size r = Raise IndexError) /\
  (del_count mut_type <= length seq <->
   exists res r',
     process_sequence fuel seq primer_f primer_r mut_type true
                      delete_fill_side sample_size r = Ok res r').
Proof.
  intros _ Hm. rewrite (process_sequence_del_unfold _ _ _ _ _ _ _ Hm).
  destruct (del_core_facts (upper seq) Hm) as [Hlen Hin].
  rewrite upper_length in Hlen.
  assert (Hk : 1 <= del_count mut_type)
    by (destruct Hm as [-> | ->]; unfold del_count; simpl; lia).
  destruct (del_core mut_type (upper seq)) as [|c0 rest] eqn:Ed.
  - simpl in Hlen.
    assert (Hlt : length seq < del_count mut_type).
    { destruct (Nat.le_gt_cases (del_count mut_type) (length seq)) as [Hge|];
        [|assumption].
      pose proof (binom_pos Hge). lia. }
    split; split; intros H; auto; try lia.
    destruct H as (res & r' & H). discriminate.
  - assert (Hge : del_count mut_type <= length seq).
    { destruct (Nat.le_gt_cases (del_count mut_type) (length seq)) as [|Hlt];
        [assumption|].
      rewrite (binom_gt Hlt) in Hlen. simpl in Hlen. lia. }
    destruct (@choices_Ok _ BASES (abs_diff (length c0) (length (upper seq))) r)
      as (fill & r' & E & _); [discriminate|]. rewrite E.
    split; split; intros H; auto; try lia; try discriminate.
    eauto.
Qed.

Lemma process_sequence_index_error_witness :
  ascii_text (lit "g") /\
  (lit "del2" = lit "del1" \/ lit "del2" = lit "del2") /\
  length (lit "g") < del_count (lit "del2") /\
  process_sequence 0 (lit "g") (lit "X") (lit "Y") (lit "del2") true (lit "3")
                   10 cycle_rng = Raise IndexError.
Proof.
  assert (Hm : lit "del2" = lit "del1" \/ lit "del2" = lit "del2")
    by (right; reflexivity).
  assert (Hl : length (lit "g") < del_count (lit "del2"))
    by (vm_compute; lia).
  assert (Ha : ascii_text (lit "g")) by (now apply ascii_text_check).
  split; [exact Ha|]. split; [exact Hm|]. split; [exact Hl|].
  exact (proj1 (proj1 (@process_sequence_index_error 0 (lit "g") (lit "X")
                         (lit "Y") (lit "del2") (lit "3") 10 cycle_rng Ha Hm))
           Hl).
Defined.

(** X9.  On ASCII text, in the modes del1 and del2 with [keep_length], on a
    sequence long enough, [process_sequence] draws one fill string of as many letters of
    A, T, C, G as the mode deletes, reading that many raw draws and no more;
    it puts the fill in front of every deletion variant when the fill side is
    "5" and behind it for any other fill side; every core variant then has
    the length of the sequence, and the full sequences are the core variants
    between the uppercased primers. *)
Theorem keep_length_padding fuel seq primer_f primer_r mut_type
    delete_fill_side sample_size r :
  ascii_text seq -> ascii_text primer_f -> ascii_text primer_r ->
  mut_type = lit "del1" \/ mut_type = lit "del2" ->
  del_count mut_type <= length seq ->
  exists fill_seq res,
    process_sequence fuel seq primer_f primer_r mut_type true delete_fill_side
                     sample_size r
    = Ok res (Rng (tape r) (cursor r + del_count mut_type)) /\
    length fill_seq = del_count mut_type /\
    over_bases fill_seq /\
    core_only res =
      map (fun c => if str_eqb delete_fill_side (lit "5")
                    then fill_seq ++ c else c ++ fill_seq)
          (del_core mut_type (upper seq)) /\
    Forall (fun c => length c = length seq) (core_only res) /\
    sequences res =
      map (fun c => upper primer_f ++ c ++ upper primer_r) (core_only res).
Proof.
  intros _ _ _ Hm Hge. rewrite (process_sequence_del_unfold _ _ _ _ _ _ _ Hm).
  destruct (del_core_facts (upper seq) Hm) as [Hlen Hin].
  rewrite upper_length in Hlen, Hin.
  destruct (del_core mut_type (upper seq)) as [|c0 rest] eqn:Ed.
  { pose proof (binom_pos Hge). simpl in Hlen. lia. }
  assert (Hd : abs_diff (length c0) (length (upper seq)) = del_count mut_type).
  { unfold abs_diff. rewrite upper_length.
    rewrite (proj1 (Hin c0 (or_introl eq_refl))). lia. }
  rewrite Hd.
  destruct (@choices_Ok _ BASES (del_count mut_type) r)
    as (fill & r' & E & _); [discriminate|].
  rewrite E. apply choices_cursor in E. destruct E as (Hl & Hall & ->).
  exists fill. eexists. split; [reflexivity|].
  cbn [assemble core_only sequences]. repeat split; auto.
  apply Forall_forall. intros c Hc. apply in_map_iff in Hc.
  destruct Hc as (c' & <- & Hc'). apply Hin in Hc'. destruct Hc' as [Hc' _].
  unfold pad. destruct (str_eqb delete_fill_side (lit "5"));
    rewrite length_app; lia.
Qed.

Lemma keep_length_padding_witness :
  ascii_text (lit "atgc") /\ ascii_text (lit "x") /\ ascii_text (lit "y") /\
  (lit "del2" = lit "del1" \/ lit "del2" = lit "del2") /\
  del_count (lit "del2") <= length (lit "atgc") /\
  exists (fill_seq : str) res,
    process_sequence 0 (lit "atgc") (lit "x") (lit "y") (lit "del2") true
                     (lit "3") 10 cycle_rng
    = Ok res (Rng (tape cycle_rng) (cursor cycle_rng + del_count (lit "del2")))
    /\ length fill_seq = del_count (lit "del2") /\
    Forall (fun c => length c = length (lit "atgc")) (core_only res).
Proof.
  assert (Hm : lit "del2" = lit "del1" \/ lit "del2" = lit "del2")
    by (right; reflexivity).
  assert (Hl : del_count (lit "del2") <= length (lit "atgc"))
    by (vm_compute; lia).
  assert (Ha : ascii_text (lit "atgc")) by (now apply ascii_text_check).
  assert (Hx : ascii_text (lit "x")) by (now apply ascii_text_check).
  assert (Hy : ascii_text (lit "y")) by (now apply ascii_text_check).
  split; [exact Ha|]. split; [exact Hx|]. split; [exact Hy|].
  split; [exact Hm|]. split; [exact Hl|].
  destruct (@keep_length_padding 0 (lit "atgc") (lit "x") (lit "y")
              (lit "del2") (lit "3") 10 cycle_rng Ha Hx Hy Hm Hl)
    as (fill & res & E & Hf & _ & _ & Hall & _).
  exists fill, res. split; [exact E|]. split; [exact Hf | exact Hall].
Defined.

(** ** Letter case *)

Lemma upper_fixed_upper (s : str) : upper_fixed (upper s).
Proof.
  unfold upper_fixed, upper. apply Forall_forall. intros c Hc.
  apply in_map_iff in Hc. destruct Hc as (c' & <- & _).
  apply upper_char_idem.
Qed.

Lemma upper_fixed_eq (s : str) : upper_fixed s <-> upper s = s.
Proof.
  unfold upper_fixed, upper. induction s as [|c s IH]; simpl.
  - split; [reflexivity | constructor].
  - split.
    + intros H. inversion H; subst. f_equal; [assumption | now apply IH].
    + intros H. injection H as Hc Hs. constructor; [assumption | now apply IH].
Qed.

Lemma upper_fixed_app (a b : str) :
  upper_fixed a -> upper_fixed b -> upper_fixed (a ++ b).
Proof. intros Ha Hb. apply Forall_app. now split. Qed.

Lemma bases_upper (b : ascii) : In b BASES -> upper_char b = b.
Proof. simpl. intros [<-|[<-|[<-|[<-|[]]]]]; reflexivity. Qed.

Lemma over_bases_upper_fixed (s : str) : over_bases s -> upper_fixed s.
Proof.
  unfold over_bases, upper_fixed. intros H.
  eapply Forall_impl; [|exact H]. apply bases_upper.
Qed.

Lemma subseq_Forall (A : Type) (P : A -> Prop) (c l : list A) :
  subseq c l -> Forall P l -> Forall P c.
Proof.
  intros Hs Hl. rewrite Forall_forall in *. intros x Hx.
  apply Hl. eapply subseq_In; eauto.
Qed.

(** Every letter of a substitution variant is a letter of the sequence or a
    letter of the alphabet. *)
Lemma replace_k_letters (P : ascii -> Prop) (s : str) k m :
  Forall P s -> (forall b, In b BASES -> P b) ->
  In m (_replace_k_mutations s k) -> Forall P m.
Proof.
  intros Hs Hb Hm. apply replace_k_In in Hm. destruct Hm as [[Hlen _] Hd].
  apply Forall_forall. intros c Hc.
  apply (In_nth _ _ "000"%char) in Hc. destruct Hc as (j & Hj & <-).
  rewrite Hlen in Hj.
  destruct (in_dec Nat.eq_dec j (diff_positions s m)) as [Hin|Hout].
  - apply Hb. now apply Hd.
  - destruct (Ascii.eqb (char_at s j) (char_at m j)) eqn:E.
    + apply Ascii.eqb_eq in E. change (P (char_at m j)). rewrite <- E.
      rewrite Forall_forall in Hs. apply Hs. now apply nth_In.
    + exfalso. apply Hout. apply filter_In.
      split; [now apply range_In | now rewrite E].
Qed.

Lemma first_core_upper_fixed fuel seq mut_type sample_size r core r' :
  (if str_eqb mut_type (lit "single") then ret (single_mutations (upper seq))
   else if str_eqb mut_type (lit "double") then
          ret (double_mutations (upper seq))
   else if str_eqb mut_type (lit "triple") then
          triple_mutations_sampled fuel (upper seq) sample_size
   else if str_eqb mut_type (lit "del1") then ret (del1 (upper seq))
   else if str_eqb mut_type (lit "del2") then ret (del2 (upper seq))
   else raise ValueError) r = Ok core r' ->
  Forall upper_fixed core.
Proof.
  pose proof (upper_fixed_upper seq) as Hu.
  intros E. apply Forall_forall. intros m Hm.
  destruct (str_eqb mut_type (lit "single")).
  { injection E as <- _. rewrite single_mutations_eq in Hm.
    eapply replace_k_letters; eauto. apply bases_upper. }
  destruct (str_eqb mut_type (lit "double")).
  { injection E as <- _. rewrite double_mutations_eq in Hm.
    eapply replace_k_letters; eauto. apply bases_upper. }
  destruct (str_eqb mut_type (lit "triple")).
  { apply triple_mutations_sampled_result in E. destruct E as (_ & _ & Hin).
    eapply replace_k_letters; eauto. apply bases_upper. }
  destruct (str_eqb mut_type (lit "del1")).
  { injection E as <- _. rewrite del1_eq in Hm.
    apply delete_k_facts in Hm. eapply subseq_Forall; [apply Hm | exact Hu]. }
  destruct (str_eqb mut_type (lit "del2")).
  { injection E as <- _. rewrite del2_eq in Hm.
    apply delete_k_facts in Hm. eapply subseq_Forall; [apply Hm | exact Hu]. }
  discriminate.
Qed.

(** X10.  On ASCII text, [process_sequence] sees its sequence and primers
    through their uppercase forms only: two calls whose sequences and primers
    agree up to the case of the letters a..z have the same outcome.  Every
    core variant and every full sequence it returns is in upper case. *)
Theorem process_sequence_case_normalized :
  (forall fuel seq1 seq2 f1 f2 r1 r2 mut_type keep_length delete_fill_side
          sample_size r,
      ascii_text seq1 -> ascii_text seq2 -> ascii_text f1 -> ascii_text f2 ->
      ascii_text r1 -> ascii_text r2 ->
      upper seq1 = upper seq2 -> upper f1 = upper f2 -> upper r1 = upper r2 ->
      process_sequence fuel seq1 f1 r1 mut_type keep_length delete_fill_side
                       sample_size r
      = process_sequence fuel seq2 f2 r2 mut_type keep_length delete_fill_side
                         sample_size r) /\
  (forall fuel seq primer_f primer_r mut_type keep_length delete_fill_side
          sample_size r res r',
      ascii_text seq -> ascii_text primer_f -> ascii_text primer_r ->
      process_sequence fuel seq primer_f primer_r mut_type keep_length
                       delete_fill_side sample_size r = Ok res r' ->
      Forall (fun c => upper c = c) (core_only res) /\
      Forall (fun s => upper s = s) (sequences res)).
Proof.
  split.
  - intros fuel seq1 seq2 f1 f2 r1 r2 mut_type keep_length delete_fill_side
           sample_size r _ _ _ _ _ _ Hs Hf Hr.
    unfold process_sequence. now rewrite Hs, Hf, Hr.
  - intros fuel seq primer_f primer_r mut_type keep_length delete_fill_side
           sample_size r res r' _ _ _ E.
    pose proof (process_sequence_inv _ _ _ _ _ _ _ _ _ E) as [Hseq _].
    assert (Hcore : Forall upper_fixed (core_only res)).
    { unfold process_sequence in E. apply bind_inv in E.
      destruct E as (core0 & r1 & E0 & E).
      apply first_core_upper_fixed in E0.
      apply bind_inv in E. destruct E as (core & r2 & E1 & E).
      injection E as <- _. cbn [core_only].
      destruct (is_del_type mut_type && keep_length).
      - destruct core0 as [|c0 rest]; [discriminate|].
        apply bind_inv in E1. destruct E1 as (fill & r3 & Ef & E1).
        apply choices_cursor in Ef. destruct Ef as (_ & Hfill & _).
        apply over_bases_upper_fixed in Hfill.
        rewrite Forall_forall in E0.
        destruct (str_eqb delete_fill_side (lit "5"));
          injection E1 as <- _; apply Forall_forall; intros c Hc;
          destruct Hc as [<-|Hc];
          try (apply in_map_iff in Hc; destruct Hc as (c' & <- & Hc'));
          apply upper_fixed_app; auto; apply E0; simpl; auto.
      - injection E1 as <- _. assumption. }
    split.
    + eapply Forall_impl; [|exact Hcore]. intros c. apply upper_fixed_eq.
    + rewrite Hseq. apply Forall_forall. intros s Hs.
      apply in_map_iff in Hs. destruct Hs as (c & <- & Hc).
      rewrite Forall_forall in Hcore. apply upper_fixed_eq.
      repeat apply upper_fixed_app; auto using upper_fixed_upper.
Qed.

Lemma process_sequence_case_normalized_witness :
  ascii_text (lit "atGc") /\ ascii_text (lit "ATGC") /\
  ascii_text (lit "aa") /\ ascii_text (lit "AA") /\
  ascii_text (lit "tt") /\ ascii_text (lit "Tt") /\
  upper (lit "atGc") = upper (lit "ATGC") /\
  upper (lit "aa") = upper (lit "AA") /\
  upper (lit "tt") = upper (lit "Tt") /\
  process_sequence 0 (lit "atGc") (lit "aa") (lit "tt") (lit "del2") true
                   (lit "5") 10 cycle_rng
  = process_sequence 0 (lit "ATGC") (lit "AA") (lit "Tt") (lit "del2") true
                     (lit "5") 10 cycle_rng /\
  exists res r',
    process_sequence 0 (lit "atGc") (lit "aa") (lit "tt") (lit "del2") true
                     (lit "5") 10 cycle_rng = Ok res r' /\
    Forall (fun c => upper c = c) (core_only res) /\
    Forall (fun s => upper s = s) (sequences res).
Proof.
  assert (H1 : upper (lit "atGc") = upper (lit "ATGC")) by reflexivity.
  assert (H2 : upper (lit "aa") = upper (lit "AA")) by reflexivity.
  assert (H3 : upper (lit "tt") = upper (lit "Tt")) by reflexivity.
  assert (A1 : ascii_text (lit "atGc")) by (now apply ascii_text_check).
  assert (A2 : ascii_text (lit "ATGC")) by (now apply ascii_text_check).
  assert (A3 : ascii_text (lit "aa")) by (now apply ascii_text_check).
  assert (A4 : ascii_text (lit "AA")) by (now apply ascii_text_check).
  assert (A5 : ascii_text (lit "tt")) by (now apply ascii_text_check).
  assert (A6 : ascii_text (lit "Tt")) by (now apply ascii_text_check).
  split; [exact A1|]. split; [exact A2|]. split; [exact A3|].
  split; [exact A4|]. split; [exact A5|]. split; [exact A6|].
  split; [exact H1|]. split; [exact H2|]. split; [exact H3|].
  split.
  - exact (proj1 process_sequence_case_normalized 0 (lit "atGc") (lit "ATGC")
             (lit "aa") (lit "AA") (lit "tt") (lit "Tt") (lit "del2") true
             (lit "5") 10 cycle_rng A1 A2 A3 A4 A5 A6 H1 H2 H3).
  - eexists. eexists. split; [reflexivity|].
    exact (proj2 process_sequence_case_normalized 0 (lit "atGc") (lit "aa")
             (lit "tt") (lit "del2") true (lit "5") 10 cycle_rng _ _
             A1 A3 A5 eq_refl).
Defined.

(** ** More on the sampling loop *)


(** X11.  [triple_mutations_sampled] never raises: although a draw of three
    positions is impossible on fewer than three letters, the loop is never
    entered then.  On a sequence shorter than three letters, and for a
    sample size of zero, it returns the empty list at once and draws
    nothing. *)
Theorem triple_mutations_sampled_safe :
  (forall fuel seq sample_size r e,
      triple_mutations_sampled fuel seq sample_size r <> Raise e) /\
  (forall fuel seq sample_size r,
      length seq < 3 \/ sample_size = 0 ->
      triple_mutations_sampled fuel seq sample_size r = Ok [] r).
Proof.
  split.
  - intros fuel seq sample_size r e. unfold triple_mutations_sampled.
    apply triple_loop_no_raise. intros H. apply triple_upper_pos. lia.
  - intros fuel seq sample_size r H. unfold triple_mutations_sampled.
    apply triple_loop_done. simpl.
    destruct H as [H| ->]; [|simpl; lia].
    rewrite triple_upper_binom, (binom_gt H). lia.
Qed.

Lemma triple_mutations_sampled_safe_witness :
  (length (lit "AT") < 3 \/ 7 = 0) /\
  triple_mutations_sampled 0 (lit "AT") 7 cycle_rng = Ok [] cycle_rng.
Proof.
  assert (H : length (lit "AT") < 3 \/ 7 = 0) by (left; simpl; lia).
  split; [exact H|].
  exact (proj2 triple_mutations_sampled_safe 0 (lit "AT") 7 cycle_rng H).
Defined.

(** X12.  When the requested sample size is at least 27*C(L,3),
    [triple_mutations_sampled] on a sequence over A, T, C, G returns, on
    every fair tape of raw draws, the whole exhaustive set of triple
    substitutions, each string once, in the order in which the draws met
    them. *)
Theorem triple_full_coverage (seq : str) (sample_size : nat) (r : rng) :
  over_bases seq -> 27 * binom (length seq) 3 <= sample_size ->
  fair_tape (Nat.max (length seq) 4) r ->
  exists fuel res r',
    (forall extra,
        triple_mutations_sampled (fuel + extra) seq sample_size r
        = Ok res r') /\
    Permutation res (_replace_k_mutations seq 3).
Proof.
  intros Hs Hn Hfair.
  destruct (@triple_mutations_sampled_returns seq sample_size r Hfair)
    as (fuel & res & r' & E).
  exists fuel, res, r'. split; [assumption|].
  destruct (triple_mutations_sampled_result _ _ _ _ (E 0))
    as (Hlen & Hnd & Hin).
  apply NoDup_Permutation_bis; auto.
  rewrite replace_k_length, Hlen by assumption.
  change (3 ^ 3) with 27. lia.
Qed.

Lemma triple_full_coverage_witness :
  over_bases (lit "ATGC") /\ 27 * binom (length (lit "ATGC")) 3 <= 120 /\
  fair_tape (Nat.max (length (lit "ATGC")) 4) (digit_rng 4) /\
  exists fuel res r',
    (forall extra,
        triple_mutations_sampled (fuel + extra) (lit "ATGC") 120 (digit_rng 4)
        = Ok res r') /\
    Permutation res (_replace_k_mutations (lit "ATGC") 3).
Proof.
  assert (Hn : 27 * binom (length (lit "ATGC")) 3 <= 120) by (vm_compute; lia).
  assert (Hf : fair_tape (Nat.max (length (lit "ATGC")) 4) (digit_rng 4))
    by (apply (@digit_rng_fair 4); lia).
  split; [exact over_bases_ATGC|]. split; [exact Hn|]. split; [exact Hf|].
  exact (@triple_full_coverage (lit "ATGC") 120 (digit_rng 4) over_bases_ATGC
           Hn Hf).
Defined.

Lemma process_sequence_triple_unfold fuel seq primer_f primer_r keep_length
    delete_fill_side sample_size r :
  process_sequence fuel seq primer_f primer_r (lit "triple") keep_length
                   delete_fill_side sample_size r =
  match triple_mutations_sampled fuel (upper seq) sample_size r with
  | Ok core_list r' =>
      Ok (assemble (upper primer_f) (upper primer_r) (lit "triple") core_list)
         r'
  | Raise e => Raise e
  | OutOfFuel => OutOfFuel
  end.
Proof.
  unfold process_sequence.
  change (str_eqb (lit "triple") (lit "single")) with false.
  change (str_eqb (lit "triple") (lit "double")) with false.
  change (str_eqb (lit "triple") (lit "triple")) with true.
  change (is_del_type (lit "triple") && keep_length) with false.
  cbv iota. unfold bind.
  destruct (triple_mutations_sampled fuel (upper seq) sample_size r);
    reflexivity.
Qed.

(** X13.  On ASCII text, in the mode triple, on every fair tape of raw
    draws, [process_sequence] returns min(sample_size, 27*C(L,3)) records
    whatever [keep_length] and the fill side are: the core variants are
    pairwise distinct and differ from the uppercased sequence at exactly
    three positions, and every full sequence is its core variant between the
    uppercased primers. *)
Theorem process_sequence_triple fuel0 seq primer_f primer_r keep_length
    delete_fill_side sample_size r :
  ascii_text seq -> ascii_text primer_f -> ascii_text primer_r ->
  fair_tape (Nat.max (length seq) 4) r ->
  exists fuel res r',
    fuel0 <= fuel /\
    process_sequence fuel seq primer_f primer_r (lit "triple") keep_length
                     delete_fill_side sample_size r = Ok res r' /\
    length (core_only res)
      = Nat.min sample_size (27 * binom (length seq) 3) /\
    NoDup (core_only res) /\
    Forall (differs_at_exactly 3 (upper seq)) (core_only res) /\
    sequences res =
      map (fun c => upper primer_f ++ c ++ upper primer_r) (core_only res) /\
    length (report res) = length (core_only res).
Proof.
  intros _ _ _ Hfair. rewrite <- (upper_length seq) in Hfair.
  destruct (@triple_mutations_sampled_returns (upper seq) sample_size r Hfair)
    as (fuel & res & r' & E).
  pose proof (E fuel0) as E'.
  destruct (triple_mutations_sampled_result _ _ _ _ E') as (Hlen & Hnd & Hin).
  rewrite upper_length in Hlen.
  exists (fuel + fuel0). eexists. exists r'. split; [lia|].
  rewrite process_sequence_triple_unfold, E'. split; [reflexivity|].
  cbn [assemble core_only sequences report].
  repeat split; auto.
  - now apply replace_k_differs.
  - now rewrite !length_map, range_length.
Qed.

Lemma process_sequence_triple_witness :
  ascii_text (lit "atgc") /\ ascii_text (lit "x") /\ ascii_text (lit "y") /\
  fair_tape (Nat.max (length (lit "atgc")) 4) (digit_rng 4) /\
  exists fuel res r',
    process_sequence fuel (lit "atgc") (lit "x") (lit "y") (lit "triple") true
                     (lit "5") 40 (digit_rng 4) = Ok res r' /\
    length (core_only res) = 40.
Proof.
  assert (Ha : ascii_text (lit "atgc")) by (now apply ascii_text_check).
  assert (Hx : ascii_text (lit "x")) by (now apply ascii_text_check).
  assert (Hy : ascii_text (lit "y")) by (now apply ascii_text_check).
  assert (Hf : fair_tape (Nat.max (length (lit "atgc")) 4) (digit_rng 4))
    by (apply (@digit_rng_fair 4); lia).
  split; [exact Ha|]. split; [exact Hx|]. split; [exact Hy|].
  split; [exact Hf|].
  destruct (@process_sequence_triple 0 (lit "atgc") (lit "x") (lit "y") true
              (lit "5") 40 (digit_rng 4) Ha Hx Hy Hf)
    as (fuel & res & r' & _ & E & Hlen & _).
  exists fuel, res, r'. split; [exact E | exact Hlen].
Defined.

Lemma od_set_extends (key : str) (seen : list str) :
  exists ext, od_set key seen = seen ++ ext.
Proof.
  destruct (str_In_dec key seen) as [Hin|Hout].
  - exists []. rewrite od_set_present by assumption. now rewrite app_nil_r.
  - exists [key]. now apply od_set_new.
Qed.

Lemma triple_loop_extends (seq : str) (target fuel : nat) :
  forall seen r res r',
    triple_loop fuel seq target seen r = Ok res r' ->
    exists ext, res = seen ++ ext.
Proof.
  induction fuel as [|fuel IH]; intros seen r res r' E;
    destruct (Nat.le_gt_cases target (length seen)) as [Hge|Hlt].
  - rewrite triple_loop_done in E by assumption. injection E as <- _.
    exists []. now rewrite app_nil_r.
  - rewrite triple_loop_zero in E by assumption. discriminate.
  - rewrite triple_loop_done in E by assumption. injection E as <- _.
    exists []. now rewrite app_nil_r.
  - rewrite triple_loop_step in E by assumption. apply bind_inv in E.
    destruct E as (x & r1 & _ & E). apply IH in E. destruct E as (ext & ->).
    destruct (od_set_extends x seen) as (e1 & ->).
    exists (e1 ++ ext). now rewrite app_assoc.
Qed.

Lemma triple_loop_prefix (seq : str) (t1 t2 fuel : nat) :
  t1 <= t2 ->
  forall seen r res2 r2,
    length seen <= t1 ->
    triple_loop fuel seq t2 seen r = Ok res2 r2 ->
    exists r1, triple_loop fuel seq t1 seen r = Ok (firstn t1 res2) r1.
Proof.
  intros Ht. induction fuel as [|fuel IH]; intros seen r res2 r2 Hlen E.
  - destruct (Nat.le_gt_cases t2 (length seen)) as [Hge|Hlt].
    + rewrite triple_loop_done in E by assumption. injection E as <- _.
      exists r. rewrite triple_loop_done by lia.
      now rewrite firstn_all2 by lia.
    + rewrite triple_loop_zero in E by assumption. discriminate.
  - destruct (Nat.le_gt_cases t1 (length seen)) as [Hge|Hlt].
    + destruct (triple_loop_extends _ _ _ _ _ E) as (ext & ->).
      exists r. rewrite triple_loop_done by assumption.
      replace t1 with (length seen) by lia.
      now rewrite firstn_app, firstn_all, Nat.sub_diag, firstn_O, app_nil_r.
    + rewrite triple_loop_step in E by lia. rewrite triple_loop_step by lia.
      apply bind_inv in E. destruct E as (x & r1 & Ex & E).
      rewrite (@bind_Ok _ _ _ _ _ _ _ Ex). apply (IH _ _ _ _ ) in E; auto.
      pose proof (od_set_length x seen). lia.
Qed.

(** X14.  Under one random source, asking [triple_mutations_sampled] for
    fewer strings gives the beginning of what it gives for more: if the call
    with the larger sample size returns, the call with the smaller one
    returns, with no more fuel, the first entries of that result. *)
Theorem triple_sample_prefix fuel seq n1 n2 r res2 r2 :
  n1 <= n2 ->
  triple_mutations_sampled fuel seq n2 r = Ok res2 r2 ->
  exists r1, triple_mutations_sampled fuel seq n1 r = Ok (firstn n1 res2) r1.
Proof.
  intros Hn E.
  destruct (triple_mutations_sampled_result _ _ _ _ E) as (Hlen & _).
  unfold triple_mutations_sampled in *.
  rewrite <- triple_upper_binom in Hlen.
  destruct (@triple_loop_prefix seq (Nat.min n1 (triple_upper seq))
              (Nat.min n2 (triple_upper seq)) fuel ltac:(lia) [] r res2 r2)
    as (r1 & E1); [simpl; lia | assumption |].
  exists r1. rewrite E1. f_equal.
  destruct (Nat.le_gt_cases n1 (triple_upper seq)) as [Hle|Hgt].
  - now rewrite Nat.min_l by assumption.
  - rewrite Nat.min_r by lia. rewrite !firstn_all2 by lia. reflexivity.
Qed.

Lemma triple_sample_prefix_witness :
  3 <= 5 /\
  exists res2 r2,
    triple_mutations_sampled 40 (lit "ATG") 5 cycle_rng = Ok res2 r2 /\
    exists r1,
      triple_mutations_sampled 40 (lit "ATG") 3 cycle_rng
      = Ok (firstn 3 res2) r1.
Proof.
  assert (Hn : 3 <= 5) by lia.
  split; [exact Hn|].
  eexists. eexists.
  assert (E : triple_mutations_sampled 40 (lit "ATG") 5 cycle_rng
              = Ok [lit "TAA"; lit "CAA"; lit "GAA"; lit "TCA"; lit "CCA"]
                   (Rng cycle_tape 30)) by reflexivity.
  split; [exact E|].
  exact (@triple_sample_prefix 40 (lit "ATG") 3 5 cycle_rng _ _ Hn E).
Defined.

(** ** Labels are distinct *)

Lemma lit_inj (a b : String.string) : lit a = lit b -> a = b.
Proof.
  unfold lit. intros H. apply (f_equal String.string_of_list_ascii) in H.
  now rewrite !String.string_of_list_ascii_of_string in H.
Qed.

Lemma dec_inj (a b : nat) : dec a = dec b -> a = b.
Proof.
  unfold dec. intros H. apply lit_inj in H.
  apply (f_equal DecimalString.NilEmpty.uint_of_string) in H.
  rewrite !DecimalString.NilEmpty.usu in H. injection H as H.
  apply (f_equal Nat.of_uint) in H.
  now rewrite !DecimalNat.Unsigned.of_to in H.
Qed.

Lemma labels_NoDup (prefix : str) (n : nat) :
  NoDup (map (fun i => prefix ++ dec (i + 1)) (range n)).
Proof.
  apply NoDup_map_inj_in; [|apply seq_NoDup].
  intros i j _ _ H. apply app_inv_head, dec_inj in H. lia.
Qed.

(** X15.  The labels of one result are pairwise distinct, in
    [process_sequence] and in the form handler: the decimal index that ends
    a label determines the position of the record. *)
Theorem labels_distinct :
  (forall fuel seq primer_f primer_r mut_type keep_length delete_fill_side
          sample_size r res r',
      process_sequence fuel seq primer_f primer_r mut_type keep_length
                       delete_fill_side sample_size r = Ok res r' ->
      NoDup (report res)) /\
  (forall seq_text primer_f primer_r mut_type count sample_size
          fill_side_choice r res r',
      run_block seq_text primer_f primer_r mut_type count sample_size
                fill_side_choice r = Ok res r' ->
      NoDup (report res)).
Proof.
  split.
  - intros fuel seq primer_f primer_r mut_type keep_length delete_fill_side
           sample_size r res r' E.
    apply process_sequence_inv in E. destruct E as [_ ->].
    rewrite (map_ext _ (fun i => (mut_type ++ lit "_") ++ dec (i + 1)))
      by (intros; now rewrite <- app_assoc).
    apply labels_NoDup.
  - intros seq_text primer_f primer_r mut_type count sample_size
           fill_side_choice r res r' E.
    apply run_block_inv in E. destruct E as [_ ->].
    rewrite (map_ext _ (fun i => (mut_type ++ lit "_k" ++ dec count ++ lit "_")
                                   ++ dec (i + 1)))
      by (intros; now rewrite <- !app_assoc).
    apply labels_NoDup.
Qed.

Lemma labels_distinct_witness :
  (exists res r',
      process_sequence 0 (lit "ATGCCGTAAGCT") (lit "X") (lit "Y")
                       (lit "single") true (lit "5") 10 cycle_rng = Ok res r' /\
      length (report res) = 36 /\
      NoDup (report res)) /\
  (exists res r',
      run_block (lit "ATGCCGTAAGCT") (lit "X") (lit "Y") (lit "delete") 1 100
                (lit "5") cycle_rng = Ok res r' /\
      length (report res) = 12 /\
      NoDup (report res)).
Proof.
  split.
  - eexists. eexists. split; [reflexivity|]. split; [reflexivity|].
    exact (proj1 labels_distinct 0 (lit "ATGCCGTAAGCT") (lit "X") (lit "Y")
             (lit "single") true (lit "5") 10 cycle_rng _ _ eq_refl).
  - eexists. eexists. split; [reflexivity|]. split; [reflexivity|].
    exact (proj2 labels_distinct (lit "ATGCCGTAAGCT") (lit "X") (lit "Y")
             (lit "delete") 1 100 (lit "5") cycle_rng _ _ eq_refl).
Defined.

(** ** More on the form handler *)

Lemma strip_upper_char (c : ascii) :
  negb (Ascii.eqb (upper_char c) newline) = negb (Ascii.eqb c newline).
Proof. destruct c as [[] [] [] [] [] [] [] []]; reflexivity. Qed.

Lemma normalize_idem (t : str) :
  upper (filter (fun c => negb (Ascii.eqb c newline))
                (upper (filter (fun c => negb (Ascii.eqb c newline)) t)))
  = upper (filter (fun c => negb (Ascii.eqb c newline)) t).
Proof.
  induction t as [|c t IH]; [reflexivity|]. simpl.
  destruct (negb (Ascii.eqb c newline)) eqn:E; [|exact IH].
  simpl. rewrite strip_upper_char, E. simpl.
  rewrite upper_char_idem. f_equal. exact IH.
Qed.

(** The handler always gets its core variants. *)
Lemma core_step_Ok (seq mut_type : str) (count n : nat) (r : rng) :
  exists core r',
    core_step seq mut_type count n r = Ok core r' /\
    let exhaustive :=
      if str_eqb mut_type (lit "replace") then _replace_k_mutations seq count
      else _delete_k_mutations seq count in
    length core = Nat.min (length exhaustive) n /\
    (exists rest, Permutation exhaustive (core ++ rest)) /\
    (length exhaustive <= n -> core = exhaustive).
Proof.
  unfold core_step. destruct (str_eqb mut_type (lit "replace")).
  - destruct (sample_or_all (_replace_k_mutations seq count) n r)
      as (core & r' & E & H). exists core, r'. split; assumption.
  - destruct (sample_or_all (_delete_k_mutations seq count) n r)
      as (core & r' & E & H). exists core, r'. split; assumption.
Qed.

(** X16.  On every non-empty sequence the form handler returns, whatever the
    mutation type, [count] and sample size, and the full sequences are the
    core variants between the primers as typed.  When the mutation type is
    replace the core variants are min(exhaustive count, sample_size) entries
    of the exhaustive substitution list.  When it is not, they are
    min(C(L,count), sample_size) entries taken without replacement out of the
    exhaustive deletion list; each of them is the sequence with [count]
    letters dropped and has length L - count. *)
Theorem delete_mode_sampling seq_text primer_f primer_r mut_type count
    sample_size fill_side_choice r :
  let seq := upper (filter (fun c => negb (Ascii.eqb c newline)) seq_text) in
  let exhaustive := _delete_k_mutations seq count in
  seq <> [] ->
  exists res r',
    run_block seq_text primer_f primer_r mut_type count sample_size
              fill_side_choice r = Ok res r' /\
    sequences res =
      map (fun c => primer_f ++ c ++ primer_r) (core_only res) /\
    length (report res) = length (core_only res) /\
    (mut_type = lit "replace" ->
     length (core_only res)
       = Nat.min (length (_replace_k_mutations seq count)) sample_size /\
     forall m, In m (core_only res) -> In m (_replace_k_mutations seq count))
    /\
    (mut_type <> lit "replace" ->
     length (core_only res)
       = Nat.min (binom (length seq) count) sample_size /\
     (exists rest, Permutation exhaustive (core_only res ++ rest)) /\
     (forall c, In c (core_only res) ->
                length c = length seq - count /\ subseq c seq)).
Proof.
  intros seq exhaustive Hne.
  destruct (core_step_Ok seq mut_type count sample_size r)
    as (core & r1 & E & Hlen & (rest & Hperm) & _).
  destruct (@run_block_Ok seq_text primer_f primer_r mut_type count
              sample_size fill_side_choice r core r1 Hne E) as (r2 & Er).
  destruct (delete_k_facts seq count) as [Hcount Hin].
  eexists _, r2. split; [exact Er|]. cbn [core_only sequences report].
  split; [reflexivity|]. split; [now rewrite length_map, range_length|].
  split.
  - intros ->. rewrite str_eqb_refl in Hlen, Hperm. split; [exact Hlen|].
    intros m Hm. apply (Permutation_in _ (Permutation_sym Hperm)).
    apply in_or_app. now left.
  - intros Hm. rewrite (str_eqb_neq Hm) in Hlen, Hperm.
    split; [now rewrite Hlen, Hcount|]. split; [now exists rest|].
    intros c Hc. apply Hin.
    apply (Permutation_in _ (Permutation_sym Hperm)).
    apply in_or_app. now left.
Qed.

Lemma delete_mode_sampling_witness :
  upper (filter (fun c => negb (Ascii.eqb c newline)) (lit "atgca")) <> [] /\
  lit "delete" <> lit "replace" /\
  (exists res r',
      run_block (lit "atgca") (lit "x") (lit "y") (lit "delete") 2 4 (lit "3")
                cycle_rng = Ok res r' /\
      length (core_only res) = 4) /\
  (exists res r',
      run_block (lit "atgca") (lit "x") (lit "y") (lit "replace") 2 4
                (lit "3") cycle_rng = Ok res r' /\
      length (core_only res) = 4).
Proof.
  assert (H : upper (filter (fun c => negb (Ascii.eqb c newline))
                            (lit "atgca")) <> []) by discriminate.
  assert (Hm : lit "delete" <> lit "replace") by discriminate.
  split; [exact H|]. split; [exact Hm|]. split.
  - destruct (@delete_mode_sampling (lit "atgca") (lit "x") (lit "y")
                (lit "delete") 2 4 (lit "3") cycle_rng H)
      as (res & r' & E & _ & _ & _ & Hdel).
    exists res, r'. split; [exact E | exact (proj1 (Hdel Hm))].
  - destruct (@delete_mode_sampling (lit "atgca") (lit "x") (lit "y")
                (lit "replace") 2 4 (lit "3") cycle_rng H)
      as (res & r' & E & _ & _ & Hrep & _).
    exists res, r'. split; [exact E | exact (proj1 (Hrep eq_refl))].
Defined.

(** X17.  The result of the form handler does not depend on the selected
    fill side, in either mode; and it depends on the sequence text through
    its uppercased form without newlines only. *)
Theorem run_block_insensitive seq_text primer_f primer_r mut_type count
    sample_size r :
  (forall side1 side2,
      value (run_block seq_text primer_f primer_r mut_type count sample_size
                       side1 r)
      = value (run_block seq_text primer_f primer_r mut_type count sample_size
                         side2 r)) /\
  (forall fill_side_choice,
      run_block seq_text primer_f primer_r mut_type count sample_size
                fill_side_choice r
      = run_block (upper (filter (fun c => negb (Ascii.eqb c newline))
                                 seq_text))
                  primer_f primer_r mut_type count sample_size
                  fill_side_choice r).
Proof.
  split.
  - intros side1 side2.
    destruct (upper (filter (fun c => negb (Ascii.eqb c newline)) seq_text))
      as [|c0 s0] eqn:Es.
    + now rewrite !run_block_empty by assumption.
    + assert (Hne : upper (filter (fun c => negb (Ascii.eqb c newline))
                                  seq_text) <> []) by (rewrite Es; discriminate).
      destruct (core_step_Ok
                  (upper (filter (fun c => negb (Ascii.eqb c newline))
                                 seq_text)) mut_type count sample_size r)
        as (core & r1 & E & _).
      destruct (@run_block_Ok seq_text primer_f primer_r mut_type count
                  sample_size side1 r core r1 Hne E) as (ra & Ea).
      destruct (@run_block_Ok seq_text primer_f primer_r mut_type count
                  sample_size side2 r core r1 Hne E) as (rb & Eb).
      now rewrite Ea, Eb.
  - intros fill_side_choice. unfold run_block. now rewrite normalize_idem.
Qed.

(** ** Letters outside the alphabet *)

Lemma flat_map_length_sum (A B : Type) (f : A -> list B) (l : list A) :
  length (flat_map f l) = list_sum (map (fun x => length (f x)) l).
Proof.
  induction l as [|x l IH]; simpl; [reflexivity|].
  now rewrite length_app, IH.
Qed.

Lemma other_bases_length (c : ascii) :
  length (other_bases c) = if existsb (Ascii.eqb c) BASES then 3 else 4.
Proof.
  unfold other_bases, BASES. cbn [filter existsb].
  rewrite !(Ascii.eqb_sym c).
  destruct (Ascii.eqb "A" c) eqn:EA;
    [apply Ascii.eqb_eq in EA; subst; reflexivity|].
  destruct (Ascii.eqb "T" c) eqn:ET;
    [apply Ascii.eqb_eq in ET; subst; reflexivity|].
  destruct (Ascii.eqb "C" c) eqn:EC;
    [apply Ascii.eqb_eq in EC; subst; reflexivity|].
  destruct (Ascii.eqb "G" c); reflexivity.
Qed.

(** X18.  [single_mutations] checks no letter: on any string it returns
    three variants for every letter that is one of A, T, C, G and four for
    every other letter (a lowercase base included), so 3*L entries plus one
    for every letter outside the alphabet. *)
Theorem single_mutations_count (seq : str) :
  length (single_mutations seq) =
  3 * length seq +
  length (filter (fun c => negb (existsb (Ascii.eqb c) BASES)) seq).
Proof.
  unfold single_mutations. rewrite flat_map_length_sum, enumerate_range.
  rewrite map_map.
  rewrite (map_ext _ (fun i => length (other_bases (char_at seq i))))
    by (intros; apply length_map).
  assert (H : map (fun i => length (other_bases (char_at seq i)))
                  (range (length seq))
              = map (fun c => length (other_bases c)) seq).
  { rewrite <- (map_map (char_at seq) (fun c => length (other_bases c))).
    f_equal. apply (nth_ext _ _ "000"%char "000"%char).
    - now rewrite length_map, range_length.
    - intros i Hi. rewrite length_map, range_length in Hi.
      rewrite (nth_indep _ _ (char_at seq 0))
        by (now rewrite length_map, range_length).
      rewrite map_nth. unfold range. now rewrite seq_nth. }
  rewrite H. clear H. induction seq as [|c s IH]; [reflexivity|].
  change (list_sum (map (fun c => length (other_bases c)) (c :: s)))
    with (length (other_bases c)
          + list_sum (map (fun c => length (other_bases c)) s)).
  rewrite IH, other_bases_length. cbn [filter].
  change (length (c :: s)) with (S (length s)).
  destruct (existsb (Ascii.eqb c) BASES); cbn [negb length]; lia.
Qed.

(** ** The deletion variants are the subsequences *)

Lemma fold_del_shift (x : ascii) (q : list nat) : forall s : str,
  fold_left (fun new_seq p => list_del new_seq p) (map S q) (x :: s)
  = x :: fold_left (fun new_seq p => list_del new_seq p) q s.
Proof.
  induction q as [|p q IH]; intros s; [reflexivity|].
  simpl. change (list_del (x :: s) (S p)) with (x :: list_del s p).
  apply IH.
Qed.

Lemma subseq_map (A B : Type) (f : A -> B) (c l : list A) :
  subseq c l -> subseq (map f c) (map f l).
Proof. induction 1; simpl; constructor; assumption. Qed.

Lemma subseq_positions (c s : str) :
  subseq c s ->
  exists pos,
    subseq pos (range (length s)) /\
    length pos + length c = length s /\
    fold_left (fun new_seq p => list_del new_seq p) (rev pos) s = c.
Proof.
  induction 1 as [|x c l Hs IH|x c l Hs IH].
  - exists []. repeat split. constructor.
  - destruct IH as (pos & Hp & Hl & Hf). exists (0 :: map S pos).
    split; [|split].
    + unfold range. simpl. apply subseq_take.
      rewrite <- seq_shift. now apply subseq_map.
    + simpl. rewrite length_map. lia.
    + simpl rev. rewrite fold_left_app, <- map_rev, fold_del_shift, Hf.
      reflexivity.
  - destruct IH as (pos & Hp & Hl & Hf). exists (map S pos).
    split; [|split].
    + unfold range. simpl. apply subseq_skip.
      rewrite <- seq_shift. now apply subseq_map.
    + simpl. rewrite length_map. lia.
    + rewrite <- map_rev, fold_del_shift, Hf. reflexivity.
Qed.


(** X19.  The strings the k-exhaustive deletion generator returns are
    exactly the strings obtained from the sequence by dropping k letters:
    every such string is returned, and nothing else is. *)
Theorem delete_k_mutations_In (seq : str) (k : nat) (c : str) :
  In c (_delete_k_mutations seq k) <->
  subseq c seq /\ length c + k = length seq.
Proof.
  split.
  - intros Hc.
    assert (Hk : k <= length seq).
    { destruct (Nat.le_gt_cases k (length seq)) as [|Hlt]; [assumption|].
      unfold _delete_k_mutations in Hc.
      rewrite combinations_too_long in Hc by (now rewrite range_length).
      contradiction. }
    apply delete_k_facts in Hc. destruct Hc as [Hl Hs]. split; [assumption|].
    lia.
  - intros [Hs Hl]. destruct (subseq_positions Hs) as (pos & Hp & Hlp & Hf).
    unfold _delete_k_mutations. apply in_map_iff. exists pos. split.
    + now rewrite (@sorted_of_positions _ _ Hp).
    + apply combinations_In. split; [assumption | lia].
Qed.

Lemma delete_k_mutations_In_witness :
  subseq (lit "AC") (lit "ATGC") /\
  length (lit "AC") + 2 = length (lit "ATGC") /\
  In (lit "AC") (_delete_k_mutations (lit "ATGC") 2).
Proof.
  assert (Hs : subseq (lit "AC") (lit "ATGC")).
  { apply subseq_take, subseq_skip, subseq_skip, subseq_take, subseq_nil. }
  assert (Hl : length (lit "AC") + 2 = length (lit "ATGC")) by reflexivity.
  split; [exact Hs|]. split; [exact Hl|].
  exact (proj2 (delete_k_mutations_In (lit "ATGC") 2 (lit "AC"))
           (conj Hs Hl)).
Defined.
